(** * Smart Task Planner: the CPM/PERT scheduling engine

    A shallow embedding of [SchedulingService] (backend/app/services.py):
    [compute_schedule] and the deadline analysis of [generate_insights],
    together with the parts of NetworkX and of Python's [datetime] module
    the service calls ([DiGraph.add_node], [DiGraph.add_edge],
    [topological_generations], [topological_sort],
    [is_directed_acyclic_graph], [dag_longest_path]; [timedelta(days=x)],
    [datetime + timedelta], [timedelta.total_seconds]).

    Numbers.  A Python [float] is an IEEE 754 binary64 number and is
    modelled by Rocq's primitive [float], whose operations round as the
    hardware does; [+], [-], [*], [/], [<] and [abs] below are the rounded
    ones, and NaN, the infinities and the two zeros are values like any
    other.  Python integers are [Z].  A naive [datetime] is the number of
    microseconds since 0001-01-01T00:00:00, a [timedelta] a number of
    microseconds; both are range checked as CPython does.

    Effects.  The task objects are mutated in place by the service; the
    embedding threads the task list as state and returns its final value
    next to the outcome, so what has been written when an exception is
    raised remains visible.  The tasks of a list are distinct objects (the
    rows of one plan), so a list of records stands for them. *)

From Stdlib Require Import ZArith Floats Lia.
From stdpp Require Import base option list gmap strings relations.

Open Scope nat_scope.
Open Scope stdpp_scope.

(** ** Outcomes of Python code *)

Inductive exn : Type :=
  | ValueError (msg : string)
  | OverflowError
  | KeyError
  | TypeError
  | RuntimeError
  | NetworkXUnfeasible.

(** [Diverge] stands for a loop that has used up the fuel of the model;
    it is not an exception and no [except] clause catches it. *)
Inductive result (A : Type) : Type :=
  | Ok (a : A)
  | Raise (e : exn)
  | Diverge.

Arguments Ok {A} a.
Arguments Raise {A} e.
Arguments Diverge {A}.

#[global] Instance result_ret : MRet result := λ A a, Ok a.
#[global] Instance result_bind : MBind result := λ A B f m,
  match m with
  | Ok a => f a
  | Raise e => Raise e
  | Diverge => Diverge
  end.

Fixpoint foldM {A B : Type} (f : A → B → result A) (a : A) (l : list B) : result A :=
  match l with
  | [] => Ok a
  | b :: l' => a' ← f a b; foldM f a' l'
  end.

(** A dictionary read [d[k]], raising [KeyError] when the key is absent. *)
Definition getitem {V : Type} (d : gmap nat V) (k : nat) : result V :=
  match d !! k with
  | Some v => Ok v
  | None => Raise KeyError
  end.

(** ** Python's [max] and [min] *)

(** [max(iterable)] on floats: the running maximum is replaced by an item
    that compares greater ([item > max]); [ValueError] on an empty
    iterable is avoided by passing the first item apart. *)
Definition py_max (x : float) (l : list float) : float :=
  foldl (λ m y, if (m <? y)%float then y else m) x l.

(** [min(iterable)] on floats: replaced by an item that compares less. *)
Definition py_min (x : float) (l : list float) : float :=
  foldl (λ m y, if (y <? m)%float then y else m) x l.

(** [max(items, key=key)] with integer keys: the first item whose key is
    maximal. *)
Definition py_max_by {A : Type} (key : A → Z) (x : A) (l : list A) : A :=
  foldl (λ m y, if (key m <? key y)%Z then y else m) x l.


(** ** Python's [datetime] module *)

Abbreviation datetime := Z (only parsing).
Abbreviation timedelta := Z (only parsing).

Definition us_per_day : Z := 86400000000.

(** [timedelta.max.days] *)
Definition max_delta_days : Z := 999999999.

(** [date.max.toordinal()], the number of days of the years 1 to 9999. *)
Definition max_ordinal : Z := 3652059.

(** The integer [PyLong_FromDouble] gives for the integral part ([modf])
    of a finite float. *)
Definition int_part (x : float) : Z :=
  match Prim2SF x with
  | S754_finite s m e =>
      let a := if (0 <=? e)%Z then Z.shiftl (Zpos m) e else Z.shiftr (Zpos m) (- e) in
      if s then (- a)%Z else a
  | _ => 0%Z
  end.

(** The float of an integer of magnitude below 2^63. *)
Definition float_of_Z (z : Z) : float :=
  if (z <? 0)%Z then (- of_uint63 (Uint63.of_Z (- z)))%float
  else of_uint63 (Uint63.of_Z z).

(** The fractional part [modf] gives for a finite float. *)
Definition frac_part (x : float) : float :=
  match Prim2SF x with
  | S754_finite s m e =>
      if (0 <=? e)%Z then 0%float else (x - float_of_Z (int_part x))%float
  | _ => x
  end.

(** C's [round]: to the nearest integer, halves away from zero. *)
Definition c_round (x : float) : Z :=
  let t := int_part x in
  if (abs (frac_part x) <? 0.5)%float then t
  else if (x <? 0)%float then (t - 1)%Z else (t + 1)%Z.

(** [microseconds_to_delta]: the day count has to fit. *)
Definition microseconds_to_delta (us : Z) : result timedelta :=
  if decide (- max_delta_days ≤ us `div` us_per_day ≤ max_delta_days)%Z
  then Ok us
  else Raise OverflowError.

Definition nan_message : string := "cannot convert float NaN to integer".

(** [timedelta(days=days)] for a float (CPython's [delta_new] and
    [accum]): the whole days are converted exactly, the fraction of a day
    is multiplied by the microseconds of a day in floating point, and what
    is left of a microsecond is rounded, halves to the even sum. *)
Definition timedelta_days (days : float) : result timedelta :=
  match Prim2SF days with
  | S754_nan => Raise (ValueError nan_message)
  | S754_infinity _ => Raise OverflowError
  | _ =>
      let x := (int_part days * us_per_day)%Z in
      let fracpart := frac_part days in
      if (fracpart =? 0)%float then microseconds_to_delta x
      else
        let dnum := (86400000000 * fracpart)%float in
        let x := (x + int_part dnum)%Z in
        let leftover_us := frac_part dnum in
        if (leftover_us =? 0)%float then microseconds_to_delta x
        else
          let whole_us := c_round leftover_us in
          let whole_us :=
            if (abs (float_of_Z whole_us - leftover_us) =? 0.5)%float
            then
              let x_is_odd := if Z.odd x then 1%Z else 0%Z in
              (2 * c_round ((leftover_us + float_of_Z x_is_odd) * 0.5)%float
               - x_is_odd)%Z
            else whole_us in
          microseconds_to_delta (x + whole_us)
  end.

(** [d + td]: the result has to lie in the years 1 to 9999. *)
Definition datetime_add (d : datetime) (td : timedelta) : result datetime :=
  let r := (d + td)%Z in
  if decide (0 ≤ r < max_ordinal * us_per_day)%Z then Ok r else Raise OverflowError.





(** ** The data model (backend/app/models.py)

    A [Float] column holds a Python float or [None], a [DateTime] column
    a naive datetime or [None], the JSON column [dependencies] a list of
    integers or [None]. *)

Record Task : Type := mkTask {
  task_id : Z;
  name : string;
  optimistic_duration : float;
  most_likely_duration : float;
  pessimistic_duration : float;
  expected_duration : option float;
  earliest_start : option float;
  earliest_finish : option float;
  latest_start : option float;
  latest_finish : option float;
  slack : option float;
  start_date : option datetime;
  end_date : option datetime;
  dependencies : option (list Z);
  is_complete : Z;
  is_on_critical_path : Z
}.


Definition set_expected_duration (v : float) (t : Task) : Task :=
  mkTask (task_id t) (name t) (optimistic_duration t) (most_likely_duration t)
    (pessimistic_duration t) (Some v) (earliest_start t) (earliest_finish t)
    (latest_start t) (latest_finish t) (slack t) (start_date t) (end_date t)
    (dependencies t) (is_complete t) (is_on_critical_path t).

Definition set_earliest_start (v : float) (t : Task) : Task :=
  mkTask (task_id t) (name t) (optimistic_duration t) (most_likely_duration t)
    (pessimistic_duration t) (expected_duration t) (Some v) (earliest_finish t)
    (latest_start t) (latest_finish t) (slack t) (start_date t) (end_date t)
    (dependencies t) (is_complete t) (is_on_critical_path t).

Definition set_earliest_finish (v : float) (t : Task) : Task :=
  mkTask (task_id t) (name t) (optimistic_duration t) (most_likely_duration t)
    (pessimistic_duration t) (expected_duration t) (earliest_start t) (Some v)
    (latest_start t) (latest_finish t) (slack t) (start_date t) (end_date t)
    (dependencies t) (is_complete t) (is_on_critical_path t).

Definition set_latest_start (v : float) (t : Task) : Task :=
  mkTask (task_id t) (name t) (optimistic_duration t) (most_likely_duration t)
    (pessimistic_duration t) (expected_duration t) (earliest_start t) (earliest_finish t)
    (Some v) (latest_finish t) (slack t) (start_date t) (end_date t)
    (dependencies t) (is_complete t) (is_on_critical_path t).

Definition set_latest_finish (v : float) (t : Task) : Task :=
  mkTask (task_id t) (name t) (optimistic_duration t) (most_likely_duration t)
    (pessimistic_duration t) (expected_duration t) (earliest_start t) (earliest_finish t)
    (latest_start t) (Some v) (slack t) (start_date t) (end_date t)
    (dependencies t) (is_complete t) (is_on_critical_path t).

Definition set_slack (v : float) (t : Task) : Task :=
  mkTask (task_id t) (name t) (optimistic_duration t) (most_likely_duration t)
    (pessimistic_duration t) (expected_duration t) (earliest_start t) (earliest_finish t)
    (latest_start t) (latest_finish t) (Some v) (start_date t) (end_date t)
    (dependencies t) (is_complete t) (is_on_critical_path t).

Definition set_is_on_critical_path (v : Z) (t : Task) : Task :=
  mkTask (task_id t) (name t) (optimistic_duration t) (most_likely_duration t)
    (pessimistic_duration t) (expected_duration t) (earliest_start t) (earliest_finish t)
    (latest_start t) (latest_finish t) (slack t) (start_date t) (end_date t)
    (dependencies t) (is_complete t) v.

Definition set_start_date (v : datetime) (t : Task) : Task :=
  mkTask (task_id t) (name t) (optimistic_duration t) (most_likely_duration t)
    (pessimistic_duration t) (expected_duration t) (earliest_start t) (earliest_finish t)
    (latest_start t) (latest_finish t) (slack t) (Some v) (end_date t)
    (dependencies t) (is_complete t) (is_on_critical_path t).

Definition set_end_date (v : datetime) (t : Task) : Task :=
  mkTask (task_id t) (name t) (optimistic_duration t) (most_likely_duration t)
    (pessimistic_duration t) (expected_duration t) (earliest_start t) (earliest_finish t)
    (latest_start t) (latest_finish t) (slack t) (start_date t) (Some v)
    (dependencies t) (is_complete t) (is_on_critical_path t).

(** ** NetworkX: [DiGraph] *)

(** Nodes in insertion order, the node attribute [weight], the adjacency
    dictionaries [_succ] and [_pred] (keys in insertion order) and the edge
    attribute [weight] (an integer where present). *)
Record DiGraph : Type := mkDiGraph {
  nodes : list nat;
  node_weight : gmap nat (option float);
  succ : gmap nat (list nat);
  pred : gmap nat (list nat);
  edge_weight : gmap (nat * nat) Z
}.

Definition empty_graph : DiGraph := mkDiGraph [] ∅ ∅ ∅ ∅.

Definition adj (m : gmap nat (list nat)) (n : nat) : list nat := default [] (m !! n).

Definition successors (G : DiGraph) (n : nat) : list nat := adj (succ G) n.
Definition predecessors (G : DiGraph) (n : nat) : list nat := adj (pred G) n.

(** Appending a key to an insertion-ordered dictionary: a key already
    present keeps its place. *)
Definition add_key (k : nat) (l : list nat) : list nat :=
  if decide (k ∈ l) then l else l ++ [k].

(** [G.add_node(n, weight=w)] *)
Definition add_node (n : nat) (w : option float) (G : DiGraph) : DiGraph :=
  mkDiGraph (add_key n (nodes G)) (<[n := w]> (node_weight G))
            (succ G) (pred G) (edge_weight G).

(** [G.add_edge(u, v)] without attributes: both endpoints become nodes if
    they are not, [v] is added to [_succ[u]] and [u] to [_pred[v]]; the edge
    carries an empty attribute dictionary. *)
Definition add_edge (u v : nat) (G : DiGraph) : DiGraph :=
  mkDiGraph (add_key v (add_key u (nodes G))) (node_weight G)
            (<[u := add_key v (successors G u)]> (succ G))
            (<[v := add_key u (predecessors G v)]> (pred G))
            (edge_weight G).

Definition in_degree (G : DiGraph) (v : nat) : nat := length (predecessors G v).

(** ** NetworkX: topological sorting (Kahn's algorithm by generations) *)

Abbreviation kahn_state := (gmap nat Z * list nat)%type.

(** The body of [for child in G.neighbors(node)]. *)
Definition dec_child (st : kahn_state) (child : nat) : result kahn_state :=
  match st.1 !! child with
  | None => Raise RuntimeError
  | Some d =>
      let d' := (d - 1)%Z in
      if decide (d' = 0%Z)
      then Ok (delete child st.1, st.2 ++ [child])
      else Ok (<[child := d']> st.1, st.2)
  end.

(** The body of [for node in this_generation]. *)
Definition visit_node (G : DiGraph) (st : kahn_state) (node : nat) : result kahn_state :=
  if decide (node ∈ nodes G)
  then foldM dec_child st (successors G node)
  else Raise RuntimeError.

Fixpoint generations_loop (fuel : nat) (G : DiGraph) (indegree_map : gmap nat Z)
    (zero_indegree : list nat) : result (list (list nat)) :=
  match zero_indegree with
  | [] => if decide (indegree_map = ∅) then Ok [] else Raise NetworkXUnfeasible
  | _ =>
      match fuel with
      | O => Diverge
      | S fuel' =>
          st ← foldM (visit_node G) (indegree_map, []) zero_indegree;
          rest ← generations_loop fuel' G st.1 st.2;
          Ok (zero_indegree :: rest)
      end
  end.

Definition initial_indegree (G : DiGraph) : gmap nat Z :=
  list_to_map (omap (λ v, if decide (0 < in_degree G v)
                          then Some (v, Z.of_nat (in_degree G v)) else None)
                    (nodes G)).

Definition initial_zero (G : DiGraph) : list nat :=
  filter (λ v, in_degree G v = 0) (nodes G).

Definition topological_generations (G : DiGraph) : result (list (list nat)) :=
  generations_loop (S (length (nodes G))) G (initial_indegree G) (initial_zero G).

Definition topological_sort (G : DiGraph) : result (list nat) :=
  gens ← topological_generations G; Ok (concat gens).

(** [has_cycle] catches [NetworkXUnfeasible] only. *)
Definition has_cycle (G : DiGraph) : result bool :=
  match topological_sort G with
  | Ok _ => Ok false
  | Raise NetworkXUnfeasible => Ok true
  | Raise e => Raise e
  | Diverge => Diverge
  end.

Definition is_directed_acyclic_graph (G : DiGraph) : result bool :=
  b ← has_cycle G; Ok (negb b).

(** ** NetworkX: [dag_longest_path] *)

(** A Python dictionary whose iteration order is observed: the keys in
    insertion order next to the finite map. *)
Record odict (V : Type) : Type := mkOdict {
  okeys : list nat;
  omap_of : gmap nat V
}.

Arguments mkOdict {V} okeys omap_of.
Arguments okeys {V} o.
Arguments omap_of {V} o.

Definition oempty {V : Type} : odict V := mkOdict [] ∅.

Definition setitem {V : Type} (k : nat) (v : V) (d : odict V) : odict V :=
  mkOdict (add_key k (okeys d)) (<[k := v]> (omap_of d)).

Definition oitems {V : Type} (d : odict V) : list (nat * V) :=
  omap (λ k, (λ v, (k, v)) <$> omap_of d !! k) (okeys d).

Definition ovalues {V : Type} (d : odict V) : list V := (oitems d).*2.

Fixpoint mapR {A B : Type} (f : A → result B) (l : list A) : result (list B) :=
  match l with
  | [] => Ok []
  | a :: l' => b ← f a; bs ← mapR f l'; Ok (b :: bs)
  end.

Definition default_weight : Z := 1%Z.

(** [data.get(weight, default_weight)] on the attribute dictionary of the
    edge [(u, v)]. *)
Definition edge_get_weight (G : DiGraph) (u v : nat) : Z :=
  default default_weight (edge_weight G !! (u, v)).

Definition dist_step (G : DiGraph) (dist : odict (Z * nat)) (v : nat)
    : result (odict (Z * nat)) :=
  us ← mapR (λ u, du ← getitem (omap_of dist) u;
                  Ok ((du.1 + edge_get_weight G u v)%Z, u))
            (predecessors G v);
  let maxu := match us with
              | [] => (0%Z, v)
              | x :: xs => py_max_by fst x xs
              end in
  Ok (setitem v (if (0 <=? maxu.1)%Z then maxu else (0%Z, v)) dist).

(** [while u != v: path.append(v); u = v; v = dist[v][1]] *)
Fixpoint trace_back (fuel : nat) (dist : gmap nat (Z * nat)) (u : option nat) (v : nat)
    (path : list nat) : result (list nat) :=
  if decide (u = Some v) then Ok path
  else match fuel with
       | O => Diverge
       | S fuel' =>
           d ← getitem dist v;
           trace_back fuel' dist (Some v) d.2 (path ++ [v])
       end.

Definition dag_longest_path (G : DiGraph) : result (list nat) :=
  match nodes G with
  | [] => Ok []
  | _ =>
      topo_order ← topological_sort G;
      dist ← foldM (dist_step G) oempty topo_order;
      match oitems dist with
      | [] => Raise (ValueError "max() arg is an empty sequence")
      | x :: xs =>
          let v := (py_max_by (λ kv, kv.2.1) x xs).1 in
          path ← trace_back (S (length (nodes G))) (omap_of dist) None v [];
          Ok (reverse path)
      end
  end.

(** ** [SchedulingService.compute_schedule] *)

Definition enumerate {A : Type} (l : list A) : list (nat * A) :=
  zip (seq 0 (length l)) l.

(** Step 1: the PERT formula, written into the task. *)
Definition pert_value (t : Task) : float :=
  ((optimistic_duration t + 4 * most_likely_duration t + pessimistic_duration t) / 6)%float.

Definition pert (t : Task) : Task := set_expected_duration (pert_value t) t.

(** Step 2: the dependency graph. *)
Definition add_dependency (n i : nat) (G : DiGraph) (dep_idx : Z) : DiGraph :=
  if decide (0 ≤ dep_idx < Z.of_nat n)%Z
  then add_edge (Z.to_nat dep_idx) i G
  else G.

Definition add_dependencies (n : nat) (G : DiGraph) (it : nat * Task) : DiGraph :=
  match dependencies it.2 with
  | Some (d :: ds) => foldl (add_dependency n it.1) G (d :: ds)
  | _ => G
  end.

Definition build_graph (tasks : list Task) : DiGraph :=
  let G := foldl (λ G it, add_node it.1 (expected_duration it.2) G)
                 empty_graph (enumerate tasks) in
  foldl (add_dependencies (length tasks)) G (enumerate tasks).

(** [task_map[node]] *)
Definition task_lookup (task_map : list Task) (node : nat) : result Task :=
  match task_map !! node with
  | Some task => Ok task
  | None => Raise KeyError
  end.

(** An attribute that may hold [None], used as an operand of float
    arithmetic. *)
Definition as_float (x : option float) : result float :=
  match x with
  | Some d => Ok d
  | None => Raise TypeError
  end.

(** Step 5: the forward pass, one iteration of [for node in topo_order]. *)
Definition forward_step (G : DiGraph) (task_map : list Task)
    (st : gmap nat float * odict float) (node : nat)
    : result (gmap nat float * odict float) :=
  task ← task_lookup task_map node;
  es ← match predecessors G node with
       | [] => Ok 0%float
       | p :: ps =>
           ef_p ← getitem (omap_of st.2) p;
           ef_ps ← mapR (getitem (omap_of st.2)) ps;
           Ok (py_max ef_p ef_ps)
       end;
  d ← as_float (expected_duration task);
  Ok (<[node := es]> st.1, setitem node (es + d)%float st.2).

Definition forward_pass (G : DiGraph) (task_map : list Task) (topo_order : list nat)
    : result (gmap nat float * odict float) :=
  foldM (forward_step G task_map) (∅, oempty) topo_order.

(** [max(earliest_finish.values()) if earliest_finish else 0.0] *)
Definition total_duration_of (earliest_finish : odict float) : float :=
  match ovalues earliest_finish with
  | [] => 0%float
  | x :: xs => py_max x xs
  end.

(** Step 6: the backward pass, one iteration of
    [for node in reversed(topo_order)]. *)
Definition backward_step (G : DiGraph) (task_map : list Task) (total_duration : float)
    (st : gmap nat float * gmap nat float) (node : nat)
    : result (gmap nat float * gmap nat float) :=
  task ← task_lookup task_map node;
  lf ← match successors G node with
       | [] => Ok total_duration
       | s :: ss =>
           ls_s ← getitem st.1 s;
           ls_ss ← mapR (getitem st.1) ss;
           Ok (py_min ls_s ls_ss)
       end;
  d ← as_float (expected_duration task);
  Ok (<[node := (lf - d)%float]> st.1, <[node := lf]> st.2).

(** The state is the pair (latest_start, latest_finish). *)
Definition backward_pass (G : DiGraph) (task_map : list Task) (total_duration : float)
    (topo_order : list nat) : result (gmap nat float * gmap nat float) :=
  foldM (backward_step G task_map total_duration) (∅, ∅) (reverse topo_order).

(** Step 7: slack and the zero-slack nodes. *)

(** The float literal [0.01]. *)
Definition epsilon : float := 0x1.47ae147ae147bp-7%float.

Definition slack_step (earliest_start latest_start : gmap nat float)
    (st : gmap nat float * list nat) (node : nat) : result (gmap nat float * list nat) :=
  ls ← getitem latest_start node;
  es ← getitem earliest_start node;
  let s := (ls - es)%float in
  Ok (<[node := s]> st.1,
      if (abs s <? epsilon)%float then st.2 ++ [node] else st.2).

Definition slack_pass (G : DiGraph) (earliest_start latest_start : gmap nat float)
    : result (gmap nat float * list nat) :=
  foldM (slack_step earliest_start latest_start) (∅, []) (nodes G).

(** Step 8: writing the results into the task objects. *)

Record schedule : Type := mkSchedule {
  sched_earliest_start : gmap nat float;
  sched_earliest_finish : gmap nat float;
  sched_latest_start : gmap nat float;
  sched_latest_finish : gmap nat float;
  sched_slack : gmap nat float;
  critical_path_nodes : list nat
}.

(** [start_date + timedelta(days=days)] *)
Definition add_days (start_date : datetime) (days : float) : result datetime :=
  td ← timedelta_days days; datetime_add start_date td.

(** The body of [for i, task in enumerate(tasks)]; the task is returned
    with the assignments made before an exception, if any. *)
Definition update_task (s : schedule) (start_date : datetime) (i : nat) (task : Task)
    : Task * result () :=
  match sched_earliest_start s !! i with
  | None => (task, Raise KeyError)
  | Some es =>
  let task := set_earliest_start es task in
  match sched_earliest_finish s !! i with
  | None => (task, Raise KeyError)
  | Some ef =>
  let task := set_earliest_finish ef task in
  match sched_latest_start s !! i with
  | None => (task, Raise KeyError)
  | Some ls =>
  let task := set_latest_start ls task in
  match sched_latest_finish s !! i with
  | None => (task, Raise KeyError)
  | Some lf =>
  let task := set_latest_finish lf task in
  match sched_slack s !! i with
  | None => (task, Raise KeyError)
  | Some sl =>
  let task := set_slack sl task in
  let task := set_is_on_critical_path
                (if decide (i ∈ critical_path_nodes s) then 1 else 0)%Z task in
  match add_days start_date es with
  | Raise e => (task, Raise e)
  | Diverge => (task, Diverge)
  | Ok sd =>
  let task := set_start_date sd task in
  match add_days start_date ef with
  | Raise e => (task, Raise e)
  | Diverge => (task, Diverge)
  | Ok ed => (set_end_date ed task, Ok ())
  end end end end end end end.

Fixpoint update_tasks (s : schedule) (start_date : datetime) (i : nat) (tasks : list Task)
    : list Task * result () :=
  match tasks with
  | [] => ([], Ok ())
  | task :: rest =>
      match update_task s start_date i task with
      | (task', Ok _) =>
          let r := update_tasks s start_date (S i) rest in
          (task' :: r.1, r.2)
      | (task', Raise e) => (task' :: rest, Raise e)
      | (task', Diverge) => (task' :: rest, Diverge)
      end
  end.

Definition cycle_message : string :=
  "Task dependencies contain a cycle. Please check dependencies.".

(** Steps 5 to 7, for the ordering obtained in step 4. *)
Definition passes (G : DiGraph) (tasks : list Task) (topo_order : list nat)
    : result (schedule * float) :=
  fw ← forward_pass G tasks topo_order;
  let total_duration := total_duration_of fw.2 in
  bw ← backward_pass G tasks total_duration topo_order;
  sl ← slack_pass G fw.1 bw.1;
  Ok (mkSchedule fw.1 (omap_of fw.2) bw.1 bw.2 sl.1 sl.2, total_duration).

(** Steps 3 to 7: everything between the PERT loop and the write-back;
    these steps read the tasks and write local dictionaries only. *)
Definition compute_dicts (G : DiGraph) (tasks : list Task) : result (schedule * float) :=
  dag ← is_directed_acyclic_graph G;
  if negb dag then Raise (ValueError cycle_message)
  else
    topo_order ← topological_sort G;
    passes G tasks topo_order.

(** [compute_schedule(tasks, start_date)]; [now] is what [datetime.now()]
    returns.  The first component is the task list after the call (the
    list the caller passed, mutated in place, which is also the list the
    function returns); the second is the pair (critical_path,
    total_duration), or the exception. *)
Definition compute_schedule (tasks : list Task) (start_date : option datetime)
    (now : datetime) : list Task * result (list nat * float) :=
  match tasks with
  | [] => ([], Ok ([], 0%float))
  | _ =>
      let start_date := default now start_date in
      let tasks := pert <$> tasks in
      let G := build_graph tasks in
      match compute_dicts G tasks with
      | Raise e => (tasks, Raise e)
      | Diverge => (tasks, Diverge)
      | Ok (s, total_duration) =>
          match update_tasks s start_date 0 tasks with
          | (tasks, Raise e) => (tasks, Raise e)
          | (tasks, Diverge) => (tasks, Diverge)
          | (tasks, Ok _) =>
              match dag_longest_path G with
              | Ok critical_path => (tasks, Ok (critical_path, total_duration))
              | Raise _ => (tasks, Ok (critical_path_nodes s, total_duration))
              | Diverge => (tasks, Diverge)
              end
          end
      end
  end.

(** ** [SchedulingService.generate_insights]: the deadline analysis *)






(** * Properties *)

(** ** The result monad *)

Lemma bind_Ok {A B : Type} (m : result A) (f : A → result B) (b : B) :
  m ≫= f = Ok b ↔ ∃ a, m = Ok a ∧ f a = Ok b.
Proof.
  destruct m as [a| |]; simpl; split; try (intros [? [? ?]]); try discriminate; eauto.
  intros. by simplify_eq.
Qed.

Lemma foldM_app {A B : Type} (f : A → B → result A) (a : A) (l1 l2 : list B) :
  foldM f a (l1 ++ l2) = foldM f a l1 ≫= (λ a', foldM f a' l2).
Proof.
  revert a. induction l1 as [|b l1 IH]; intros a; simpl; [done|].
  destruct (f a b) as [a'| |]; simpl; [apply IH|done..].
Qed.

Lemma mapR_Ok {A B : Type} (f : A → result B) (g : A → B) (l : list A) :
  (∀ a, a ∈ l → f a = Ok (g a)) → mapR f l = Ok (g <$> l).
Proof.
  induction l as [|a l IH]; intros H; simpl; [done|].
  rewrite (H a) by left. simpl. rewrite IH; [done|].
  intros b Hb. apply H. by right.
Qed.

(** ** Lists *)

Lemma add_key_elem (k x : nat) (l : list nat) : x ∈ add_key k l ↔ x = k ∨ x ∈ l.
Proof.
  unfold add_key. destruct (decide (k ∈ l)).
  - split; [auto|]. intros [->|]; auto.
  - rewrite elem_of_app, list_elem_of_singleton. tauto.
Qed.

Lemma add_key_NoDup (k : nat) (l : list nat) : NoDup l → NoDup (add_key k l).
Proof.
  unfold add_key. intros H. destruct (decide (k ∈ l)); [done|].
  apply NoDup_app. split_and!; [done| |apply NoDup_singleton].
  intros x Hx Hk. apply list_elem_of_singleton in Hk. by subst.
Qed.

Lemma filter_all {A : Type} (P : A → Prop) `{∀ x, Decision (P x)} (l : list A) :
  (∀ x, x ∈ l → P x) → filter P l = l.
Proof.
  induction l as [|x l IH]; intros Hall; [done|].
  rewrite filter_cons_True by (apply Hall; left).
  f_equal. apply IH. intros y Hy. apply Hall. by right.
Qed.

Lemma filter_ne_length (u : nat) (l : list nat) :
  NoDup l → u ∈ l → S (length (filter (λ x, x ≠ u) l)) = length l.
Proof.
  induction 1 as [|x l Hx Hl IH]; intros Hu.
  - by apply elem_of_nil in Hu.
  - destruct (decide (x = u)) as [->|Hne].
    + rewrite filter_cons_False by (intros Hc; by apply Hc).
      rewrite filter_all; [done|]. intros y Hy ->. done.
    + rewrite filter_cons_True by done. simpl. f_equal. apply IH.
      apply elem_of_cons in Hu as [?|?]; [congruence|done].
Qed.

(** ** Well-formed graphs *)

Definition edge (G : DiGraph) (u v : nat) : Prop := u ∈ predecessors G v.

#[global] Instance edge_dec (G : DiGraph) (u v : nat) : Decision (edge G u v).
Proof. unfold edge. apply _. Defined.

Record wf_graph (G : DiGraph) : Prop := mk_wf_graph {
  wf_nodes : NoDup (nodes G);
  wf_pred : ∀ v, NoDup (predecessors G v);
  wf_succ : ∀ u, NoDup (successors G u);
  wf_adj : ∀ u v, v ∈ successors G u ↔ u ∈ predecessors G v;
  wf_closed : ∀ u v, edge G u v → u ∈ nodes G ∧ v ∈ nodes G
}.

Lemma adj_insert (m : gmap nat (list nat)) (k n : nat) (l : list nat) :
  adj (<[k := l]> m) n = if decide (k = n) then l else adj m n.
Proof. unfold adj. rewrite lookup_insert. by destruct (decide (k = n)). Qed.

Lemma adj_empty (n : nat) : adj ∅ n = [].
Proof. unfold adj. by rewrite lookup_empty. Qed.

Lemma wf_empty_graph : wf_graph empty_graph.
Proof.
  split; unfold edge, predecessors, successors; simpl; intros; rewrite ?adj_empty.
  - apply NoDup_nil_2.
  - apply NoDup_nil_2.
  - apply NoDup_nil_2.
  - split; intros []%elem_of_nil.
  - by apply elem_of_nil in H.
Qed.

Lemma wf_add_node (n : nat) (w : option float) (G : DiGraph) :
  wf_graph G → wf_graph (add_node n w G).
Proof.
  intros [H1 H2 H3 H4 H5]. split; simpl; try done.
  - by apply add_key_NoDup.
  - intros u v Huv. unfold edge, predecessors in *. simpl in *.
    destruct (H5 u v Huv). rewrite !add_key_elem. auto.
Qed.

Lemma predecessors_add_edge (u v n : nat) (G : DiGraph) :
  predecessors (add_edge u v G) n =
    if decide (v = n) then add_key u (predecessors G v) else predecessors G n.
Proof. unfold predecessors at 1. simpl. apply adj_insert. Qed.

Lemma successors_add_edge (u v n : nat) (G : DiGraph) :
  successors (add_edge u v G) n =
    if decide (u = n) then add_key v (successors G u) else successors G n.
Proof. unfold successors at 1. simpl. apply adj_insert. Qed.

Lemma edge_add_edge (u v a b : nat) (G : DiGraph) :
  edge (add_edge u v G) a b ↔ (a = u ∧ b = v) ∨ edge G a b.
Proof.
  unfold edge. rewrite predecessors_add_edge.
  destruct (decide (v = b)) as [->|Hne].
  - rewrite add_key_elem. naive_solver.
  - naive_solver.
Qed.

Lemma wf_add_edge (u v : nat) (G : DiGraph) :
  wf_graph G → wf_graph (add_edge u v G).
Proof.
  intros [H1 H2 H3 H4 H5]. split.
  - simpl. by do 2 apply add_key_NoDup.
  - intros n. rewrite predecessors_add_edge. case_decide; [by apply add_key_NoDup|done].
  - intros n. rewrite successors_add_edge. case_decide; [by apply add_key_NoDup|done].
  - intros a b. rewrite successors_add_edge, predecessors_add_edge.
    destruct (decide (u = a)) as [->|Ha], (decide (v = b)) as [->|Hb];
      rewrite ?add_key_elem, ?H4; naive_solver.
  - intros a b [[-> ->]|Hab]%edge_add_edge; simpl; rewrite !add_key_elem.
    + auto.
    + destruct (H5 a b Hab). auto.
Qed.

(** ** The dependency graph built by [compute_schedule] *)

(** [u] is an entry of the dependency list of [t] that passes the range
    check of step 2, for a task list of length [n]. *)
Definition in_range_dep (n : nat) (t : Task) (u : nat) : Prop :=
  ∃ deps, dependencies t = Some deps ∧ Z.of_nat u ∈ deps ∧ u < n.

(** The dependency relation of a task list: [u] is a prerequisite of [i]. *)
Definition dep_edge (tasks : list Task) (u i : nat) : Prop :=
  ∃ t, tasks !! i = Some t ∧ in_range_dep (length tasks) t u.

Lemma elem_of_enumerate {A : Type} (l : list A) (i : nat) (x : A) :
  (i, x) ∈ enumerate l ↔ l !! i = Some x.
Proof.
  unfold enumerate. rewrite list_elem_of_lookup. split.
  - intros [k Hk]. apply lookup_zip_with_Some in Hk as (a & b & Heq & Ha & Hb).
    apply lookup_seq in Ha as [-> ?]. by simplify_eq.
  - intros Hi. exists i. apply lookup_zip_with_Some. exists i, x.
    split_and!; [done| |done]. apply lookup_seq. split; [done|].
    by eapply lookup_lt_Some.
Qed.

Lemma foldl_preserves {A B : Type} (P : A → Prop) (f : A → B → A) (l : list B) (a : A) :
  (∀ a b, b ∈ l → P a → P (f a b)) → P a → P (foldl f a l).
Proof.
  revert a. induction l as [|b l IH]; intros a Hf Ha; simpl; [done|].
  apply IH.
  - intros a' b' Hb'. apply Hf. by right.
  - apply Hf; [by left|done].
Qed.

Lemma nodes_add_edge_id (u v : nat) (G : DiGraph) :
  u ∈ nodes G → v ∈ nodes G → nodes (add_edge u v G) = nodes G.
Proof.
  intros Hu Hv. simpl. unfold add_key.
  rewrite (decide_True (P := u ∈ nodes G)) by done.
  by rewrite decide_True by done.
Qed.

Lemma nodes_add_nodes {A : Type} (w : A → option float) (l : list A) (k : nat) (G : DiGraph) :
  nodes G = seq 0 k →
  nodes (foldl (λ G it, add_node it.1 (w it.2) G) G (zip (seq k (length l)) l))
  = seq 0 (k + length l).
Proof.
  revert k G. induction l as [|x l IH]; intros k G HG; simpl.
  - by rewrite Nat.add_0_r.
  - rewrite (IH (S k)).
    + f_equal. lia.
    + unfold add_node. cbn [nodes fst]. rewrite HG. unfold add_key.
      rewrite decide_False.
      * by rewrite seq_S.
      * rewrite elem_of_seq. lia.
Qed.

Lemma edges_add_nodes {A : Type} (w : nat * A → option float) (l : list (nat * A)) (G : DiGraph) :
  let G' := foldl (λ G it, add_node it.1 (w it) G) G l in
  succ G' = succ G ∧ pred G' = pred G ∧ edge_weight G' = edge_weight G.
Proof.
  revert G. induction l as [|x l IH]; intros G; simpl; [done|].
  destruct (IH (add_node x.1 (w x) G)) as (-> & -> & ->). done.
Qed.

Section build_graph.
Context (n : nat).

Lemma add_dependency_spec (i : nat) (G : DiGraph) (d : Z) (a b : nat) :
  edge (add_dependency n i G d) a b ↔
    edge G a b ∨ (b = i ∧ Z.of_nat a = d ∧ a < n).
Proof.
  unfold add_dependency. case_decide as Hd.
  - rewrite edge_add_edge. split; intros [H|H]; auto.
    + destruct H as [-> ->]. right. split_and!; [done|lia..].
    + destruct H as (-> & <- & ?). left. split; [|done]. by rewrite Nat2Z.id.
  - split; [auto|]. intros [H|(-> & <- & ?)]; [done|]. lia.
Qed.

Lemma foldl_add_dependency_spec (i : nat) (deps : list Z) (G : DiGraph) (a b : nat) :
  edge (foldl (add_dependency n i) G deps) a b ↔
    edge G a b ∨ (b = i ∧ Z.of_nat a ∈ deps ∧ a < n).
Proof.
  revert G. induction deps as [|d deps IH]; intros G; simpl.
  - split; [auto|]. intros [?|(_ & []%elem_of_nil & _)]. done.
  - rewrite IH, add_dependency_spec, elem_of_cons. naive_solver.
Qed.

Lemma add_dependencies_spec (G : DiGraph) (it : nat * Task) (a b : nat) :
  edge (add_dependencies n G it) a b ↔
    edge G a b ∨ (b = it.1 ∧ in_range_dep n it.2 a).
Proof.
  unfold add_dependencies, in_range_dep.
  destruct (dependencies it.2) as [[|d ds]|] eqn:Hdeps.
  - split; [auto|]. intros [?|(_ & deps & Hd & Hin & _)]; [done|].
    simplify_eq. by apply elem_of_nil in Hin.
  - rewrite foldl_add_dependency_spec. split; intros [?|(-> & H)]; auto; right.
    + split; [done|]. exists (d :: ds). by destruct H.
    + split; [done|]. destruct H as (deps & ? & ? & ?). by simplify_eq.
  - split; [auto|]. intros [?|(_ & deps & ? & _)]; [done|discriminate].
Qed.

Lemma foldl_add_dependencies_spec (its : list (nat * Task)) (G : DiGraph) (a b : nat) :
  edge (foldl (add_dependencies n) G its) a b ↔
    edge G a b ∨ ∃ it, it ∈ its ∧ b = it.1 ∧ in_range_dep n it.2 a.
Proof.
  revert G. induction its as [|it its IH]; intros G; simpl.
  - split; [auto|]. intros [?|(? & []%elem_of_nil & _)]. done.
  - rewrite IH, add_dependencies_spec. split.
    + intros [[?|[? ?]]|(it' & ? & ?)]; auto.
      * right. exists it. split; [left|done].
      * right. exists it'. split; [by right|done].
    + intros [?|(it' & [->|?]%elem_of_cons & ?)]; auto.
      right. by exists it'.
Qed.

Lemma wf_add_dependencies (G : DiGraph) (it : nat * Task) :
  wf_graph G → wf_graph (add_dependencies n G it).
Proof.
  intros HG. unfold add_dependencies.
  destruct (dependencies it.2) as [[|d ds]|]; try done.
  apply foldl_preserves; [|done].
  intros G' d' _ HG'. unfold add_dependency. case_decide; [|done].
  by apply wf_add_edge.
Qed.

Lemma nodes_add_dependencies (G : DiGraph) (it : nat * Task) :
  nodes G = seq 0 n → it.1 < n → nodes (add_dependencies n G it) = seq 0 n.
Proof.
  intros HG Hi. unfold add_dependencies.
  destruct (dependencies it.2) as [[|d ds]|]; try done.
  apply (foldl_preserves (λ G, nodes G = seq 0 n)); [|done].
  intros G' d' _ HG'. unfold add_dependency. case_decide; [|done].
  rewrite nodes_add_edge_id; [done|rewrite HG', elem_of_seq; lia..].
Qed.
End build_graph.

Lemma build_graph_nodes (tasks : list Task) :
  nodes (build_graph tasks) = seq 0 (length tasks).
Proof.
  unfold build_graph.
  apply (foldl_preserves (λ G, nodes G = seq 0 (length tasks))).
  - intros G [i t] Hit HG. apply nodes_add_dependencies; [done|].
    apply elem_of_enumerate in Hit. simpl. by eapply lookup_lt_Some.
  - unfold enumerate.
    apply (nodes_add_nodes expected_duration tasks 0 empty_graph). done.
Qed.

Lemma build_graph_wf (tasks : list Task) : wf_graph (build_graph tasks).
Proof.
  unfold build_graph. apply foldl_preserves.
  - intros G it _. apply wf_add_dependencies.
  - apply foldl_preserves; [|apply wf_empty_graph].
    intros G it _. apply wf_add_node.
Qed.

Lemma build_graph_edge (tasks : list Task) (u i : nat) :
  edge (build_graph tasks) u i ↔ dep_edge tasks u i.
Proof.
  unfold build_graph. rewrite foldl_add_dependencies_spec.
  unfold dep_edge. split.
  - intros [H|([k t] & Hit & -> & Hr)].
    + exfalso. unfold edge, predecessors in H.
      pose proof (edges_add_nodes (λ it, expected_duration it.2)
                    (enumerate tasks) empty_graph) as (_ & Hp & _).
      simpl in Hp. rewrite Hp in H. simpl in H. rewrite adj_empty in H.
      by apply elem_of_nil in H.
    + apply elem_of_enumerate in Hit. by exists t.
  - intros (t & Ht & Hr). right. exists (i, t). split; [|done].
    by apply elem_of_enumerate.
Qed.

(** ** Kahn's algorithm *)

Lemma filter_ext_elem {A : Type} (P Q : A → Prop) `{∀ x, Decision (P x)}
    `{∀ x, Decision (Q x)} (l : list A) :
  (∀ x, x ∈ l → P x ↔ Q x) → filter P l = filter Q l.
Proof.
  induction l as [|x l IH]; intros Hext; [done|].
  rewrite !filter_cons. rewrite IH by (intros y Hy; apply Hext; by right).
  destruct (decide (P x)) as [HP|HP], (decide (Q x)) as [HQ|HQ]; try done.
  - destruct HQ. apply Hext; [left|done].
  - destruct HP. apply Hext; [left|done].
Qed.

(** [topo_sorted G l]: every edge into an item of [l] comes from an item
    further to the front. *)
Definition topo_sorted (G : DiGraph) (l : list nat) : Prop :=
  ∀ i v u, l !! i = Some v → edge G u v → ∃ j, j < i ∧ l !! j = Some u.

(** [l] is a topological order of [G]: every node once, edges forward. *)
Definition topological_order (G : DiGraph) (l : list nat) : Prop :=
  NoDup l ∧ (∀ v, v ∈ l ↔ v ∈ nodes G) ∧ topo_sorted G l.

(** The in-degree map represents a counting function: absent keys count 0. *)
Definition indeg_repr (f : nat → nat) (indeg : gmap nat Z) : Prop :=
  ∀ v, indeg !! v = if decide (f v = 0) then None else Some (Z.of_nat (f v)).

Lemma indeg_repr_ext (f g : nat → nat) (indeg : gmap nat Z) :
  (∀ v, f v = g v) → indeg_repr f indeg → indeg_repr g indeg.
Proof. intros Hfg Hf v. rewrite <-Hfg. apply Hf. Qed.

Lemma dec_child_repr (f : nat → nat) (indeg : gmap nat Z) (zero : list nat) (c : nat) :
  indeg_repr f indeg → 0 < f c →
  ∃ indeg',
    dec_child (indeg, zero) c
      = Ok (indeg', zero ++ filter (λ x, f x = 1) [c]) ∧
    indeg_repr (λ v, if decide (v = c) then f v - 1 else f v) indeg'.
Proof.
  intros Hrepr Hc. unfold dec_child. simpl. rewrite (Hrepr c).
  rewrite decide_False by lia.
  destruct (decide (Z.of_nat (f c) - 1 = 0)%Z) as [Hz|Hz].
  - eexists. split.
    + rewrite filter_cons_True by lia. done.
    + intros v. destruct (decide (v = c)) as [->|Hne].
      * rewrite lookup_delete_eq. rewrite decide_True by lia. done.
      * rewrite lookup_delete_ne by done. apply Hrepr.
  - eexists. split.
    + rewrite filter_cons_False by lia. by rewrite app_nil_r.
    + intros v. destruct (decide (v = c)) as [->|Hne].
      * rewrite lookup_insert_eq. rewrite decide_False by lia. f_equal. lia.
      * rewrite lookup_insert_ne by done. apply Hrepr.
Qed.

Lemma fold_dec_child_repr (cs : list nat) (f : nat → nat) (indeg : gmap nat Z)
    (zero : list nat) :
  NoDup cs → (∀ c, c ∈ cs → 0 < f c) → indeg_repr f indeg →
  ∃ indeg',
    foldM dec_child (indeg, zero) cs
      = Ok (indeg', zero ++ filter (λ x, f x = 1) cs) ∧
    indeg_repr (λ v, if decide (v ∈ cs) then f v - 1 else f v) indeg'.
Proof.
  revert f indeg zero. induction cs as [|c cs IH]; intros f indeg zero Hnd Hpos Hrepr.
  - exists indeg. simpl. rewrite app_nil_r. split; [done|].
    eapply indeg_repr_ext; [|done]. intros v.
    destruct (decide (v ∈ [])) as [[]%elem_of_nil|]; done.
  - apply NoDup_cons in Hnd as [Hc Hnd].
    destruct (dec_child_repr f indeg zero c Hrepr) as (indeg1 & Hstep & Hrepr1).
    { apply Hpos. left. }
    destruct (IH (λ v, if decide (v = c) then f v - 1 else f v) indeg1
                (zero ++ filter (λ x, f x = 1) [c]) Hnd)
      as (indeg2 & Hfold & Hrepr2); [|done|].
    { intros c' Hc'. rewrite decide_False by (intros ->; done).
      apply Hpos. by right. }
    exists indeg2. split.
    + simpl. rewrite Hstep. simpl. rewrite Hfold. f_equal. f_equal.
      rewrite <-app_assoc. f_equal.
      change (c :: cs) with ([c] ++ cs). rewrite filter_app. f_equal.
      apply filter_ext_elem. intros x Hx.
      rewrite decide_False by (intros ->; done). done.
    + eapply indeg_repr_ext; [|done]. intros v. cbv beta.
      destruct (decide (v = c)) as [Heq|Hne], (decide (v ∈ cs)) as [Hin|Hin],
        (decide (v ∈ c :: cs)) as [Hin'|Hin']; subst; try done; try lia.
      * destruct Hin'. left.
      * destruct Hin'. by right.
      * apply elem_of_cons in Hin' as [?|?]; done.
Qed.

Section kahn.
Context (G : DiGraph) (Hwf : wf_graph G).

(** The number of predecessors of [v] not yet visited. *)
Definition need (vis : list nat) (v : nat) : nat :=
  length (filter (λ u, u ∉ vis) (predecessors G v)).

Lemma need_zero (vis : list nat) (v : nat) :
  need vis v = 0 ↔ ∀ u, edge G u v → u ∈ vis.
Proof.
  unfold need, edge. rewrite length_zero_iff_nil. split.
  - intros Hnil u Hu. destruct (decide (u ∈ vis)) as [|Hn]; [done|].
    exfalso. eapply filter_nil_not_elem_of; [exact Hnil| |exact Hu]. done.
  - intros Hall. destruct (filter _ _) as [|x l] eqn:Hf; [done|].
    assert (x ∈ filter (λ u, u ∉ vis) (predecessors G v)) as Hx
      by (rewrite Hf; left).
    apply list_elem_of_filter in Hx as [Hx1 Hx2]. destruct Hx1. by apply Hall.
Qed.

Lemma need_pos (vis : list nat) (u v : nat) :
  edge G u v → u ∉ vis → 0 < need vis v.
Proof.
  intros Huv Hu. destruct (need vis v) eqn:Hn; [|lia].
  exfalso. apply Hu. by eapply need_zero.
Qed.

Lemma need_snoc (vis : list nat) (u v : nat) :
  u ∉ vis →
  need (vis ++ [u]) v = if decide (edge G u v) then need vis v - 1 else need vis v.
Proof.
  intros Hu. unfold need.
  assert (filter (λ x, x ∉ vis ++ [u]) (predecessors G v)
          = filter (λ x, x ≠ u) (filter (λ x, x ∉ vis) (predecessors G v))) as ->.
  { rewrite list_filter_filter. apply filter_ext_elem. intros x _.
    rewrite elem_of_app, list_elem_of_singleton. tauto. }
  destruct (decide (edge G u v)) as [He|He].
  - rewrite <-(filter_ne_length u (filter (λ x, x ∉ vis) (predecessors G v))).
    + lia.
    + apply NoDup_filter, Hwf.
    + apply list_elem_of_filter. done.
  - f_equal. apply filter_all. intros x [_ Hx]%list_elem_of_filter ->. done.
Qed.

Lemma need_mono (vis l : list nat) (v : nat) : need (vis ++ l) v ≤ need vis v.
Proof.
  unfold need.
  assert (filter (λ x, x ∉ vis ++ l) (predecessors G v)
          = filter (λ x, x ∉ l) (filter (λ x, x ∉ vis) (predecessors G v))) as ->.
  { rewrite list_filter_filter. apply filter_ext_elem. intros x _.
    rewrite elem_of_app. tauto. }
  apply length_filter.
Qed.

Lemma visit_node_spec (vis : list nat) (indeg : gmap nat Z) (zero : list nat) (u : nat) :
  indeg_repr (need vis) indeg → u ∈ nodes G → u ∉ vis →
  ∃ indeg',
    visit_node G (indeg, zero) u
      = Ok (indeg', zero ++ filter (λ c, need (vis ++ [u]) c = 0) (successors G u)) ∧
    indeg_repr (need (vis ++ [u])) indeg'.
Proof.
  intros Hrepr Hu Hvis. unfold visit_node. rewrite decide_True by done.
  destruct (fold_dec_child_repr (successors G u) (need vis) indeg zero)
    as (indeg' & Hfold & Hrepr'); [apply Hwf| |done|].
  { intros c Hc. apply (need_pos vis u c); [|done]. by apply Hwf. }
  exists indeg'. split.
  - rewrite Hfold. do 3 f_equal. apply filter_ext_elem. intros c Hc.
    rewrite need_snoc by done. rewrite decide_True by (by apply Hwf).
    assert (0 < need vis c); [|lia].
    apply (need_pos vis u c); [|done]. by apply Hwf.
  - eapply indeg_repr_ext; [|done]. intros v. cbv beta.
    rewrite need_snoc by done.
    destruct (decide (v ∈ successors G u)) as [Hv|Hv], (decide (edge G u v)) as [He|He];
      try done.
    + destruct He. by apply Hwf.
    + destruct Hv. by apply Hwf.
Qed.

(** The nodes that become ready while the generation [gen] is visited,
    in the order in which [zero_indegree.append] receives them. *)
Fixpoint newly (vis gen : list nat) : list nat :=
  match gen with
  | [] => []
  | u :: gen' =>
      filter (λ c, need (vis ++ [u]) c = 0) (successors G u) ++ newly (vis ++ [u]) gen'
  end.

Lemma visit_generation_spec (gen vis : list nat) (indeg : gmap nat Z) (zero : list nat) :
  indeg_repr (need vis) indeg → (∀ u, u ∈ gen → u ∈ nodes G) → NoDup (vis ++ gen) →
  ∃ indeg',
    foldM (visit_node G) (indeg, zero) gen = Ok (indeg', zero ++ newly vis gen) ∧
    indeg_repr (need (vis ++ gen)) indeg'.
Proof.
  revert vis indeg zero. induction gen as [|u gen IH]; intros vis indeg zero Hrepr Hn Hnd.
  - exists indeg. simpl. by rewrite !app_nil_r.
  - apply NoDup_app in Hnd as (Hnd1 & Hdisj & [Hu Hnd2]%NoDup_cons).
    destruct (visit_node_spec vis indeg zero u Hrepr) as (indeg1 & Hvisit & Hrepr1).
    { apply Hn. left. }
    { intros Hin. eapply Hdisj; [done|left]. }
    destruct (IH (vis ++ [u]) indeg1
                (zero ++ filter (λ c, need (vis ++ [u]) c = 0) (successors G u)) Hrepr1)
      as (indeg2 & Hfold & Hrepr2).
    { intros x Hx. apply Hn. by right. }
    { apply NoDup_app. split_and!; [|
        |done].
      - apply NoDup_app. split_and!; [done| |apply NoDup_singleton].
        intros x Hx ->%list_elem_of_singleton. eapply Hdisj; [done|left].
      - intros x [Hx| ->%list_elem_of_singleton]%elem_of_app Hx'; [|done].
        eapply Hdisj; [done|by right]. }
    exists indeg2. split.
    + simpl. rewrite Hvisit. simpl. rewrite Hfold. by rewrite <-app_assoc.
    + by rewrite <-app_assoc in Hrepr2.
Qed.

Lemma newly_spec (gen vis : list nat) (c : nat) :
  NoDup (vis ++ gen) →
  c ∈ newly vis gen → 0 < need vis c ∧ need (vis ++ gen) c = 0 ∧ c ∈ nodes G.
Proof.
  revert vis. induction gen as [|u gen IH]; intros vis Hnd Hc; simpl in Hc.
  - by apply elem_of_nil in Hc.
  - assert (u ∉ vis) as Hu.
    { apply NoDup_app in Hnd as (_ & Hdisj & _). intros Hin.
      eapply Hdisj; [done|left]. }
    apply elem_of_app in Hc as [Hc|Hc].
    + apply list_elem_of_filter in Hc as [Hz Hsucc].
      apply Hwf in Hsucc.
      split_and!.
      * by eapply need_pos.
      * pose proof (need_mono (vis ++ [u]) gen c) as Hm.
        rewrite <-app_assoc in Hm. simpl in Hm. lia.
      * by apply (wf_closed G Hwf u c).
    + apply IH in Hc as (Hpos & Hz & Hnode).
      * split_and!; [|by rewrite <-app_assoc in Hz|done].
        pose proof (need_mono vis [u] c). lia.
      * by rewrite <-app_assoc.
Qed.
Lemma newly_NoDup (gen vis : list nat) :
  NoDup (vis ++ gen) → NoDup (newly vis gen).
Proof.
  revert vis. induction gen as [|u gen IH]; intros vis Hnd; simpl.
  - apply NoDup_nil_2.
  - apply NoDup_app. split_and!.
    + apply NoDup_filter, Hwf.
    + intros c [Hz _]%list_elem_of_filter Hc.
      apply newly_spec in Hc as (Hpos & _); [lia|].
      by rewrite <-app_assoc.
    + apply IH. by rewrite <-app_assoc.
Qed.

Lemma newly_complete (gen vis : list nat) (c : nat) :
  NoDup (vis ++ gen) →
  need (vis ++ gen) c = 0 → need vis c = 0 ∨ c ∈ newly vis gen.
Proof.
  revert vis. induction gen as [|u gen IH]; intros vis Hnd Hz.
  - left. by rewrite app_nil_r in Hz.
  - assert (u ∉ vis) as Hu.
    { apply NoDup_app in Hnd as (_ & Hdisj & _). intros Hin.
      eapply Hdisj; [done|left]. }
    destruct (IH (vis ++ [u])) as [Hz'|Hin].
    + by rewrite <-app_assoc.
    + by rewrite <-app_assoc.
    + rewrite need_snoc in Hz' by done.
      destruct (decide (edge G u c)) as [He|He]; [|by left].
      right. simpl. apply elem_of_app. left. apply list_elem_of_filter.
      split; [|by apply Hwf]. rewrite need_snoc by done.
      by rewrite decide_True.
    + right. simpl. apply elem_of_app. by right.
Qed.

(** The loop invariant of [while zero_indegree], at the loop head:
    [vis] holds the nodes yielded so far. *)
Record kahn_inv (vis : list nat) (indeg : gmap nat Z) (zero : list nat) : Prop := {
  ki_repr : indeg_repr (need vis) indeg;
  ki_nodup : NoDup (vis ++ zero);
  ki_ready : ∀ v, v ∈ nodes G → need vis v = 0 ↔ v ∈ vis ++ zero;
  ki_nodes : ∀ v, v ∈ vis ++ zero → v ∈ nodes G;
  ki_sorted : topo_sorted G vis
}.

Lemma kahn_inv_step (vis : list nat) (indeg indeg' : gmap nat Z) (zero : list nat) :
  kahn_inv vis indeg zero →
  indeg_repr (need (vis ++ zero)) indeg' →
  kahn_inv (vis ++ zero) indeg' (newly vis zero).
Proof.
  intros [Hrepr Hnd Hready Hnodes Hsorted] Hrepr'. split.
  - done.
  - apply NoDup_app. split_and!; [done| |by apply newly_NoDup].
    intros v Hv Hv'. apply newly_spec in Hv' as (Hpos & _ & Hn); [|done].
    apply Hready in Hv; [lia|done].
  - intros v Hv. split.
    + intros Hz. apply elem_of_app.
      destruct (newly_complete zero vis v Hnd Hz) as [Hz'|Hin]; [|by right].
      left. by apply Hready.
    + intros [Hin|Hin]%elem_of_app.
      * apply Hready in Hin; [|done]. pose proof (need_mono vis zero v). lia.
      * by apply newly_spec in Hin as (_ & ? & _).
  - intros v [Hin|Hin]%elem_of_app; [by apply Hnodes|].
    by apply newly_spec in Hin as (_ & _ & ?).
  - intros i v u Hi He.
    destruct (decide (i < length vis)) as [Hlt|Hge].
    + rewrite lookup_app_l in Hi by done.
      destruct (Hsorted i v u Hi He) as (j & Hj & Hu).
      exists j. split; [done|]. rewrite lookup_app_l; [done|lia].
    + assert (v ∈ vis ++ zero) as Hv by (apply list_elem_of_lookup; eauto).
      apply Hready in Hv; [|by apply Hnodes].
      pose proof (proj1 (need_zero vis v) Hv u He) as Hu.
      apply list_elem_of_lookup in Hu as [j Hj].
      exists j. pose proof (lookup_lt_Some _ _ _ Hj). split; [lia|].
      by rewrite lookup_app_l.
Qed.

Lemma length_le_nodes (l : list nat) :
  NoDup l → (∀ v, v ∈ l → v ∈ nodes G) → length l ≤ length (nodes G).
Proof. intros Hnd Hsub. apply submseteq_length. by apply NoDup_submseteq. Qed.

(** A set of nodes each of which has a predecessor in the set: what is
    left over when the algorithm stops short. *)
Definition stuck (vis : list nat) : Prop :=
  (∃ v, v ∈ nodes G ∧ v ∉ vis) ∧
  ∀ v, v ∈ nodes G → v ∉ vis → ∃ u, edge G u v ∧ u ∈ nodes G ∧ u ∉ vis.

Lemma need_nonzero (vis : list nat) (v : nat) :
  need vis v ≠ 0 → ∃ u, edge G u v ∧ u ∉ vis.
Proof.
  unfold need. destruct (filter _ _) as [|u l] eqn:Hf; [done|]. intros _.
  assert (u ∈ filter (λ u, u ∉ vis) (predecessors G v)) as Hu by (rewrite Hf; left).
  apply list_elem_of_filter in Hu as [? ?]. by exists u.
Qed.

Lemma generations_loop_cons (fuel : nat) (indeg : gmap nat Z) (z : nat)
    (zero : list nat) (st : kahn_state) :
  foldM (visit_node G) (indeg, []) (z :: zero) = Ok st →
  generations_loop (S fuel) G indeg (z :: zero)
  = generations_loop fuel G st.1 st.2 ≫= (λ rest, Ok ((z :: zero) :: rest)).
Proof. intros H. cbn [generations_loop]. by rewrite H. Qed.

Lemma generations_loop_spec (fuel : nat) (vis : list nat) (indeg : gmap nat Z)
    (zero : list nat) :
  kahn_inv vis indeg zero →
  length (nodes G) < fuel + length vis →
  (∃ gens, generations_loop fuel G indeg zero = Ok gens ∧
           topological_order G (vis ++ concat gens)) ∨
  (generations_loop fuel G indeg zero = Raise NetworkXUnfeasible ∧
   ∃ vis', stuck vis').
Proof.
  revert vis indeg zero. induction fuel as [|fuel IH]; intros vis indeg zero Hinv Hfuel.
  - destruct Hinv as [_ Hnd _ Hnodes _].
    pose proof (length_le_nodes _ Hnd Hnodes) as Hlen.
    rewrite length_app in Hlen. simpl in Hfuel. lia.
  - destruct zero as [|z zero].
    + simpl. destruct Hinv as [Hrepr Hnd Hready Hnodes Hsorted].
      rewrite app_nil_r in *.
      destruct (decide (indeg = ∅)) as [->|Hne].
      * left. exists []. split; [done|]. simpl. rewrite app_nil_r.
        split_and!; [done| |done].
        intros v. split; [apply Hnodes|]. intros Hv. apply Hready; [done|].
        specialize (Hrepr v). rewrite lookup_empty in Hrepr.
        by destruct (decide (need vis v = 0)).
      * right. split; [done|]. exists vis.
        assert (∀ v, need vis v ≠ 0 →
                     v ∈ nodes G ∧ v ∉ vis ∧ ∃ u, edge G u v ∧ u ∈ nodes G ∧ u ∉ vis)
          as Hstuck.
        { intros v Hn. destruct (need_nonzero vis v Hn) as (u & He & Hu).
          destruct (wf_closed G Hwf u v He) as [Hun Hvn].
          split_and!; [done| |by exists u].
          intros Hin. apply Hn. by apply Hready. }
        split.
        -- apply map_choose in Hne as (v & d & Hv).
           exists v. specialize (Hrepr v). rewrite Hv in Hrepr.
           destruct (decide (need vis v = 0)) as [|Hn]; [done|].
           destruct (Hstuck v Hn) as (? & ? & _). done.
        -- intros v Hv Hvis. apply Hstuck. intros Hz. apply Hvis. by apply Hready.
    + destruct (visit_generation_spec (z :: zero) vis indeg [])
        as (indeg' & Hfold & Hrepr'); [apply Hinv|..].
      { intros u Hu. apply Hinv. apply elem_of_app. by right. }
      { apply Hinv. }
      pose proof (kahn_inv_step _ _ _ _ Hinv Hrepr') as Hinv'.
      destruct (IH _ _ _ Hinv') as [(gens & Hloop & Horder)|(Hloop & Hst)].
      { rewrite length_app. simpl. lia. }
      * left. exists ((z :: zero) :: gens).
        split; [|by rewrite <-app_assoc in Horder].
        rewrite (generations_loop_cons _ _ _ _ _ Hfold). cbn [fst snd].
        rewrite app_nil_l, Hloop. done.
      * right. split; [|done].
        rewrite (generations_loop_cons _ _ _ _ _ Hfold). cbn [fst snd].
        rewrite app_nil_l, Hloop. done.
Qed.
End kahn.

(** The state before the first iteration. *)
Lemma initial_indegree_repr (G : DiGraph) :
  wf_graph G → indeg_repr (need G []) (initial_indegree G).
Proof.
  intros Hwf v. unfold initial_indegree.
  assert (need G [] v = in_degree G v) as Hneed.
  { unfold need, in_degree. f_equal. apply filter_all. intros x _. apply not_elem_of_nil. }
  rewrite Hneed.
  set (f := λ v, if decide (0 < in_degree G v)
                 then Some (v, Z.of_nat (in_degree G v)) else None).
  assert (∀ (l : list nat) k x,
            (k, x) ∈ omap f l ↔ k ∈ l ∧ 0 < in_degree G k ∧ x = Z.of_nat (in_degree G k))
    as Hin.
  { intros l k x. rewrite list_elem_of_omap. unfold f. split.
    - intros (y & Hy & Hf). case_decide; simplify_eq. done.
    - intros (Hk & Hpos & ->). exists k. split; [done|]. by rewrite decide_True. }
  assert (∀ l : list nat, NoDup l → NoDup (omap f l).*1) as Hnd.
  { induction l as [|a l IH]; intros Hl; simpl; [apply NoDup_nil_2|].
    apply NoDup_cons in Hl as [Ha Hl]. unfold f at 1. case_decide; [|by apply IH].
    simpl. apply NoDup_cons. split; [|by apply IH].
    intros [[k x] [-> Hkx]]%list_elem_of_fmap. simpl in *.
    apply Hin in Hkx as (? & _). done. }
  destruct (decide (in_degree G v = 0)) as [Hz|Hnz].
  - apply not_elem_of_list_to_map. intros [[k x] [-> Hkx]]%list_elem_of_fmap.
    apply Hin in Hkx as (_ & ? & _). simpl in *. lia.
  - apply elem_of_list_to_map; [apply Hnd, Hwf|]. apply Hin. split_and!; [|lia|done].
    unfold in_degree in Hnz. destruct (predecessors G v) as [|u l] eqn:Hp; [done|].
    apply (wf_closed G Hwf u v). unfold edge. rewrite Hp. left.
Qed.

Lemma initial_kahn_inv (G : DiGraph) :
  wf_graph G → kahn_inv G [] (initial_indegree G) (initial_zero G).
Proof.
  intros Hwf.
  assert (∀ v, need G [] v = in_degree G v) as Hneed.
  { intros v. unfold need, in_degree. f_equal. apply filter_all.
    intros x _. apply not_elem_of_nil. }
  split; simpl.
  - by apply initial_indegree_repr.
  - apply NoDup_filter, Hwf.
  - intros v Hv. unfold initial_zero. rewrite list_elem_of_filter, Hneed. tauto.
  - intros v [_ Hv]%list_elem_of_filter. done.
  - intros i v u Hi. by rewrite lookup_nil in Hi.
Qed.

(** [topological_sort] on a well-formed graph: a topological order, or
    [NetworkXUnfeasible] with a set of nodes closed under taking some
    predecessor; no other exception, and the fuel suffices. *)
Lemma topological_sort_spec (G : DiGraph) :
  wf_graph G →
  (∃ order, topological_sort G = Ok order ∧ topological_order G order) ∨
  (topological_sort G = Raise NetworkXUnfeasible ∧ ∃ vis, stuck G vis).
Proof.
  intros Hwf. unfold topological_sort, topological_generations.
  destruct (generations_loop_spec G Hwf (S (length (nodes G))) []
              (initial_indegree G) (initial_zero G))
    as [(gens & -> & Horder)|(-> & Hstuck)].
  - by apply initial_kahn_inv.
  - simpl. lia.
  - left. exists (concat gens). done.
  - right. done.
Qed.

(** ** Cycles *)

(** The graph has a cycle: a nonempty path from some node back to it. *)
Definition cyclic (G : DiGraph) : Prop := ∃ v, tc (edge G) v v.

Lemma topo_sorted_lt (G : DiGraph) (order : list nat) (u v : nat) (j : nat) :
  NoDup order → topo_sorted G order →
  tc (edge G) u v → order !! j = Some v → ∃ i, i < j ∧ order !! i = Some u.
Proof.
  intros Hnd Hsorted Htc. revert j. induction Htc as [u v He|u w v He Htc IH]; intros j Hj.
  - by eapply Hsorted.
  - destruct (IH j Hj) as (k & Hk & Hw).
    destruct (Hsorted k w u Hw He) as (i & Hi & Hu).
    exists i. split; [lia|done].
Qed.

Lemma tc_edge_nodes (G : DiGraph) (u v : nat) :
  wf_graph G → tc (edge G) u v → u ∈ nodes G ∧ v ∈ nodes G.
Proof.
  intros Hwf. induction 1 as [u v He|u w v He Htc IH].
  - by apply (wf_closed G Hwf).
  - split; [|apply IH]. by apply (wf_closed G Hwf u w).
Qed.

Lemma topological_order_acyclic (G : DiGraph) (order : list nat) :
  wf_graph G → topological_order G order → ¬ cyclic G.
Proof.
  intros Hwf (Hnd & Hall & Hsorted) [v Hv].
  destruct (tc_edge_nodes G v v Hwf Hv) as [Hn _].
  apply Hall, list_elem_of_lookup in Hn as [j Hj].
  destruct (topo_sorted_lt G order v v j Hnd Hsorted Hv Hj) as (i & Hi & Hi').
  pose proof (NoDup_lookup _ _ _ _ Hnd Hj Hi'). lia.
Qed.

(** A walk that starts at [x] and then visits the nodes of [l] in turn. *)
Fixpoint walk (G : DiGraph) (x : nat) (l : list nat) : Prop :=
  match l with
  | [] => True
  | y :: l' => edge G x y ∧ walk G y l'
  end.

Lemma walk_app (G : DiGraph) (x y : nat) (l1 l2 : list nat) :
  walk G x (l1 ++ y :: l2) ↔ walk G x (l1 ++ [y]) ∧ walk G y l2.
Proof.
  revert x. induction l1 as [|a l1 IH]; intros x; simpl.
  - tauto.
  - rewrite IH. tauto.
Qed.

Lemma walk_tc (G : DiGraph) (x y : nat) (l : list nat) :
  walk G x (l ++ [y]) → tc (edge G) x y.
Proof.
  revert x. induction l as [|a l IH]; intros x; simpl.
  - intros [He _]. by apply tc_once.
  - intros [He Hw]. eapply tc_l; [done|]. by apply IH.
Qed.

Lemma NoDup_or_dup (l : list nat) :
  NoDup l ∨ ∃ x l1 l2 l3, l = l1 ++ x :: l2 ++ x :: l3.
Proof.
  induction l as [|a l [IH|(x & l1 & l2 & l3 & ->)]].
  - left. apply NoDup_nil_2.
  - destruct (decide (a ∈ l)) as [Hin|Hin].
    + right. apply list_elem_of_split in Hin as (l2 & l3 & ->).
      by exists a, [], l2, l3.
    + left. by apply NoDup_cons.
  - right. by exists x, (a :: l1), l2, l3.
Qed.

Lemma stuck_walk (G : DiGraph) (vis : list nat) (n : nat) :
  stuck G vis →
  ∃ x l, length l = n ∧ walk G x l ∧ ∀ v, v ∈ x :: l → v ∈ nodes G ∧ v ∉ vis.
Proof.
  intros [(v & Hv & Hvis) Hstep]. induction n as [|n (x & l & Hlen & Hw & Hall)].
  - exists v, []. split_and!; [done..|]. by intros ? ->%list_elem_of_singleton.
  - destruct (Hstep x) as (u & He & Hu & Huvis); [apply Hall; left..|].
    exists u, (x :: l). split_and!; [by simpl; f_equal|done|].
    intros w [->|Hin]%elem_of_cons; [done|by apply Hall].
Qed.

(** What [topological_sort] leaves over contains a cycle. *)
Lemma stuck_cyclic (G : DiGraph) (vis : list nat) :
  wf_graph G → stuck G vis → cyclic G.
Proof.
  intros Hwf Hstuck.
  destruct (stuck_walk G vis (length (nodes G)) Hstuck) as (x & l & Hlen & Hw & Hall).
  destruct (NoDup_or_dup (x :: l)) as [Hnd|(a & l1 & l2 & l3 & Heq)].
  - pose proof (length_le_nodes G (x :: l) Hnd (λ v Hv, proj1 (Hall v Hv))) as Hle.
    simpl in Hle. lia.
  - exists a. apply (walk_tc G a a l2). destruct l1 as [|b l1]; simpl in Heq.
    + injection Heq as -> ->. by apply walk_app in Hw as [Hw _].
    + injection Heq as -> ->. apply walk_app in Hw as [_ Hw].
      by apply walk_app in Hw as [Hw _].
Qed.

(** The acyclicity test of NetworkX decides the existence of a cycle. *)
Lemma is_directed_acyclic_graph_spec (G : DiGraph) :
  wf_graph G →
  (is_directed_acyclic_graph G = Ok true ∧ ¬ cyclic G) ∨
  (is_directed_acyclic_graph G = Ok false ∧ cyclic G).
Proof.
  intros Hwf. unfold is_directed_acyclic_graph, has_cycle.
  destruct (topological_sort_spec G Hwf) as [(order & -> & Horder)|(-> & vis & Hstuck)].
  - left. split; [done|]. by eapply topological_order_acyclic.
  - right. split; [done|]. by eapply stuck_cyclic.
Qed.

(** ** The passes as one recurrence over an ordering

    The forward and the backward pass have the same shape: a node takes a
    base value when it has no neighbour on the side looked at, otherwise a
    pick ([max] or [min]) among values stored for those neighbours; the
    stored value combines it with the duration of the task. *)

#[global] Instance float_inhabited : Inhabited float := populate 0%float.

Definition duration_of (task_map : list Task) (v : nat) : option float :=
  task_map !! v ≫= expected_duration.

Section recurrence.
Context (nbrs : nat → list nat) (base : float) (pick : float → list float → float)
        (op : float → float → float) (task_map : list Task).

Definition rec_step (st : gmap nat float * gmap nat float) (node : nat)
    : result (gmap nat float * gmap nat float) :=
  task ← task_lookup task_map node;
  b ← match nbrs node with
      | [] => Ok base
      | p :: ps =>
          x ← getitem st.2 p;
          xs ← mapR (getitem st.2) ps;
          Ok (pick x xs)
      end;
  d ← as_float (expected_duration task);
  Ok (<[node := b]> st.1, <[node := op b d]> st.2).

Definition rec_val (B : gmap nat float) (v : nat) : float :=
  match nbrs v with
  | [] => base
  | p :: ps => pick (B !!! p) ((B !!!.) <$> ps)
  end.

(** [l] lists every neighbour of an item before the item. *)
Definition closed_order (l : list nat) : Prop :=
  ∀ i v u, l !! i = Some v → u ∈ nbrs v → ∃ j, j < i ∧ l !! j = Some u.

Definition rec_inv (done : list nat) (A B : gmap nat float) : Prop :=
  (∀ v, v ∉ done → A !! v = None ∧ B !! v = None) ∧
  (∀ v, v ∈ done → ∃ d, duration_of task_map v = Some d ∧
                        A !! v = Some (rec_val B v) ∧
                        B !! v = Some (op (rec_val B v) d)).

Lemma rec_val_ext (B B' : gmap nat float) (v : nat) :
  (∀ u, u ∈ nbrs v → B !! u = B' !! u) → rec_val B v = rec_val B' v.
Proof.
  intros Hext. unfold rec_val. destruct (nbrs v) as [|p ps]; [done|].
  assert (∀ u, u ∈ p :: ps → B !!! u = B' !!! u) as Hext'.
  { intros u Hu. rewrite !lookup_total_alt. by rewrite Hext. }
  rewrite (Hext' p) by left. f_equal.
  apply list_fmap_ext. intros i u Hu. apply Hext'. right.
  apply list_elem_of_lookup. eauto.
Qed.

Lemma closed_order_prefix (done rest : list nat) (v u : nat) :
  closed_order (done ++ rest) → v ∈ done → u ∈ nbrs v → u ∈ done.
Proof.
  intros Hclosed [i Hi]%list_elem_of_lookup Hu.
  pose proof (lookup_lt_Some _ _ _ Hi) as Hlt.
  destruct (Hclosed i v u) as (j & Hj & Hju); [by rewrite lookup_app_l|done|].
  rewrite lookup_app_l in Hju by lia. apply list_elem_of_lookup. eauto.
Qed.

Lemma closed_order_head (done rest : list nat) (v u : nat) :
  closed_order (done ++ v :: rest) → u ∈ nbrs v → u ∈ done.
Proof.
  intros Hclosed Hu.
  destruct (Hclosed (length done) v u) as (j & Hj & Hju); [|done|].
  { by rewrite list_lookup_middle. }
  rewrite lookup_app_l in Hju by lia. apply list_elem_of_lookup. eauto.
Qed.

Lemma rec_step_spec (done rest : list nat) (A B : gmap nat float) (v : nat) :
  NoDup (done ++ v :: rest) → closed_order (done ++ v :: rest) →
  is_Some (duration_of task_map v) →
  rec_inv done A B →
  ∃ A' B', rec_step (A, B) v = Ok (A', B') ∧ rec_inv (done ++ [v]) A' B'.
Proof.
  intros Hnd Hclosed [d Hd] [Hout Hin].
  assert (v ∉ done) as Hv.
  { apply NoDup_app in Hnd as (_ & Hdisj & _). intros ?. eapply Hdisj; [done|left]. }
  assert (∀ u, u ∈ nbrs v → getitem B u = Ok (B !!! u)) as Hget.
  { intros u Hu. apply (closed_order_head done rest v u Hclosed) in Hu.
    destruct (Hin u Hu) as (du & _ & _ & HB). unfold getitem.
    rewrite lookup_total_alt, HB. done. }
  unfold duration_of in Hd. destruct (task_map !! v) as [task|] eqn:Htask; [|done].
  simpl in Hd.
  exists (<[v := rec_val B v]> A), (<[v := op (rec_val B v) d]> B). split.
  - unfold rec_step, task_lookup. rewrite Htask. simpl.
    unfold rec_val. destruct (nbrs v) as [|p ps] eqn:Hn.
    + simpl. rewrite Hd. done.
    + rewrite (Hget p) by left. simpl.
      rewrite (mapR_Ok _ (B !!!.)) by (intros a Ha; apply Hget; by right).
      simpl. rewrite Hd. done.
  - split.
    + intros w Hw. rewrite elem_of_app, list_elem_of_singleton in Hw.
      rewrite !lookup_insert_ne by (intros ->; tauto). apply Hout. tauto.
    + assert (∀ w, w ∈ done ++ [v] →
                   rec_val (<[v := op (rec_val B v) d]> B) w = rec_val B w) as Hstable.
      { intros w Hw. apply rec_val_ext. intros u Hu.
        rewrite lookup_insert_ne; [done|]. intros <-.
        apply elem_of_app in Hw as [Hw| ->%list_elem_of_singleton].
        - apply Hv. by eapply (closed_order_prefix done (v :: rest)).
        - apply Hv. by eapply closed_order_head. }
      intros w Hw. rewrite Hstable by done.
      apply elem_of_app in Hw as [Hw| ->%list_elem_of_singleton].
      * destruct (Hin w Hw) as (dw & ? & ? & ?). exists dw.
        rewrite !lookup_insert_ne by (intros ->; done). done.
      * exists d. rewrite !lookup_insert_eq. split_and!; [|done..].
        unfold duration_of. by rewrite Htask.
Qed.

Lemma rec_fold_spec (rest done : list nat) (A B : gmap nat float) :
  NoDup (done ++ rest) → closed_order (done ++ rest) →
  (∀ v, v ∈ rest → is_Some (duration_of task_map v)) →
  rec_inv done A B →
  ∃ A' B', foldM rec_step (A, B) rest = Ok (A', B') ∧ rec_inv (done ++ rest) A' B'.
Proof.
  revert done A B. induction rest as [|v rest IH]; intros done A B Hnd Hclosed Hdur Hinv.
  - exists A, B. by rewrite app_nil_r.
  - destruct (rec_step_spec done rest A B v) as (A1 & B1 & Hstep & Hinv1); [done..| |done|].
    { apply Hdur. left. }
    destruct (IH (done ++ [v]) A1 B1) as (A2 & B2 & Hfold & Hinv2).
    + by rewrite <-app_assoc.
    + by rewrite <-app_assoc.
    + intros w Hw. apply Hdur. by right.
    + done.
    + exists A2, B2. simpl. rewrite Hstep. simpl. rewrite Hfold.
      by rewrite <-app_assoc in Hinv2.
Qed.

Lemma rec_inv_empty : rec_inv [] ∅ ∅.
Proof.
  split.
  - intros v _. by rewrite !lookup_empty.
  - intros v Hv. by apply elem_of_nil in Hv.
Qed.
End recurrence.

(** ** The forward and the backward pass are instances *)

Lemma forward_step_rec (G : DiGraph) (task_map : list Task)
    (st : gmap nat float * odict float) (v : nat) :
  forward_step G task_map st v =
    rec_step (predecessors G) 0%float py_max PrimFloat.add task_map (st.1, omap_of st.2) v
      ≫= (λ r, Ok (r.1, mkOdict (add_key v (okeys st.2)) r.2)).
Proof.
  unfold forward_step, rec_step. destruct (task_lookup task_map v) as [task| |]; [|done..].
  simpl. destruct (predecessors G v) as [|p ps].
  - simpl. by destruct (as_float (expected_duration task)).
  - destruct (getitem (omap_of st.2) p) as [x| |]; [|done..]. simpl.
    destruct (mapR (getitem (omap_of st.2)) ps) as [xs| |]; [|done..]. simpl.
    by destruct (as_float (expected_duration task)).
Qed.

Lemma forward_fold_rec (G : DiGraph) (task_map : list Task) (order : list nat)
    (es : gmap nat float) (ef : odict float) :
  foldM (forward_step G task_map) (es, ef) order =
    foldM (rec_step (predecessors G) 0%float py_max PrimFloat.add task_map) (es, omap_of ef) order
      ≫= (λ r, Ok (r.1, mkOdict (foldl (λ ks k, add_key k ks) (okeys ef) order) r.2)).
Proof.
  revert es ef. induction order as [|v order IH]; intros es ef.
  - simpl. by destruct ef.
  - simpl. rewrite forward_step_rec. simpl.
    destruct (rec_step _ _ _ _ _ _ v) as [[A B]| |]; [|done..].
    simpl. by rewrite IH.
Qed.

Lemma backward_step_rec (G : DiGraph) (task_map : list Task) (total : float)
    (st : gmap nat float * gmap nat float) (v : nat) :
  backward_step G task_map total st v =
    rec_step (successors G) total py_min PrimFloat.sub task_map (st.2, st.1) v
      ≫= (λ r, Ok (r.2, r.1)).
Proof.
  unfold backward_step, rec_step. destruct (task_lookup task_map v) as [task| |]; [|done..].
  simpl. destruct (successors G v) as [|p ps].
  - simpl. by destruct (as_float (expected_duration task)).
  - destruct (getitem st.1 p) as [x| |]; [|done..]. simpl.
    destruct (mapR (getitem st.1) ps) as [xs| |]; [|done..]. simpl.
    by destruct (as_float (expected_duration task)).
Qed.

Lemma backward_fold_rec (G : DiGraph) (task_map : list Task) (total : float)
    (order : list nat) (ls lf : gmap nat float) :
  foldM (backward_step G task_map total) (ls, lf) order =
    foldM (rec_step (successors G) total py_min PrimFloat.sub task_map) (lf, ls) order
      ≫= (λ r, Ok (r.2, r.1)).
Proof.
  revert ls lf. induction order as [|v order IH]; intros ls lf; [done|].
  simpl. rewrite backward_step_rec. simpl.
  destruct (rec_step _ _ _ _ _ _ v) as [[A B]| |]; [|done..].
  simpl. by rewrite IH.
Qed.

Lemma foldl_add_key_NoDup (order done : list nat) :
  NoDup (done ++ order) → foldl (λ ks k, add_key k ks) done order = done ++ order.
Proof.
  revert done. induction order as [|v order IH]; intros done Hnd; simpl.
  - by rewrite app_nil_r.
  - unfold add_key at 2. rewrite decide_False.
    + rewrite IH; rewrite <-app_assoc; done.
    + apply NoDup_app in Hnd as (_ & Hdisj & _). intros ?. eapply Hdisj; [done|left].
Qed.

Lemma closed_order_reverse (G : DiGraph) (order : list nat) :
  wf_graph G → topological_order G order → closed_order (successors G) (reverse order).
Proof.
  intros Hwf (Hnd & Hall & Hsorted) i v s Hi Hs.
  apply (wf_adj G Hwf) in Hs.
  destruct (wf_closed G Hwf v s Hs) as [_ Hsn].
  apply Hall, list_elem_of_lookup in Hsn as [j Hj].
  pose proof (lookup_lt_Some _ _ _ Hj) as Hjlt.
  pose proof (lookup_lt_Some _ _ _ Hi) as Hilt. rewrite length_reverse in Hilt.
  rewrite reverse_lookup in Hi by done.
  destruct (Hsorted j s v Hj Hs) as (k & Hk & Hkv).
  pose proof (NoDup_lookup _ _ _ _ Hnd Hi Hkv) as Heq.
  exists (length order - S j). split; [lia|].
  rewrite reverse_lookup by lia. rewrite <-Hj. f_equal. lia.
Qed.

Section passes.
Context (G : DiGraph) (task_map : list Task) (order : list nat).
Context (Hwf : wf_graph G) (Horder : topological_order G order).
Context (Hdur : ∀ v, v ∈ nodes G → is_Some (duration_of task_map v)).

Lemma forward_pass_spec :
  ∃ es ef, forward_pass G task_map order = Ok (es, ef) ∧ okeys ef = order ∧
           rec_inv (predecessors G) 0%float py_max PrimFloat.add task_map order es (omap_of ef).
Proof.
  destruct Horder as (Hnd & Hall & Hsorted).
  destruct (rec_fold_spec (predecessors G) 0%float py_max PrimFloat.add task_map order [] ∅ ∅)
    as (A & B & Hfold & Hinv); [done|done| |apply rec_inv_empty|].
  { intros v Hv. by apply Hdur, Hall. }
  unfold forward_pass. rewrite forward_fold_rec. simpl. rewrite Hfold. simpl.
  eexists _, _. split; [done|]. split; [|done]. simpl.
  by apply (foldl_add_key_NoDup order []).
Qed.

Lemma backward_pass_spec (total : float) :
  ∃ ls lf, backward_pass G task_map total order = Ok (ls, lf) ∧
           rec_inv (successors G) total py_min PrimFloat.sub task_map (reverse order) lf ls.
Proof.
  destruct (rec_fold_spec (successors G) total py_min PrimFloat.sub task_map
              (reverse order) [] ∅ ∅)
    as (A & B & Hfold & Hinv).
  - simpl. rewrite reverse_Permutation. apply Horder.
  - by apply closed_order_reverse.
  - intros v Hv. rewrite elem_of_reverse in Hv. apply Hdur.
    destruct Horder as (_ & Hall & _). by apply Hall.
  - apply rec_inv_empty.
  - unfold backward_pass. rewrite backward_fold_rec. rewrite Hfold. simpl.
    by exists B, A.
Qed.
End passes.
(** ** Binary64: comparison and rounding

    The primitive operations are specified by [SpecFloat]; the facts
    below are read off those specifications. *)

Ltac cmp_cases :=
  change (Pos.compare_cont Eq) with Pos.compare in *;
  repeat match goal with
  | |- context [(?a ?= ?b)%Z] => destruct (Z.compare_spec a b)
  | |- context [(?a ?= ?b)%positive] => destruct (Pos.compare_spec a b)
  | H : context [(?a ?= ?b)%Z] |- _ => destruct (Z.compare_spec a b)
  | H : context [(?a ?= ?b)%positive] |- _ => destruct (Pos.compare_spec a b)
  end.

Lemma SFleb_trans (x y z : spec_float) :
  SFleb x y = true → SFleb y z = true → SFleb x z = true.
Proof.
  unfold SFleb.
  destruct x as [[]|[]| |[] m e], y as [[]|[]| |[] m' e'], z as [[]|[]| |[] m'' e''];
    simpl; try done; cmp_cases; simpl; try done; try lia.
Qed.

Lemma SFleb_total (x y : spec_float) :
  x ≠ S754_nan → y ≠ S754_nan → SFltb x y = false → SFleb y x = true.
Proof.
  unfold SFleb, SFltb.
  destruct x as [[]|[]| |[] m e], y as [[]|[]| |[] m' e'];
    simpl; try done; cmp_cases; simpl; try done; try lia.
Qed.


Lemma SFleb_refl (x : spec_float) : x ≠ S754_nan → SFleb x x = true.
Proof.
  unfold SFleb. destruct x as [[]|[]| |[] m e]; simpl; try done; cmp_cases; simpl; try done; try lia.
Qed.

Lemma SFleb_antisym (x y : spec_float) :
  SFleb x y = true → SFleb y x = true →
  x = y ∨ ∃ s s', x = S754_zero s ∧ y = S754_zero s'.
Proof.
  unfold SFleb.
  destruct x as [[]|[]| |[] m e], y as [[]|[]| |[] m' e'];
    simpl; try done; eauto; cmp_cases; simpl; try done; try lia; intros _ _; left; congruence.
Qed.

Lemma SFeqb_leb (x y : spec_float) : SFeqb x y = true ↔ SFleb x y = true ∧ SFleb y x = true.
Proof.
  unfold SFleb, SFeqb.
  destruct x as [[]|[]| |[] m e], y as [[]|[]| |[] m' e'];
    simpl; try (split; [done|by intros []]); try done; cmp_cases; simpl; try (split; [done|by intros []]); try done; try lia.
Qed.

(** Rounding never produces NaN out of a mantissa that is not negative. *)
Lemma shr_1_nonneg (mrs : shr_record) : (0 ≤ shr_m mrs → 0 ≤ shr_m (shr_1 mrs))%Z.
Proof. destruct mrs as [[|[p|p|]|p] r s]; simpl; lia. Qed.

Lemma iter_pos_shr_1_nonneg (p : positive) (mrs : shr_record) :
  (0 ≤ shr_m mrs → 0 ≤ shr_m (SpecFloat.iter_pos shr_1 p mrs))%Z.
Proof.
  revert mrs. induction p as [p IH|p IH|]; intros mrs H; simpl.
  - by apply IH, IH, shr_1_nonneg.
  - by apply IH, IH.
  - by apply shr_1_nonneg.
Qed.

Lemma shr_fexp_nonneg (prec emax m e : Z) (l : location) :
  (0 ≤ m → 0 ≤ shr_m (shr_fexp prec emax m e l).1)%Z.
Proof.
  intros H. unfold shr_fexp, shr.
  assert (0 ≤ shr_m (shr_record_of_loc m l))%Z as H' by (by destruct l as [|[]]).
  destruct (_ - e)%Z; simpl; [done| |done]. by apply iter_pos_shr_1_nonneg.
Qed.

Lemma round_nearest_even_nonneg (m : Z) (l : location) :
  (0 ≤ m → 0 ≤ round_nearest_even m l)%Z.
Proof. intros H. destruct l as [|[]]; simpl; try done; [|lia]. destruct (Z.even m); lia. Qed.

Lemma binary_round_aux_not_nan (prec emax : Z) (sx : bool) (mx ex : Z) (lx : location) :
  (0 ≤ mx)%Z → binary_round_aux prec emax sx mx ex lx ≠ S754_nan.
Proof.
  intros H. unfold binary_round_aux.
  pose proof (shr_fexp_nonneg prec emax mx ex lx H) as H1.
  destruct (shr_fexp prec emax mx ex lx) as [mrs' e']. simpl in H1.
  pose proof (shr_fexp_nonneg prec emax _ e' loc_Exact
                (round_nearest_even_nonneg _ (loc_of_shr_record mrs') H1)) as H2.
  destruct (shr_fexp prec emax _ e' loc_Exact) as [mrs'' e'']. simpl in H2.
  destruct (shr_m mrs'') as [|p|p]; [done| |lia]. by destruct (_ <=? _)%Z.
Qed.

Lemma binary_normalize_not_nan (prec emax m e : Z) (szero : bool) :
  binary_normalize prec emax m e szero ≠ S754_nan.
Proof.
  unfold binary_normalize, binary_round. destruct m as [|p|p]; [done| |].
  - destruct (shl_align _ _ _). by apply binary_round_aux_not_nan.
  - destruct (shl_align _ _ _). by apply binary_round_aux_not_nan.
Qed.

Definition SFfinite (x : spec_float) : bool :=
  match x with
  | S754_zero _ | S754_finite _ _ _ => true
  | _ => false
  end.

Lemma SFadd_finite (prec emax : Z) (x y : spec_float) :
  SFfinite (SFadd prec emax x y) = true → SFfinite x = true ∧ SFfinite y = true.
Proof. destruct x as [[]|[]| |[] m e], y as [[]|[]| |[] m' e']; simpl; done. Qed.

Lemma SFsub_not_nan (prec emax : Z) (x y : spec_float) :
  x ≠ S754_nan → SFfinite y = true → SFsub prec emax x y ≠ S754_nan.
Proof.
  destruct x as [s|s| |s m e], y as [s'|s'| |s' m' e'];
    try (intros _ _; apply binary_normalize_not_nan);
    simpl; try done; by repeat case_match.
Qed.

Lemma SFadd_not_nan (prec emax : Z) (x y : spec_float) :
  x ≠ S754_nan → SFfinite y = true → SFadd prec emax x y ≠ S754_nan.
Proof.
  destruct x as [s|s| |s m e], y as [s'|s'| |s' m' e'];
    try (intros _ _; apply binary_normalize_not_nan);
    simpl; try done; by repeat case_match.
Qed.

(** ** Floats *)

Definition finite (x : float) : bool := SFfinite (Prim2SF x).

Definition fle (x y : float) : Prop := (x <=? y)%float = true.
Definition feq (x y : float) : Prop := (x =? y)%float = true.

Lemma is_nan_spec (x : float) : is_nan x = false ↔ Prim2SF x ≠ S754_nan.
Proof.
  unfold is_nan. rewrite FloatAxioms.eqb_spec, negb_false_iff, SFeqb_leb. split.
  - intros [H _] Hn. rewrite Hn in H. done.
  - intros H. split; by apply SFleb_refl.
Qed.

Lemma finite_not_nan (x : float) : finite x = true → is_nan x = false.
Proof. unfold finite. rewrite is_nan_spec. by destruct (Prim2SF x). Qed.

Lemma fle_refl (x : float) : is_nan x = false → fle x x.
Proof. rewrite is_nan_spec. unfold fle. rewrite FloatAxioms.leb_spec. apply SFleb_refl. Qed.

Lemma fle_trans (x y z : float) : fle x y → fle y z → fle x z.
Proof. unfold fle. rewrite !FloatAxioms.leb_spec. apply SFleb_trans. Qed.

Lemma fle_total (x y : float) :
  is_nan x = false → is_nan y = false → (x <? y)%float = false → fle y x.
Proof. rewrite !is_nan_spec. unfold fle. rewrite FloatAxioms.leb_spec, FloatAxioms.ltb_spec. apply SFleb_total. Qed.

Lemma flt_fle (x y : float) : (x <? y)%float = true → fle x y.
Proof.
  unfold fle. rewrite FloatAxioms.leb_spec, FloatAxioms.ltb_spec. unfold SFltb, SFleb.
  by destruct (SFcompare _ _) as [[]|].
Qed.



Lemma fle_antisym (x y : float) : fle x y → fle y x → feq x y.
Proof. unfold fle, feq. rewrite !FloatAxioms.leb_spec, FloatAxioms.eqb_spec, SFeqb_leb. done. Qed.

Lemma feq_fle (x y : float) : feq x y → fle x y ∧ fle y x.
Proof. unfold fle, feq. rewrite !FloatAxioms.leb_spec, FloatAxioms.eqb_spec, SFeqb_leb. done. Qed.

Lemma feq_cases (x y : float) :
  feq x y → x = y ∨ ∃ s s', Prim2SF x = S754_zero s ∧ Prim2SF y = S754_zero s'.
Proof.
  intros [H1 H2]%feq_fle. unfold fle in *. rewrite FloatAxioms.leb_spec in H1, H2.
  destruct (SFleb_antisym _ _ H1 H2) as [H|H]; [|by right].
  left. by apply Prim2SF_inj.
Qed.

Lemma add_finite (x y : float) : finite (x + y) = true → finite x = true ∧ finite y = true.
Proof. unfold finite. rewrite FloatAxioms.add_spec. apply SFadd_finite. Qed.

Lemma sub_not_nan (x y : float) :
  is_nan x = false → finite y = true → is_nan (x - y) = false.
Proof. rewrite !is_nan_spec. unfold finite. rewrite FloatAxioms.sub_spec. apply SFsub_not_nan. Qed.

(** ** Binary64: how a sum is rounded *)

Section rounding.
Local Open Scope Z_scope.

Lemma fexp_eq (x : Z) : fexp prec emax x = Z.max (x - 53) (-1074).
Proof. reflexivity. Qed.

(** The number of binary digits of a positive number. *)
Lemma digits2_pos_bounds (m : positive) :
  (2 ^ (Z.pos (digits2_pos m) - 1) ≤ Z.pos m < 2 ^ Z.pos (digits2_pos m))%Z.
Proof.
  induction m as [m IH|m IH|]; simpl digits2_pos; [| |done].
  - rewrite Pos2Z.inj_succ.
    replace (Z.succ (Z.pos (digits2_pos m)) - 1)%Z with (Z.succ (Z.pos (digits2_pos m) - 1))%Z by lia.
    rewrite !Z.pow_succ_r by lia. lia.
  - rewrite Pos2Z.inj_succ.
    replace (Z.succ (Z.pos (digits2_pos m)) - 1)%Z with (Z.succ (Z.pos (digits2_pos m) - 1))%Z by lia.
    rewrite !Z.pow_succ_r by lia. lia.
Qed.

Lemma digits2_pos_unique (m : positive) (d : Z) :
  (2 ^ (d - 1) ≤ Z.pos m < 2 ^ d)%Z → Z.pos (digits2_pos m) = d.
Proof.
  intros [Hlo Hhi]. pose proof (digits2_pos_bounds m) as [Hlo' Hhi'].
  assert (0 < d)%Z as Hd.
  { destruct (Z.lt_ge_cases 0 d) as [|Hle]; [done|].
    assert (2 ^ d ≤ 2 ^ 0)%Z by (destruct (Z.eq_dec d 0) as [->|]; [done|];
      rewrite Z.pow_neg_r by lia; done).
    simpl in *. lia. }
  destruct (Z.lt_trichotomy (Z.pos (digits2_pos m)) d) as [Hlt|[Heq|Hgt]]; [|done|].
  - assert (2 ^ Z.pos (digits2_pos m) ≤ 2 ^ (d - 1))%Z by (apply Z.pow_le_mono_r; lia). lia.
  - assert (2 ^ d ≤ 2 ^ (Z.pos (digits2_pos m) - 1))%Z by (apply Z.pow_le_mono_r; lia). lia.
Qed.

Lemma digits2_pos_mono (m m' : positive) :
  (Z.pos m ≤ Z.pos m' → Z.pos (digits2_pos m) ≤ Z.pos (digits2_pos m'))%Z.
Proof.
  intros Hle. pose proof (digits2_pos_bounds m) as [Hlo _].
  pose proof (digits2_pos_bounds m') as [_ Hhi].
  destruct (Z.le_gt_cases (Z.pos (digits2_pos m)) (Z.pos (digits2_pos m'))) as [|Hgt]; [done|].
  assert (2 ^ Z.pos (digits2_pos m') ≤ 2 ^ (Z.pos (digits2_pos m) - 1))%Z
    by (apply Z.pow_le_mono_r; lia).
  lia.
Qed.

Lemma pos_iter_xO (m d : positive) : Z.pos (Pos.iter xO m d) = (Z.pos m * 2 ^ Z.pos d)%Z.
Proof.
  induction d as [|d IH] using Pos.peano_ind.
  - simpl. lia.
  - rewrite Pos.iter_succ, Pos2Z.inj_succ, Z.pow_succ_r by lia.
    rewrite Pos2Z.inj_xO, IH. lia.
Qed.

(** Aligning a mantissa to a smaller exponent. *)
Lemma shl_align_le (mx : positive) (ex ex' : Z) :
  (ex' ≤ ex)%Z →
  Z.pos (shl_align mx ex ex').1 = (Z.pos mx * 2 ^ (ex - ex'))%Z ∧ (shl_align mx ex ex').2 = ex'.
Proof.
  intros Hle. unfold shl_align. destruct (ex' - ex)%Z as [|d|d] eqn:Hd; simpl; [|lia|].
  - assert (ex' = ex) as -> by lia. rewrite Z.sub_diag. simpl. lia.
  - rewrite pos_iter_xO. split; [|done]. f_equal. f_equal. lia.
Qed.

Lemma shl_align_gt (mx : positive) (ex ex' : Z) :
  (ex < ex')%Z → shl_align mx ex ex' = (mx, ex).
Proof. intros Hlt. unfold shl_align. destruct (ex' - ex)%Z eqn:Hd; [done|done|lia]. Qed.

(** Shifting a mantissa to the right. *)
Lemma iter_pos_nat {A : Type} (f : A → A) (p : positive) (x : A) :
  SpecFloat.iter_pos f p x = Nat.iter (Pos.to_nat p) f x.
Proof.
  revert x. induction p as [p IH|p IH|]; intros x; simpl SpecFloat.iter_pos; [| |done].
  - rewrite !IH, Pos2Nat.inj_xI, <-Nat.iter_add, <-Nat.iter_succ_r. f_equal. lia.
  - rewrite !IH, Pos2Nat.inj_xO, <-Nat.iter_add. f_equal. lia.
Qed.

Definition shr_exact (mrs : shr_record) : Prop := shr_r mrs = false ∧ shr_s mrs = false.

Lemma shr_1_spec (mrs : shr_record) :
  0 ≤ shr_m mrs →
  shr_m (shr_1 mrs) = shr_m mrs / 2 ∧
  (shr_exact mrs → shr_m mrs mod 2 = 0 → shr_exact (shr_1 mrs)).
Proof.
  destruct mrs as [[|[p|p|]|p] r s]; simpl; intros Hm; try lia; unfold shr_exact; simpl.
  - split; [done|]. by intros [-> ->].
  - split; [apply (Z.div_unique _ _ _ 1); lia|].
    intros _ Hmod. exfalso. pose proof (Z.mod_unique (Z.pos p~1) 2 (Z.pos p) 1) as Hu.
    rewrite <-Hu in Hmod; lia.
  - split; [apply (Z.div_unique _ _ _ 0); lia|].
    by intros [-> ->].
  - split; [done|]. intros _ Hmod. done.
Qed.

Lemma shr_iter_spec (n : nat) (mrs : shr_record) :
  (0 ≤ shr_m mrs)%Z →
  (0 ≤ shr_m (Nat.iter n shr_1 mrs))%Z ∧
  shr_m (Nat.iter n shr_1 mrs) = (shr_m mrs / 2 ^ Z.of_nat n)%Z ∧
  (shr_exact mrs → (shr_m mrs mod 2 ^ Z.of_nat n = 0)%Z → shr_exact (Nat.iter n shr_1 mrs)).
Proof.
  intros Hm. induction n as [|n (IH0 & IHm & IHe)].
  - simpl. rewrite Z.div_1_r. done.
  - rewrite Nat2Z.inj_succ, Z.pow_succ_r by lia. simpl Nat.iter.
    destruct (shr_1_spec (Nat.iter n shr_1 mrs) IH0) as [H1 H2].
    assert (0 < 2 ^ Z.of_nat n)%Z as Hpos by (apply Z.pow_pos_nonneg; lia).
    split_and!.
    + rewrite H1. apply Z.div_pos; lia.
    + rewrite H1, IHm, Z.div_div by lia. f_equal. lia.
    + intros Hex Hmod.
      pose proof (Z.div_mod (shr_m mrs) (2 * 2 ^ Z.of_nat n) ltac:(lia)) as Hq.
      rewrite Hmod, Z.add_0_r in Hq. set (q := shr_m mrs / (2 * 2 ^ Z.of_nat n)) in Hq.
      apply H2.
      * apply IHe; [done|]. rewrite Hq.
        replace (2 * 2 ^ Z.of_nat n * q) with (q * 2 * 2 ^ Z.of_nat n) by lia.
        apply Z.mod_mul. lia.
      * rewrite IHm, Hq.
        replace (2 * 2 ^ Z.of_nat n * q) with (q * 2 * 2 ^ Z.of_nat n) by lia.
        rewrite Z.div_mul by lia. apply Z.mod_mul. lia.
Qed.

Lemma shr_record_of_loc_m (m : Z) (l : location) : shr_m (shr_record_of_loc m l) = m.
Proof. by destruct l as [|[]]. Qed.

(** [shr_fexp] leaves a mantissa that has no digit too many, and shifts
    any other to the right. *)
Lemma shr_fexp_keep (m : positive) (e : Z) (l : location) :
  fexp prec emax (Z.pos (digits2_pos m) + e) ≤ e →
  shr_fexp prec emax (Z.pos m) e l = (shr_record_of_loc (Z.pos m) l, e).
Proof.
  intros Hn. unfold shr_fexp, shr. simpl Zdigits2.
  destruct (fexp prec emax (Z.pos (digits2_pos m) + e) - e) eqn:Hd; [done|lia|done].
Qed.

Lemma shr_fexp_shift (m : positive) (e n : Z) :
  n = fexp prec emax (Z.pos (digits2_pos m) + e) - e → 0 < n →
  ∃ mrs, shr_fexp prec emax (Z.pos m) e loc_Exact = (mrs, e + n) ∧
         shr_m mrs = Z.pos m / 2 ^ n ∧
         (Z.pos m mod 2 ^ n = 0 → shr_exact mrs).
Proof.
  intros Hn Hpos. unfold shr_fexp, shr. simpl Zdigits2. rewrite <-Hn.
  destruct n as [|p|p]; [lia| |lia].
  rewrite iter_pos_nat.
  destruct (shr_iter_spec (Pos.to_nat p) (shr_record_of_loc (Z.pos m) loc_Exact))
    as (_ & Hm & He); [simpl; lia|].
  rewrite positive_nat_Z in Hm, He. simpl in Hm, He.
  eexists. split; [done|]. split; [done|]. intros Hmod. by apply He.
Qed.

Lemma round_nearest_even_spec (mrs : shr_record) :
  shr_m mrs ≤ round_nearest_even (shr_m mrs) (loc_of_shr_record mrs) ≤ shr_m mrs + 1 ∧
  (shr_exact mrs → round_nearest_even (shr_m mrs) (loc_of_shr_record mrs) = shr_m mrs).
Proof.
  destruct mrs as [m [] []]; unfold shr_exact; simpl;
    (split; [try destruct (Z.even m); lia|by intros []]) || (split; [lia|done]).
Qed.

(** Rounding a mantissa that fits: nothing changes. *)
Lemma binary_round_aux_keep (s : bool) (m : positive) (e : Z) :
  fexp prec emax (Z.pos (digits2_pos m) + e) ≤ e →
  binary_round_aux prec emax s (Z.pos m) e loc_Exact
  = if e <=? emax - prec then S754_finite s m e else S754_infinity s.
Proof.
  intros Hn. unfold binary_round_aux. rewrite shr_fexp_keep by done. simpl.
  rewrite shr_fexp_keep by done. done.
Qed.

(** Rounding a mantissa of more than 53 digits: the digits in excess are
    dropped and the mantissa rounded; a carry out of the rounding costs one
    more digit. *)
Lemma binary_round_aux_shift (s : bool) (m : positive) (e : Z) :
  -1074 ≤ e → 53 < Z.pos (digits2_pos m) →
  let n := Z.pos (digits2_pos m) - 53 in
  ∃ (R : positive) (e'' : Z),
    binary_round_aux prec emax s (Z.pos m) e loc_Exact
    = (if e'' <=? emax - prec then S754_finite s R e'' else S754_infinity s) ∧
    ((e'' = e + n ∧ 2 ^ 52 ≤ Z.pos R < 2 ^ 53 ∧
      Z.pos m / 2 ^ n ≤ Z.pos R ≤ Z.pos m / 2 ^ n + 1 ∧
      (Z.pos m mod 2 ^ n = 0 → Z.pos R = Z.pos m / 2 ^ n)) ∨
     (e'' = e + n + 1 ∧ Z.pos R = 2 ^ 52 ∧ 2 ^ 53 - 1 ≤ Z.pos m / 2 ^ n ∧
      Z.pos m mod 2 ^ n ≠ 0)).
Proof.
  intros He HD n.
  assert (n = fexp prec emax (Z.pos (digits2_pos m) + e) - e) as Hn
    by (rewrite fexp_eq; lia).
  destruct (shr_fexp_shift m e n Hn ltac:(lia)) as (mrs & Hshr & Hm & Hex).
  unfold binary_round_aux. rewrite Hshr.
  destruct (round_nearest_even_spec mrs) as [HR HRex].
  set (R := round_nearest_even (shr_m mrs) (loc_of_shr_record mrs)) in *.
  pose proof (digits2_pos_bounds m) as [Hlo Hhi].
  assert (0 < 2 ^ n) as Hpow by (apply Z.pow_pos_nonneg; lia).
  assert (2 ^ 52 ≤ shr_m mrs < 2 ^ 53) as Hm'.
  { rewrite Hm. split.
    - apply Z.div_le_lower_bound; [done|]. rewrite <-Z.pow_add_r by lia.
      etrans; [|exact Hlo]. apply Z.pow_le_mono_r; lia.
    - apply Z.div_lt_upper_bound; [done|]. rewrite <-Z.pow_add_r by lia.
      eapply Z.lt_le_trans; [exact Hhi|]. apply Z.pow_le_mono_r; lia. }
  destruct R as [|r|r] eqn:HRr; [lia| |lia].
  destruct (Z.lt_ge_cases (Z.pos r) (2 ^ 53)) as [Hlt|Hge].
  - assert (Z.pos (digits2_pos r) = 53) as Hd by (apply digits2_pos_unique; lia).
    rewrite shr_fexp_keep by (rewrite Hd, fexp_eq; lia).
    simpl. exists r, (e + n). split; [done|]. left.
    split; [done|]. split; [lia|]. rewrite <-Hm. split; [lia|].
    intros Hmod. by apply HRex, Hex.
  - assert (Z.pos r = 2 ^ 53) as Hr by lia.
    assert (Z.pos (digits2_pos r) = 54) as Hd by (apply digits2_pos_unique; lia).
    destruct (shr_fexp_shift r (e + n) 1) as (mrs2 & Hshr2 & Hm2 & _);
      [rewrite Hd, fexp_eq; lia|lia|].
    rewrite Hshr2. rewrite Hm2, Hr. change (2 ^ 53 / 2 ^ 1) with (Z.pos (2 ^ 52)%positive).
    cbv iota. exists (2 ^ 52)%positive, (e + n + 1). split; [done|]. right.
    split; [done|]. split; [done|]. rewrite <-Hm. split; [lia|].
    intros Hmod. pose proof (HRex (Hex Hmod)). lia.
Qed.

(** [binary_round] on a mantissa of at most 53 digits is exact. *)
Lemma binary_round_exact (s : bool) (M : positive) (e : Z) :
  -1074 ≤ e → Z.pos (digits2_pos M) ≤ 53 →
  let fe := fexp prec emax (Z.pos (digits2_pos M) + e) in
  ∃ R : positive,
    Z.pos R = Z.pos M * 2 ^ (e - fe) ∧
    binary_round prec emax s M e
    = if fe <=? emax - prec then S754_finite s R fe else S754_infinity s.
Proof.
  intros He HD fe.
  assert (fe ≤ e) as Hfe by (unfold fe; rewrite fexp_eq; lia).
  unfold binary_round. fold fe.
  destruct (shl_align_le M e fe Hfe) as [Hmz Hez].
  destruct (shl_align M e fe) as [mz ez]. simpl in Hmz, Hez. subst ez.
  exists mz. split; [done|].
  apply binary_round_aux_keep.
  assert (Z.pos (digits2_pos mz) = Z.pos (digits2_pos M) + (e - fe)) as ->.
  { apply digits2_pos_unique. rewrite Hmz.
    pose proof (digits2_pos_bounds M) as [Hlo Hhi].
    assert (0 < 2 ^ (e - fe)) by (apply Z.pow_pos_nonneg; lia).
    replace (Z.pos (digits2_pos M) + (e - fe) - 1) with (Z.pos (digits2_pos M) - 1 + (e - fe)) by lia.
    rewrite !Z.pow_add_r by lia. nia. }
  replace (Z.pos (digits2_pos M) + (e - fe) + fe) with (Z.pos (digits2_pos M) + e) by lia.
  fold fe. lia.
Qed.

Lemma binary_round_inexact (s : bool) (M : positive) (e : Z) :
  -1074 ≤ e → 53 < Z.pos (digits2_pos M) →
  binary_round prec emax s M e = binary_round_aux prec emax s (Z.pos M) e loc_Exact.
Proof.
  intros He HD. unfold binary_round. rewrite shl_align_gt; [done|].
  rewrite fexp_eq. lia.
Qed.

Lemma binary_round_aux_sign (s : bool) (m e : Z) (l : location) :
  match binary_round_aux prec emax s m e l with
  | S754_zero s' | S754_infinity s' | S754_finite s' _ _ => s' = s
  | S754_nan => True
  end.
Proof.
  unfold binary_round_aux. destruct (shr_fexp prec emax m e l) as [mrs' e'].
  destruct (shr_fexp prec emax _ e' loc_Exact) as [mrs'' e''].
  destruct (shr_m mrs''); [done| |done]. by destruct (_ <=? _).
Qed.

Lemma binary_round_sign (s : bool) (M : positive) (e : Z) :
  match binary_round prec emax s M e with
  | S754_zero s' | S754_infinity s' | S754_finite s' _ _ => s' = s
  | S754_nan => True
  end.
Proof. unfold binary_round. destruct (shl_align _ _ _). apply binary_round_aux_sign. Qed.

(** The sum of two numbers of binary64 that is not zero does not round to
    zero. *)
Lemma binary_round_not_zero (s s' : bool) (M : positive) (e : Z) :
  -1074 ≤ e → binary_round prec emax s M e ≠ S754_zero s'.
Proof.
  intros He. destruct (Z.le_gt_cases (Z.pos (digits2_pos M)) 53) as [HD|HD].
  - destruct (binary_round_exact s M e He HD) as (R & _ & ->). by destruct (_ <=? _).
  - rewrite binary_round_inexact by lia.
    destruct (binary_round_aux_shift s M e He ltac:(lia)) as (R & e'' & -> & _).
    by destruct (_ <=? _).
Qed.

(** What [valid_binary] says of a mantissa and its exponent. *)
Lemma bounded_spec (mx : positive) (ex : Z) :
  bounded prec emax mx ex = true →
  Z.pos (digits2_pos mx) ≤ 53 ∧ -1074 ≤ ex ≤ 971 ∧
  (Z.pos (digits2_pos mx) = 53 ∨ ex = -1074).
Proof.
  unfold bounded, canonical_mantissa. rewrite andb_true_iff, Z.eqb_eq, Z.leb_le, fexp_eq.
  change (emax - prec) with 971. lia.
Qed.





(** A sum is the negative zero only if both terms are. *)
Lemma SFadd_neg_zero (x y : spec_float) :
  valid_binary x = true → valid_binary y = true →
  SFadd prec emax x y = S754_zero true → x = S754_zero true.
Proof.
  intros Hvx Hvy.
  destruct x as [[]|[]| |sx mx ex], y as [[]|[]| |sy my ey]; try done.
  simpl in Hvx, Hvy.
  pose proof (bounded_spec _ _ Hvx) as (_ & Hex & _).
  pose proof (bounded_spec _ _ Hvy) as (_ & Hey & _).
  unfold SFadd. cbv zeta. unfold binary_normalize.
  destruct (_ + _) as [|p|p]; [done| |].
  - pose proof (binary_round_sign false p (Z.min ex ey)) as Hs. intros Hz.
    rewrite Hz in Hs. done.
  - intros Hz. by apply binary_round_not_zero in Hz; [|lia].
Qed.
End rounding.



Lemma add_neg_zero (x y : float) :
  Prim2SF (x + y) = S754_zero true → Prim2SF x = S754_zero true.
Proof. rewrite FloatAxioms.add_spec. apply SFadd_neg_zero; apply Prim2SF_valid. Qed.

(** Two floats that compare equal are the same float, the two zeros
    apart. *)
Lemma feq_eq (x y : float) :
  feq x y → Prim2SF x ≠ S754_zero true → Prim2SF y ≠ S754_zero true → x = y.
Proof.
  intros [->|(s & s' & Hs & Hs')]%feq_cases Hx Hy; [done|].
  apply Prim2SF_inj. rewrite Hs, Hs'. destruct s, s'; done.
Qed.

(** ** Maximum and minimum *)

(** [m] is the greatest (least) item of [l] in the order of floats. *)
Definition is_max_of (m : float) (l : list float) : Prop :=
  m ∈ l ∧ ∀ y, y ∈ l → fle y m.

Definition is_min_of (m : float) (l : list float) : Prop :=
  m ∈ l ∧ ∀ y, y ∈ l → fle m y.

Lemma py_max_elem (x : float) (l : list float) : py_max x l ∈ x :: l.
Proof.
  unfold py_max. revert x. induction l as [|y l IH]; intros x; simpl; [left|].
  specialize (IH (if (x <? y)%float then y else x)).
  apply elem_of_cons in IH as [->|IH]; [|by do 2 right].
  destruct (x <? y)%float; [right; left|left].
Qed.

Lemma py_min_elem (x : float) (l : list float) : py_min x l ∈ x :: l.
Proof.
  unfold py_min. revert x. induction l as [|y l IH]; intros x; simpl; [left|].
  specialize (IH (if (y <? x)%float then y else x)).
  apply elem_of_cons in IH as [->|IH]; [|by do 2 right].
  destruct (y <? x)%float; [right; left|left].
Qed.

(** On numbers, Python's [max] returns the greatest item. *)
Lemma py_max_is_max (x : float) (l : list float) :
  (∀ y, y ∈ x :: l → is_nan y = false) → is_max_of (py_max x l) (x :: l).
Proof.
  intros Hnan. split; [apply py_max_elem|].
  unfold py_max. revert x Hnan. induction l as [|y l IH]; intros x Hnan z Hz; simpl.
  - apply list_elem_of_singleton in Hz as ->. apply fle_refl, Hnan. left.
  - assert (is_nan x = false) as Hx by (apply Hnan; left).
    assert (is_nan y = false) as Hy by (apply Hnan; right; left).
    set (x' := if (x <? y)%float then y else x).
    assert (∀ w, w ∈ x' :: l → is_nan w = false) as Hnan'.
    { intros w [->|Hw]%elem_of_cons; [|apply Hnan; by do 2 right].
      unfold x'. by destruct (x <? y)%float. }
    assert (fle x x' ∧ fle y x') as [Hxx' Hyx'].
    { unfold x'. destruct (x <? y)%float eqn:Hxy.
      - split; [by apply flt_fle|by apply fle_refl].
      - split; [by apply fle_refl|by apply fle_total]. }
    apply elem_of_cons in Hz as [->|[->|Hz]%elem_of_cons].
    + eapply fle_trans; [exact Hxx'|]. apply (IH x' Hnan'). left.
    + eapply fle_trans; [exact Hyx'|]. apply (IH x' Hnan'). left.
    + apply (IH x' Hnan'). by right.
Qed.

Lemma py_min_is_min (x : float) (l : list float) :
  (∀ y, y ∈ x :: l → is_nan y = false) → is_min_of (py_min x l) (x :: l).
Proof.
  intros Hnan. split; [apply py_min_elem|].
  unfold py_min. revert x Hnan. induction l as [|y l IH]; intros x Hnan z Hz; simpl.
  - apply list_elem_of_singleton in Hz as ->. apply fle_refl, Hnan. left.
  - assert (is_nan x = false) as Hx by (apply Hnan; left).
    assert (is_nan y = false) as Hy by (apply Hnan; right; left).
    set (x' := if (y <? x)%float then y else x).
    assert (∀ w, w ∈ x' :: l → is_nan w = false) as Hnan'.
    { intros w [->|Hw]%elem_of_cons; [|apply Hnan; by do 2 right].
      unfold x'. by destruct (y <? x)%float. }
    assert (fle x' x ∧ fle x' y) as [Hxx' Hyx'].
    { unfold x'. destruct (y <? x)%float eqn:Hxy.
      - split; [by apply flt_fle|by apply fle_refl].
      - split; [by apply fle_refl|by apply fle_total]. }
    apply elem_of_cons in Hz as [->|[->|Hz]%elem_of_cons].
    + eapply fle_trans; [|exact Hxx']. apply (IH x' Hnan'). left.
    + eapply fle_trans; [|exact Hyx']. apply (IH x' Hnan'). left.
    + apply (IH x' Hnan'). by right.
Qed.

Lemma is_max_of_set (m : float) (l l' : list float) :
  (∀ y, y ∈ l ↔ y ∈ l') → is_max_of m l → is_max_of m l'.
Proof. intros Heq [Hin Hub]. split; [by apply Heq|]. intros y Hy. by apply Hub, Heq. Qed.

Lemma feq_sym (x y : float) : feq x y → feq y x.
Proof. intros [? ?]%feq_fle. by apply fle_antisym. Qed.

Lemma feq_fle_l (x y : float) : feq x y → fle x y.
Proof. by intros [? ?]%feq_fle. Qed.

Lemma feq_fle_r (x y : float) : feq x y → fle y x.
Proof. by intros [? ?]%feq_fle. Qed.

Lemma is_max_of_feq {A : Type} (f f' : A → float) (l : list A) (m m' : float) :
  (∀ a, a ∈ l → feq (f a) (f' a)) →
  is_max_of m (f <$> l) → is_max_of m' (f' <$> l) → feq m m'.
Proof.
  intros Heq [Hin Hub] [Hin' Hub'].
  apply list_elem_of_fmap in Hin as (a & -> & Ha).
  apply list_elem_of_fmap in Hin' as (a' & -> & Ha').
  apply fle_antisym.
  - eapply fle_trans; [apply feq_fle_l, Heq, Ha|].
    apply Hub'. apply list_elem_of_fmap. eauto.
  - eapply fle_trans; [apply feq_fle_r, Heq, Ha'|].
    apply Hub. apply list_elem_of_fmap. eauto.
Qed.


(** ** What the passes compute *)

Definition ES (s : schedule) (v : nat) : float := sched_earliest_start s !!! v.
Definition EF (s : schedule) (v : nat) : float := sched_earliest_finish s !!! v.
Definition LS (s : schedule) (v : nat) : float := sched_latest_start s !!! v.
Definition LF (s : schedule) (v : nat) : float := sched_latest_finish s !!! v.
Definition SL (s : schedule) (v : nat) : float := sched_slack s !!! v.

Definition dur (task_map : list Task) (v : nat) : float :=
  default 0%float (duration_of task_map v).

Definition has_entries (s : schedule) (i : nat) : Prop :=
  is_Some (sched_earliest_start s !! i) ∧ is_Some (sched_earliest_finish s !! i) ∧
  is_Some (sched_latest_start s !! i) ∧ is_Some (sched_latest_finish s !! i) ∧
  is_Some (sched_slack s !! i).

(** The dictionaries at the end of step 7, in the operations of the code:
    [py_max], [py_min] and the rounded sum and difference. *)
Record schedule_eqs (G : DiGraph) (task_map : list Task) (order : list nat)
    (s : schedule) (total : float) : Prop := mk_schedule_eqs {
  se_dom : ∀ v, v ∈ nodes G → has_entries s v;
  se_es : ∀ v, v ∈ nodes G →
    ES s v = match predecessors G v with
             | [] => 0%float
             | p :: ps => py_max (EF s p) (EF s <$> ps)
             end;
  se_ef : ∀ v, v ∈ nodes G → EF s v = (ES s v + dur task_map v)%float;
  se_lf : ∀ v, v ∈ nodes G →
    LF s v = match successors G v with
             | [] => total
             | p :: ps => py_min (LS s p) (LS s <$> ps)
             end;
  se_ls : ∀ v, v ∈ nodes G → LS s v = (LF s v - dur task_map v)%float;
  se_total :
    total = match order with
            | [] => 0%float
            | o :: os => py_max (EF s o) (EF s <$> os)
            end;
  se_slack : ∀ v, v ∈ nodes G → SL s v = (LS s v - ES s v)%float;
  se_critical : ∀ v, v ∈ critical_path_nodes s ↔
                     v ∈ nodes G ∧ (abs (SL s v) <? epsilon)%float = true
}.

Lemma ovalues_total (ef : odict float) :
  (∀ k, k ∈ okeys ef → is_Some (omap_of ef !! k)) →
  ovalues ef = (omap_of ef !!!.) <$> okeys ef.
Proof.
  unfold ovalues, oitems. induction (okeys ef) as [|k ks IH]; intros Hall; [done|].
  simpl. destruct (Hall k) as [x Hx]; [left|]. rewrite Hx. simpl.
  rewrite lookup_total_alt, Hx. simpl. f_equal. apply IH.
  intros k' Hk'. apply Hall. by right.
Qed.

Lemma slack_step_Ok (es ls : gmap nat float) (st : gmap nat float * list nat) (a : nat)
    (x y : float) :
  es !! a = Some x → ls !! a = Some y →
  slack_step es ls st a =
    Ok (<[a := (y - x)%float]> st.1,
        if (abs (y - x) <? epsilon)%float then st.2 ++ [a] else st.2).
Proof. intros Hx Hy. unfold slack_step, getitem. by rewrite Hy, Hx. Qed.

Lemma slack_fold_spec (es ls : gmap nat float) (l : list nat) (sl : gmap nat float)
    (cpn : list nat) :
  (∀ v, v ∈ l → is_Some (es !! v) ∧ is_Some (ls !! v)) →
  ∃ sl' cpn',
    foldM (slack_step es ls) (sl, cpn) l = Ok (sl', cpn') ∧
    (∀ v, v ∈ l → sl' !! v = Some (ls !!! v - es !!! v)%float) ∧
    (∀ v, v ∉ l → sl' !! v = sl !! v) ∧
    (∀ v, v ∈ cpn' ↔ v ∈ cpn ∨
                     (v ∈ l ∧ (abs (ls !!! v - es !!! v) <? epsilon)%float = true)).
Proof.
  revert sl cpn. induction l as [|a l IH]; intros sl cpn Hall.
  - exists sl, cpn. split_and!; [done| | |].
    + by intros v ?%elem_of_nil.
    + done.
    + intros v. split; [auto|]. by intros [?|[?%elem_of_nil _]].
  - destruct (Hall a) as [[x Hx] [y Hy]]; [left|].
    set (s := (y - x)%float).
    destruct (IH (<[a := s]> sl)
                (if (abs s <? epsilon)%float then cpn ++ [a] else cpn))
      as (sl' & cpn' & Hfold & Hin & Hout & Hcpn).
    { intros v Hv. apply Hall. by right. }
    exists sl', cpn'. split_and!.
    + cbn [foldM]. rewrite (slack_step_Ok es ls (sl, cpn) a x y Hx Hy). apply Hfold.
    + intros v Hv. destruct (decide (v ∈ l)) as [Hl|Hl]; [by apply Hin|].
      apply elem_of_cons in Hv as [->|?]; [|done].
      rewrite Hout by done. rewrite lookup_insert_eq.
      rewrite !lookup_total_alt, Hx, Hy. done.
    + intros v Hv. rewrite not_elem_of_cons in Hv. destruct Hv as [Hne Hl].
      rewrite Hout by done. by rewrite lookup_insert_ne.
    + intros v. rewrite Hcpn. rewrite elem_of_cons.
      assert (ls !!! a = y ∧ es !!! a = x) as [Hy' Hx'].
      { by rewrite !lookup_total_alt, Hx, Hy. }
      destruct (abs s <? epsilon)%float eqn:Hb.
      * rewrite elem_of_app, list_elem_of_singleton. split.
        -- intros [[?| ->]|[? ?]]; auto. right. split; [by left|].
           by rewrite Hy', Hx'.
        -- intros [?|[[->|?] ?]]; auto.
      * split.
        -- intros [?|[? ?]]; auto.
        -- intros [?|[[->|?] Hlt]]; auto.
           rewrite Hy', Hx' in Hlt. fold s in Hlt. congruence.
Qed.

Lemma passes_spec (G : DiGraph) (task_map : list Task) (order : list nat) :
  wf_graph G → topological_order G order →
  (∀ v, v ∈ nodes G → is_Some (duration_of task_map v)) →
  ∃ s total, passes G task_map order = Ok (s, total) ∧
             schedule_eqs G task_map order s total.
Proof.
  intros Hwf Horder Hdur.
  destruct (forward_pass_spec G task_map order Horder Hdur)
    as (es & ef & Hfw & Hkeys & Hfin).
  set (total := total_duration_of ef).
  destruct (backward_pass_spec G task_map order Hwf Horder Hdur total)
    as (ls & lf & Hbw & Hbin).
  destruct Horder as (Hnd & Hall & Hsorted).
  destruct Hfin as [_ Hfin]. destruct Hbin as [_ Hbin].
  assert (∀ v, v ∈ nodes G → ∃ d, duration_of task_map v = Some d ∧
            es !! v = Some (rec_val (predecessors G) 0%float py_max (omap_of ef) v) ∧
            omap_of ef !! v
              = Some (rec_val (predecessors G) 0%float py_max (omap_of ef) v + d)%float)
    as Hf by (intros v Hv; by apply Hfin, Hall).
  assert (∀ v, v ∈ nodes G → ∃ d, duration_of task_map v = Some d ∧
            lf !! v = Some (rec_val (successors G) total py_min ls v) ∧
            ls !! v = Some (rec_val (successors G) total py_min ls v - d)%float)
    as Hb by (intros v Hv; by apply Hbin, elem_of_reverse, Hall).
  clear Hfin Hbin.
  destruct (slack_fold_spec es ls (nodes G) ∅ [])
    as (sl & cpn & Hsl & Hslin & _ & Hcpn).
  { intros v Hv. destruct (Hf v Hv) as (? & _ & -> & _).
    destruct (Hb v Hv) as (? & _ & _ & ->). eauto. }
  exists (mkSchedule es (omap_of ef) ls lf sl cpn), total. split.
  { unfold passes. rewrite Hfw. simpl. fold total. rewrite Hbw. simpl.
    unfold slack_pass. rewrite Hsl. done. }
  split.
  - intros v Hv. unfold has_entries. simpl. destruct (Hf v Hv) as (? & _ & -> & ->).
    destruct (Hb v Hv) as (? & _ & -> & ->). rewrite (Hslin v Hv). eauto 10.
  - intros v Hv. destruct (Hf v Hv) as (d & _ & Hes & _).
    unfold ES. simpl. rewrite lookup_total_alt, Hes. simpl.
    unfold rec_val. by destruct (predecessors G v) as [|p ps].
  - intros v Hv. destruct (Hf v Hv) as (d & Hd & Hes & Hef).
    unfold EF, ES, dur. simpl. rewrite !lookup_total_alt, Hes, Hef, Hd. done.
  - intros v Hv. destruct (Hb v Hv) as (d & _ & Hlf & _).
    unfold LF. simpl. rewrite lookup_total_alt, Hlf. simpl.
    unfold rec_val. by destruct (successors G v) as [|p ps].
  - intros v Hv. destruct (Hb v Hv) as (d & Hd & Hlf & Hls).
    unfold LS, LF, dur. simpl. rewrite !lookup_total_alt, Hlf, Hls, Hd. done.
  - assert (ovalues ef = (omap_of ef !!!.) <$> order) as Hvals.
    { rewrite ovalues_total; [by rewrite Hkeys|].
      intros k Hk. rewrite Hkeys in Hk. apply Hall in Hk.
      destruct (Hf k Hk) as (? & _ & _ & ->). eauto. }
    unfold total, total_duration_of. rewrite Hvals. by destruct order.
  - intros v Hv. unfold SL, LS, ES. simpl. rewrite lookup_total_alt, (Hslin v Hv). done.
  - intros v. simpl. rewrite Hcpn. unfold SL. simpl. split.
    + intros [[]%elem_of_nil|[Hv Hlt]]. split; [done|].
      by rewrite lookup_total_alt, (Hslin v Hv).
    + intros [Hv Hlt]. right. split; [done|].
      by rewrite lookup_total_alt, (Hslin v Hv) in Hlt.
Qed.

(** ** [dag_longest_path] returns *)

Lemma py_max_by_elem {A : Type} (key : A → Z) (x : A) (l : list A) :
  py_max_by key x l ∈ x :: l.
Proof.
  unfold py_max_by. revert x. induction l as [|y l IH]; intros x; simpl; [left|].
  specialize (IH (if (key x <? key y)%Z then y else x)).
  apply elem_of_cons in IH as [->|IH]; [|by do 2 right].
  destruct ((key x <? key y)%Z); [right; left|left].
Qed.

Section longest_path.
Context (G : DiGraph).

(** Every entry of [dist] points to the node itself or to a node placed
    earlier in the ordering. *)
Definition dist_inv (done : list nat) (dist : odict (Z * nat)) : Prop :=
  okeys dist = done ∧
  ∀ i v, done !! i = Some v →
    ∃ len u, omap_of dist !! v = Some (len, u) ∧
             (u = v ∨ ∃ j, j < i ∧ done !! j = Some u).

Lemma dist_step_spec (done rest : list nat) (dist : odict (Z * nat)) (v : nat) :
  NoDup (done ++ v :: rest) → topo_sorted G (done ++ v :: rest) →
  dist_inv done dist →
  ∃ dist', dist_step G dist v = Ok dist' ∧ dist_inv (done ++ [v]) dist'.
Proof.
  intros Hnd Hsorted [Hkeys Hinv].
  assert (v ∉ done) as Hv.
  { apply NoDup_app in Hnd as (_ & Hdisj & _). intros ?. eapply Hdisj; [done|left]. }
  assert (∀ u, u ∈ predecessors G v → ∃ j, j < length done ∧ done !! j = Some u)
    as Hpred.
  { intros u Hu. destruct (Hsorted (length done) v u) as (j & Hj & Hju); [|done|].
    { by rewrite list_lookup_middle. }
    exists j. split; [done|]. by rewrite lookup_app_l in Hju. }
  set (f := λ u, (((omap_of dist !!! u).1 + edge_get_weight G u v)%Z, u)).
  assert (mapR (λ u, du ← getitem (omap_of dist) u;
                     Ok ((du.1 + edge_get_weight G u v)%Z, u))
               (predecessors G v) = Ok (f <$> predecessors G v)) as Hmap.
  { apply mapR_Ok. intros u Hu. destruct (Hpred u Hu) as (j & _ & Hj).
    destruct (Hinv j u Hj) as (len & w & Hd & _).
    unfold getitem, f. rewrite lookup_total_alt, Hd. done. }
  unfold dist_step. rewrite Hmap. simpl.
  set (maxu := match f <$> predecessors G v with
               | [] => (0%Z, v)
               | x :: xs => py_max_by fst x xs
               end).
  assert (maxu.2 = v ∨ maxu.2 ∈ predecessors G v) as Hmaxu.
  { unfold maxu. destruct (f <$> predecessors G v) as [|x xs] eqn:Hf; [by left|].
    right. pose proof (py_max_by_elem fst x xs) as Hin. rewrite <-Hf in Hin.
    apply list_elem_of_fmap in Hin as (u & -> & Hu). done. }
  set (entry := if (0 <=? maxu.1)%Z then maxu else (0%Z, v)).
  assert (entry.2 = v ∨ entry.2 ∈ predecessors G v) as Hentry.
  { unfold entry. destruct ((0 <=? maxu.1)%Z); [done|by left]. }
  eexists. split; [done|]. split.
  - simpl. rewrite Hkeys. unfold add_key. by rewrite decide_False.
  - intros i w Hi. simpl.
    destruct (decide (i < length done)) as [Hlt|Hge].
    + rewrite lookup_app_l in Hi by done.
      destruct (Hinv i w Hi) as (len & u & Hd & Hu).
      exists len, u. split.
      * rewrite lookup_insert_ne; [done|]. intros <-. apply Hv.
        apply list_elem_of_lookup. eauto.
      * destruct Hu as [?|(j & Hj & Hju)]; [by left|]. right. exists j.
        split; [done|]. rewrite lookup_app_l by lia. done.
    + assert (i = length done ∧ w = v) as [-> ->].
      { pose proof (lookup_lt_Some _ _ _ Hi) as Hlen.
        rewrite length_app in Hlen. simpl in Hlen.
        assert (i = length done) as -> by lia.
        rewrite list_lookup_middle in Hi by done. by simplify_eq. }
      exists entry.1, entry.2. split.
      * rewrite lookup_insert_eq. by destruct entry.
      * destruct Hentry as [?|Hu]; [by left|]. right.
        destruct (Hpred _ Hu) as (j & Hj & Hju). exists j.
        split; [done|]. by rewrite lookup_app_l.
Qed.

Lemma dist_fold_spec (rest done : list nat) (dist : odict (Z * nat)) :
  NoDup (done ++ rest) → topo_sorted G (done ++ rest) → dist_inv done dist →
  ∃ dist', foldM (dist_step G) dist rest = Ok dist' ∧ dist_inv (done ++ rest) dist'.
Proof.
  revert done dist. induction rest as [|v rest IH]; intros done dist Hnd Hsorted Hinv.
  - exists dist. by rewrite app_nil_r.
  - destruct (dist_step_spec done rest dist v) as (dist1 & Hstep & Hinv1); [done..|].
    destruct (IH (done ++ [v]) dist1) as (dist2 & Hfold & Hinv2);
      [by rewrite <-app_assoc..|done|].
    exists dist2. simpl. rewrite Hstep. simpl. rewrite Hfold.
    by rewrite <-app_assoc in Hinv2.
Qed.

Lemma trace_back_returns (order : list nat) (dist : odict (Z * nat)) (fuel : nat) :
  dist_inv order dist →
  ∀ i v u0 path, order !! i = Some v → i < fuel → u0 ≠ Some v →
    ∃ p, trace_back fuel (omap_of dist) u0 v path = Ok p.
Proof.
  intros [_ Hinv]. induction fuel as [|fuel IH]; intros i v u0 path Hi Hlt Hne; [lia|].
  simpl. rewrite decide_False by done.
  destruct (Hinv i v Hi) as (len & u & Hd & Hu).
  unfold getitem. rewrite Hd. simpl.
  destruct Hu as [->|(j & Hj & Hju)].
  - destruct fuel; simpl; rewrite decide_True by done; eauto.
  - destruct (decide (u = v)) as [->|Hne'].
    + destruct fuel; simpl; rewrite decide_True by done; eauto.
    + apply (IH j); [done|lia|]. intros [=]. done.
Qed.

Lemma dag_longest_path_returns (order : list nat) :
  topological_sort G = Ok order → topological_order G order →
  ∃ path, dag_longest_path G = Ok path.
Proof.
  intros Hsort (Hnd & Hall & Hsorted). unfold dag_longest_path.
  remember (S (length (nodes G))) as fuel eqn:Hfuel.
  destruct (nodes G) as [|n ns] eqn:Hn; [eauto|].
  rewrite Hsort. simpl.
  destruct (dist_fold_spec order [] oempty) as (dist & Hfold & Hinv); [done..| |].
  { split; [done|]. intros i v Hi. by rewrite lookup_nil in Hi. }
  rewrite Hfold. simpl. simpl in Hinv.
  destruct (oitems dist) as [|x xs] eqn:Hitems.
  - exfalso. assert (n ∈ order) as [i Hi]%list_elem_of_lookup.
    { apply Hall. left. }
    destruct Hinv as [Hkeys Hinv]. destruct (Hinv i n Hi) as (len & u & Hd & _).
    assert ((n, (len, u)) ∈ oitems dist) as Hin.
    { unfold oitems. apply list_elem_of_omap. exists n. split.
      - rewrite Hkeys. apply list_elem_of_lookup. eauto.
      - by rewrite Hd. }
    rewrite Hitems in Hin. by apply elem_of_nil in Hin.
  - pose proof (py_max_by_elem (λ kv : nat * (Z * nat), kv.2.1) x xs) as Hin.
    rewrite <-Hitems in Hin. unfold oitems in Hin.
    apply list_elem_of_omap in Hin as (k & Hk & Hkv).
    destruct (omap_of dist !! k) as [d|] eqn:Hd; [|done]. simpl in Hkv.
    injection Hkv as Hkv. rewrite <-Hkv. cbn [fst].
    destruct Hinv as [Hkeys Hinv']. rewrite Hkeys in Hk.
    apply list_elem_of_lookup in Hk as [i Hi].
    destruct (trace_back_returns order dist fuel
                (conj Hkeys Hinv') i k None [] Hi) as (p & Hp); [|done|].
    + pose proof (lookup_lt_Some _ _ _ Hi) as Hlen.
      assert (length order ≤ length (nodes G)) as Hle.
      { apply length_le_nodes; [done|]. intros w. rewrite Hn. apply Hall. }
      rewrite Hn in Hle. simpl in *. lia.
    + rewrite Hp. simpl. eauto.
Qed.
End longest_path.

(** ** Calendar dates *)

(** The exceptions of [start_date + timedelta(days=x)]. *)
Definition date_error (e : exn) : Prop :=
  e = OverflowError ∨ e = ValueError nan_message.

Lemma microseconds_to_delta_outcome (us : Z) :
  microseconds_to_delta us = Ok us ∨ microseconds_to_delta us = Raise OverflowError.
Proof. unfold microseconds_to_delta. case_decide; auto. Qed.

(** A [timedelta] is made of a finite number of days only. *)
Lemma timedelta_days_outcome (x : float) :
  (∃ td, timedelta_days x = Ok td ∧ finite x = true) ∨
  (∃ e, timedelta_days x = Raise e ∧ date_error e).
Proof.
  unfold timedelta_days, finite, date_error.
  destruct (Prim2SF x) as [s|s| |s m e]; simpl; [|by eauto|by eauto|].
  - repeat case_match;
      match goal with
      | |- context [microseconds_to_delta ?us] =>
          destruct (microseconds_to_delta_outcome us) as [-> | ->]
      end; eauto.
  - repeat case_match;
      match goal with
      | |- context [microseconds_to_delta ?us] =>
          destruct (microseconds_to_delta_outcome us) as [-> | ->]
      end; eauto.
Qed.

Lemma add_days_outcome (start : datetime) (x : float) :
  (∃ d, add_days start x = Ok d ∧ finite x = true) ∨
  (∃ e, add_days start x = Raise e ∧ date_error e).
Proof.
  unfold add_days.
  destruct (timedelta_days_outcome x) as [(td & -> & Hfin)|(e & -> & He)]; [|by eauto].
  simpl. unfold datetime_add. case_decide; [by eauto|].
  right. eexists. split; [done|]. by left.
Qed.

(** ** [compute_schedule] as a whole *)

(** The task after the six numeric assignments of step 8. *)
Definition write_numbers (s : schedule) (i : nat) (task : Task) : Task :=
  set_is_on_critical_path
    (if decide (i ∈ critical_path_nodes s) then 1 else 0)%Z
    (set_slack (SL s i)
       (set_latest_finish (LF s i)
          (set_latest_start (LS s i)
             (set_earliest_finish (EF s i)
                (set_earliest_start (ES s i) task))))).

(** The task after step 8, with the two dates. *)
Definition write_task (s : schedule) (sd ed : datetime) (i : nat) (task : Task) : Task :=
  set_end_date ed (set_start_date sd (write_numbers s i task)).

Lemma update_task_entries (s : schedule) (start : datetime) (i : nat) (task : Task) :
  has_entries s i →
  update_task s start i task =
    match add_days start (ES s i) with
    | Raise e => (write_numbers s i task, Raise e)
    | Diverge => (write_numbers s i task, Diverge)
    | Ok sd =>
        match add_days start (EF s i) with
        | Raise e => (set_start_date sd (write_numbers s i task), Raise e)
        | Diverge => (set_start_date sd (write_numbers s i task), Diverge)
        | Ok ed => (write_task s sd ed i task, Ok ())
        end
    end.
Proof.
  intros ([a Ha] & [b Hb] & [c Hc] & [d Hd] & [e He]).
  unfold update_task, write_task, write_numbers, ES, EF, LS, LF, SL.
  rewrite !lookup_total_alt, Ha, Hb, Hc, Hd, He. done.
Qed.

(** The outcome of the body of the loop of step 8: both dates exist, or one
    of the two additions raises. *)
Lemma update_task_outcome (s : schedule) (start : datetime) (i : nat) (task : Task) :
  has_entries s i →
  (∃ sd ed, add_days start (ES s i) = Ok sd ∧ add_days start (EF s i) = Ok ed ∧
            finite (ES s i) = true ∧ finite (EF s i) = true ∧
            update_task s start i task = (write_task s sd ed i task, Ok ())) ∨
  (∃ task' e, update_task s start i task = (task', Raise e) ∧ date_error e).
Proof.
  intros Hi. rewrite (update_task_entries s start i task Hi).
  destruct (add_days_outcome start (ES s i)) as [(sd & -> & Hf1)|(e & -> & He)];
    [|by eauto].
  destruct (add_days_outcome start (EF s i)) as [(ed & -> & Hf2)|(e & -> & He)];
    [|by eauto].
  left. by exists sd, ed.
Qed.

Lemma update_tasks_outcome (s : schedule) (start : datetime) (tasks : list Task) (k : nat) :
  (∀ i, k ≤ i < k + length tasks → has_entries s i) →
  ∀ tasks' r, update_tasks s start k tasks = (tasks', r) →
    length tasks' = length tasks ∧
    ((r = Ok () ∧
      ∀ j t, tasks !! j = Some t →
        ∃ sd ed, add_days start (ES s (k + j)) = Ok sd ∧
                 add_days start (EF s (k + j)) = Ok ed ∧
                 finite (ES s (k + j)) = true ∧ finite (EF s (k + j)) = true ∧
                 tasks' !! j = Some (write_task s sd ed (k + j) t)) ∨
     (∃ e, r = Raise e ∧ date_error e)).
Proof.
  revert k. induction tasks as [|t tasks IH]; intros k Hall tasks' r Hrun.
  - simpl in Hrun. simplify_eq. split; [done|]. left. split; [done|].
    intros j t Hj. by rewrite lookup_nil in Hj.
  - cbn [update_tasks] in Hrun.
    destruct (update_task_outcome s start k t) as
      [(sd & ed & Hsd & Hed & Hf1 & Hf2 & Hup)|(t' & e & Hup & He)].
    { apply Hall. simpl. lia. }
    + rewrite Hup in Hrun.
      destruct (update_tasks s start (S k) tasks) as [rest r'] eqn:Hrest.
      simpl in Hrun. simplify_eq.
      destruct (IH (S k)) with (tasks' := rest) (r := r) as [Hlen Hcases]; [|done|].
      { intros i Hi. apply Hall. simpl. lia. }
      split; [by simpl; f_equal|].
      destruct Hcases as [[-> Hok]|?]; [|by right].
      left. split; [done|]. intros [|j] u Hj; simpl in Hj.
      * simplify_eq. rewrite Nat.add_0_r. exists sd, ed. done.
      * destruct (Hok j u Hj) as (sd' & ed' & ? & ? & ? & ? & ?).
        replace (k + S j) with (S k + j) by lia. exists sd', ed'. done.
    + rewrite Hup in Hrun. simplify_eq. split; [done|]. right. eauto.
Qed.

(** The dependency relation of the task list has a cycle. *)
Definition cyclic_deps (tasks : list Task) : Prop := ∃ v, tc (dep_edge tasks) v v.

Lemma dep_edge_pert (tasks : list Task) (u i : nat) :
  dep_edge (pert <$> tasks) u i ↔ dep_edge tasks u i.
Proof.
  unfold dep_edge, in_range_dep. rewrite length_fmap. split.
  - intros (t' & Ht & Hr). rewrite list_lookup_fmap in Ht.
    destruct (tasks !! i) as [t|]; [|done]. simpl in Ht. simplify_eq.
    by exists t.
  - intros (t & Ht & Hr). exists (pert t). split; [|done].
    rewrite list_lookup_fmap, Ht. done.
Qed.

Lemma cyclic_build_graph (tasks : list Task) :
  cyclic (build_graph (pert <$> tasks)) ↔ cyclic_deps tasks.
Proof.
  unfold cyclic, cyclic_deps. split; intros [v Hv]; exists v.
  - eapply (tc_congruence id); [|done]. intros x y Hxy.
    by apply dep_edge_pert, build_graph_edge.
  - eapply (tc_congruence id); [|done]. intros x y Hxy.
    by apply build_graph_edge, dep_edge_pert.
Qed.

Lemma duration_of_pert (tasks : list Task) (v : nat) (t : Task) :
  tasks !! v = Some t → duration_of (pert <$> tasks) v = Some (pert_value t).
Proof. intros Ht. unfold duration_of. rewrite list_lookup_fmap, Ht. done. Qed.

Lemma compute_schedule_nonempty (tasks : list Task) (start_date : option datetime)
    (now : datetime) :
  tasks ≠ [] →
  compute_schedule tasks start_date now =
    let tasks1 := pert <$> tasks in
    let G := build_graph tasks1 in
    match compute_dicts G tasks1 with
    | Raise e => (tasks1, Raise e)
    | Diverge => (tasks1, Diverge)
    | Ok (s, total_duration) =>
        match update_tasks s (default now start_date) 0 tasks1 with
        | (tasks2, Raise e) => (tasks2, Raise e)
        | (tasks2, Diverge) => (tasks2, Diverge)
        | (tasks2, Ok _) =>
            match dag_longest_path G with
            | Ok critical_path => (tasks2, Ok (critical_path, total_duration))
            | Raise _ => (tasks2, Ok (critical_path_nodes s, total_duration))
            | Diverge => (tasks2, Diverge)
            end
        end
    end.
Proof. by destruct tasks. Qed.

(** A task list whose dependency relation has a cycle: the exception of
    step 3, after step 1 has written the expected durations. *)
Lemma compute_schedule_cyclic (tasks : list Task) (start_date : option datetime)
    (now : datetime) :
  cyclic_deps tasks →
  compute_schedule tasks start_date now
  = (pert <$> tasks, Raise (ValueError cycle_message)).
Proof.
  intros Hcyc.
  assert (tasks ≠ []) as Hne.
  { intros ->. destruct Hcyc as [v Hv].
    assert (∀ x y, tc (dep_edge []) x y → False) as Hno; [|by eapply Hno].
    intros x y Htc. destruct Htc as [? ? (t & Ht & _)|? ? ? (t & Ht & _) _];
      by rewrite lookup_nil in Ht. }
  rewrite compute_schedule_nonempty by done. cbv zeta.
  unfold compute_dicts.
  destruct (is_directed_acyclic_graph_spec (build_graph (pert <$> tasks)))
    as [[_ Hacyc]|[-> _]]; [apply build_graph_wf| |done].
  destruct Hacyc. by apply cyclic_build_graph.
Qed.

(** A task list without a cycle: steps 1 to 7 succeed and step 9 finds a
    path; the outcome is that of step 8. *)
Lemma compute_schedule_acyclic (tasks : list Task) (start_date : option datetime)
    (now : datetime) :
  tasks ≠ [] → ¬ cyclic_deps tasks →
  ∃ order s total critical_path,
    topological_order (build_graph (pert <$> tasks)) order ∧
    schedule_eqs (build_graph (pert <$> tasks)) (pert <$> tasks) order s total ∧
    dag_longest_path (build_graph (pert <$> tasks)) = Ok critical_path ∧
    compute_schedule tasks start_date now =
      match update_tasks s (default now start_date) 0 (pert <$> tasks) with
      | (tasks2, Ok _) => (tasks2, Ok (critical_path, total))
      | (tasks2, Raise e) => (tasks2, Raise e)
      | (tasks2, Diverge) => (tasks2, Diverge)
      end.
Proof.
  intros Hne Hacyc. rewrite compute_schedule_nonempty by done. cbv zeta.
  set (tasks1 := pert <$> tasks). set (G := build_graph tasks1).
  pose proof (build_graph_wf tasks1 : wf_graph G) as Hwf.
  unfold compute_dicts.
  destruct (is_directed_acyclic_graph_spec G Hwf) as [[-> _]|[_ Hcyc]];
    [|destruct Hacyc; by apply cyclic_build_graph].
  simpl.
  destruct (topological_sort_spec G Hwf) as [(order & Hsort & Horder)|(_ & vis & Hstuck)];
    [|destruct Hacyc; apply cyclic_build_graph; by eapply stuck_cyclic].
  rewrite Hsort. simpl.
  assert (nodes G = seq 0 (length tasks)) as Hnodes.
  { unfold G, tasks1. rewrite build_graph_nodes. by rewrite length_fmap. }
  destruct (passes_spec G tasks1 order Hwf Horder) as (s & total & Hpasses & Hok).
  { intros v Hv. rewrite Hnodes in Hv. apply elem_of_seq in Hv.
    destruct (lookup_lt_is_Some_2 tasks v) as [t Ht]; [lia|].
    unfold tasks1. rewrite (duration_of_pert tasks v t Ht). eauto. }
  rewrite Hpasses.
  destruct (dag_longest_path_returns G order Hsort Horder) as (cp & Hcp).
  exists order, s, total, cp. split_and!; [done..|].
  rewrite Hcp. by destruct (update_tasks _ _ _ _) as [tasks2 [[]| |]].
Qed.

(** ** Induction along a topological order *)

Lemma topo_induction (G : DiGraph) (order : list nat) (P : nat → Prop) :
  topological_order G order →
  (∀ v, v ∈ nodes G → (∀ u, edge G u v → P u) → P v) →
  ∀ v, v ∈ nodes G → P v.
Proof.
  intros (Hnd & Hall & Hsorted) Hstep.
  assert (∀ i v, order !! i = Some v → P v) as Hidx.
  { intros i. induction i as [i IH] using lt_wf_ind. intros v Hi.
    apply Hstep.
    - apply Hall, list_elem_of_lookup. eauto.
    - intros u Hu. destruct (Hsorted i v u Hi Hu) as (j & Hj & Hju). by eapply IH. }
  intros v [i Hi]%Hall%list_elem_of_lookup. by eapply Hidx.
Qed.

Lemma topo_induction_rev (G : DiGraph) (order : list nat) (P : nat → Prop) :
  wf_graph G → topological_order G order →
  (∀ v, v ∈ nodes G → (∀ s, edge G v s → P s) → P v) →
  ∀ v, v ∈ nodes G → P v.
Proof.
  intros Hwf Horder Hstep.
  pose proof (closed_order_reverse G order Hwf Horder) as Hclosed.
  destruct Horder as (Hnd & Hall & Hsorted).
  assert (∀ i v, reverse order !! i = Some v → P v) as Hidx.
  { intros i. induction i as [i IH] using lt_wf_ind. intros v Hi.
    apply Hstep.
    - apply Hall, elem_of_reverse, list_elem_of_lookup. eauto.
    - intros s Hs. destruct (Hclosed i v s Hi) as (j & Hj & Hjs).
      + by apply (wf_adj G Hwf).
      + by eapply IH. }
  intros v [i Hi]%Hall%elem_of_reverse%list_elem_of_lookup. by eapply Hidx.
Qed.

(** ** The schedule of a run whose dates exist

    When step 8 succeeds, every earliest start and finish has gone through
    [timedelta] and is finite; the durations are then finite, no latest
    start or finish is NaN, and the maxima and minima of the passes are
    the greatest and least items in the order of floats. *)

Section solution.
Context (G : DiGraph) (task_map : list Task) (order : list nat).
Context (s : schedule) (total : float).
Context (Hwf : wf_graph G) (Horder : topological_order G order).
Context (Heqs : schedule_eqs G task_map order s total).
Context (Hfin : ∀ v, v ∈ nodes G → finite (ES s v) = true ∧ finite (EF s v) = true).

Lemma dur_finite (v : nat) : v ∈ nodes G → finite (dur task_map v) = true.
Proof.
  intros Hv. destruct (Hfin v Hv) as [_ Hef].
  rewrite (se_ef _ _ _ _ _ Heqs v Hv) in Hef. by apply add_finite in Hef as [_ ?].
Qed.

Lemma total_member : order ≠ [] → ∃ v, v ∈ nodes G ∧ total = EF s v.
Proof.
  intros Hne. pose proof (se_total _ _ _ _ _ Heqs) as Htot.
  destruct order as [|o os] eqn:Ho; [done|].
  pose proof (py_max_elem (EF s o) (EF s <$> os)) as Hin. rewrite <-Htot in Hin.
  rewrite <-fmap_cons in Hin.
  apply list_elem_of_fmap in Hin as (v & -> & Hv). exists v. split; [|done].
  by apply Horder.
Qed.

Lemma order_nonempty (v : nat) : v ∈ nodes G → order ≠ [].
Proof. intros Hv ->. destruct Horder as (_ & Hall & _). apply Hall in Hv. by apply elem_of_nil in Hv. Qed.

Lemma total_finite (v : nat) : v ∈ nodes G → finite total = true.
Proof.
  intros Hv. destruct (total_member (order_nonempty v Hv)) as (u & Hu & ->).
  by apply Hfin.
Qed.

Lemma latest_not_nan (v : nat) :
  v ∈ nodes G → is_nan (LS s v) = false ∧ is_nan (LF s v) = false.
Proof.
  revert v. apply (topo_induction_rev G order); [done..|]. intros v Hv IH.
  assert (is_nan (LF s v) = false) as Hlf.
  { rewrite (se_lf _ _ _ _ _ Heqs v Hv).
    destruct (successors G v) as [|p ps] eqn:Hsucc.
    - by apply finite_not_nan, (total_finite v).
    - pose proof (py_min_elem (LS s p) (LS s <$> ps)) as Hin.
      rewrite <-fmap_cons in Hin.
      apply list_elem_of_fmap in Hin as (u & -> & Hu).
      rewrite <-Hsucc in Hu. apply (wf_adj G Hwf) in Hu. by apply IH. }
  split; [|done]. rewrite (se_ls _ _ _ _ _ Heqs v Hv).
  apply sub_not_nan; [done|]. by apply dur_finite.
Qed.

(** The earliest start of a task with predecessors is the greatest of
    their earliest finishes. *)
Lemma es_max (v : nat) :
  v ∈ nodes G →
  match predecessors G v with
  | [] => ES s v = 0%float
  | ps => is_max_of (ES s v) (EF s <$> ps)
  end.
Proof.
  intros Hv. rewrite (se_es _ _ _ _ _ Heqs v Hv).
  destruct (predecessors G v) as [|p ps] eqn:Hp; [done|].
  rewrite fmap_cons. apply (py_max_is_max (EF s p) (EF s <$> ps)).
  rewrite <-fmap_cons.
  intros y (u & -> & Hu)%list_elem_of_fmap. rewrite <-Hp in Hu.
  apply finite_not_nan, Hfin. by apply (wf_closed G Hwf u v).
Qed.

(** The latest finish of a task with successors is the least of their
    latest starts. *)
Lemma lf_min (v : nat) :
  v ∈ nodes G →
  match successors G v with
  | [] => LF s v = total
  | ss => is_min_of (LF s v) (LS s <$> ss)
  end.
Proof.
  intros Hv. rewrite (se_lf _ _ _ _ _ Heqs v Hv).
  destruct (successors G v) as [|p ps] eqn:Hp; [done|].
  rewrite fmap_cons. apply (py_min_is_min (LS s p) (LS s <$> ps)).
  rewrite <-fmap_cons.
  intros y (u & -> & Hu)%list_elem_of_fmap. rewrite <-Hp in Hu.
  apply (wf_adj G Hwf) in Hu. apply latest_not_nan. by apply (wf_closed G Hwf v u).
Qed.

(** The total duration is the greatest earliest finish. *)
Lemma total_max :
  match nodes G with
  | [] => total = 0%float
  | ns => is_max_of total (EF s <$> ns)
  end.
Proof.
  pose proof (se_total _ _ _ _ _ Heqs) as Htot.
  destruct Horder as (Hnd & Hall & Hsorted).
  destruct (nodes G) as [|n ns] eqn:Hn.
  - destruct order as [|o os]; [done|].
    exfalso. assert (o ∈ []) as []%elem_of_nil. apply Hall. left.
  - destruct order as [|o os] eqn:Ho.
    { exfalso. assert (n ∈ []) as []%elem_of_nil. apply Hall. left. }
    apply (is_max_of_set total (EF s <$> o :: os)).
    { intros y. rewrite !list_elem_of_fmap. split; intros (a & -> & Ha);
        exists a; (split; [done|]); by apply Hall. }
    rewrite Htot, fmap_cons. apply (py_max_is_max (EF s o) (EF s <$> os)).
    rewrite <-fmap_cons.
    intros y (u & -> & Hu)%list_elem_of_fmap.
    apply finite_not_nan, Hfin. by apply Hall.
Qed.


(** No earliest start or finish, and so no total duration, is the negative
    zero: a sum is [-0.0] only if both terms are. *)
Lemma earliest_not_neg_zero (v : nat) :
  v ∈ nodes G →
  Prim2SF (ES s v) ≠ S754_zero true ∧ Prim2SF (EF s v) ≠ S754_zero true.
Proof.
  revert v. apply (topo_induction G order); [done|]. intros v Hv IH.
  assert (Prim2SF (ES s v) ≠ S754_zero true) as Hes.
  { rewrite (se_es _ _ _ _ _ Heqs v Hv).
    destruct (predecessors G v) as [|p ps] eqn:Hp; [vm_compute; discriminate|].
    pose proof (py_max_elem (EF s p) (EF s <$> ps)) as Hin.
    rewrite <-fmap_cons in Hin.
    apply list_elem_of_fmap in Hin as (u & -> & Hu).
    apply IH. unfold edge. by rewrite Hp. }
  split; [done|]. rewrite (se_ef _ _ _ _ _ Heqs v Hv). intros Hz.
  by apply add_neg_zero in Hz.
Qed.

Lemma total_not_neg_zero : Prim2SF total ≠ S754_zero true.
Proof.
  destruct (decide (order = [])) as [Ho|Ho].
  - rewrite (se_total _ _ _ _ _ Heqs), Ho. vm_compute. discriminate.
  - destruct (total_member Ho) as (v & Hv & Ht). rewrite Ht.
    by apply earliest_not_neg_zero.
Qed.

(** With expected durations that are not negative, rounding keeps the
    order: a task finishes no earlier than it starts, and no latest finish
    exceeds the total duration. *)
Context (Hpos : ∀ v, v ∈ nodes G → fle 0 (dur task_map v)).



End solution.

(** ** The schedule does not depend on the topological order *)

Section order_independence.
Context (G : DiGraph) (task_map : list Task).
Context (order : list nat) (s : schedule) (total : float).
Context (order' : list nat) (s' : schedule) (total' : float).
Context (Hwf : wf_graph G).
Context (Horder : topological_order G order) (Horder' : topological_order G order').
Context (Heqs : schedule_eqs G task_map order s total).
Context (Heqs' : schedule_eqs G task_map order' s' total').

(** The forward pass gives the same floats. *)
Lemma forward_unique (v : nat) :
  v ∈ nodes G → ES s' v = ES s v ∧ EF s' v = EF s v.
Proof.
  revert v. apply (topo_induction G order); [done|]. intros v Hv IH.
  assert (ES s' v = ES s v) as Hes.
  { rewrite (se_es _ _ _ _ _ Heqs v Hv), (se_es _ _ _ _ _ Heqs' v Hv).
    unfold edge in IH. destruct (predecessors G v) as [|p ps]; [done|].
    rewrite (proj2 (IH p ltac:(left))). f_equal.
    apply list_fmap_ext. intros i u Hu. apply IH. right.
    apply list_elem_of_lookup. eauto. }
  split; [done|].
  by rewrite (se_ef _ _ _ _ _ Heqs v Hv), (se_ef _ _ _ _ _ Heqs' v Hv), Hes.
Qed.

Context (Hfin : ∀ v, v ∈ nodes G → finite (ES s v) = true ∧ finite (EF s v) = true).

Lemma forward_finite' (v : nat) :
  v ∈ nodes G → finite (ES s' v) = true ∧ finite (EF s' v) = true.
Proof. intros Hv. destruct (forward_unique v Hv) as [-> ->]. by apply Hfin. Qed.

(** The total durations are the same float: they compare equal, and
    neither is the negative zero. *)
Lemma total_unique : total' = total.
Proof.
  pose proof (total_max G task_map order s total Horder Heqs Hfin) as Htot.
  pose proof (total_max G task_map order' s' total' Horder' Heqs' forward_finite')
    as Htot'.
  assert (∀ a, a ∈ nodes G → feq (EF s' a) (EF s a)) as Hpt.
  { intros a Ha. rewrite (proj2 (forward_unique a Ha)).
    apply fle_antisym; by apply fle_refl, finite_not_nan, Hfin. }
  apply feq_eq.
  - destruct (nodes G) as [|n ns].
    + subst. vm_compute. reflexivity.
    + by eapply (is_max_of_feq (EF s') (EF s) (n :: ns)).
  - by apply (total_not_neg_zero G task_map order' s' total').
  - by apply (total_not_neg_zero G task_map order s total).
Qed.

(** The backward pass gives the same floats. *)
Lemma backward_unique (v : nat) :
  v ∈ nodes G → LS s' v = LS s v ∧ LF s' v = LF s v.
Proof.
  revert v. apply (topo_induction_rev G order); [done..|]. intros v Hv IH.
  assert (LF s' v = LF s v) as Hlf.
  { rewrite (se_lf _ _ _ _ _ Heqs v Hv), (se_lf _ _ _ _ _ Heqs' v Hv).
    destruct (successors G v) as [|p ps] eqn:Hp; [apply total_unique|].
    assert (∀ u, u ∈ p :: ps → LS s' u = LS s u) as Hsame.
    { intros u Hu. apply IH. apply (wf_adj G Hwf). by rewrite Hp. }
    rewrite (Hsame p ltac:(left)). f_equal.
    apply list_fmap_ext. intros i u Hu. apply Hsame. right.
    apply list_elem_of_lookup. eauto. }
  split; [|done].
  by rewrite (se_ls _ _ _ _ _ Heqs v Hv), (se_ls _ _ _ _ _ Heqs' v Hv), Hlf.
Qed.
End order_independence.

(** ** Reading the schedule off the task list *)

(** The value of a numeric attribute of task [i]. *)
Definition field (f : Task → option float) (tasks : list Task) (i : nat) : float :=
  default 0%float (tasks !! i ≫= f).

(** [m] is the greatest (least) of the values [f u] for [u] with [P u]. *)
Definition max_over (P : nat → Prop) (f : nat → float) (m : float) : Prop :=
  (∃ u, P u ∧ m = f u) ∧ ∀ u, P u → fle (f u) m.

Definition min_over (P : nat → Prop) (f : nat → float) (m : float) : Prop :=
  (∃ u, P u ∧ m = f u) ∧ ∀ u, P u → fle m (f u).

Lemma is_max_of_over (P : nat → Prop) (f g : nat → float) (l : list nat) (m : float) :
  (∀ u, u ∈ l ↔ P u) → (∀ u, P u → g u = f u) →
  is_max_of m (f <$> l) → max_over P g m.
Proof.
  intros HP Hfg [Hin Hub]. split.
  - apply list_elem_of_fmap in Hin as (u & -> & Hu). exists u.
    split; [by apply HP|]. symmetry. by apply Hfg, HP.
  - intros u Hu. rewrite Hfg by done. apply Hub, list_elem_of_fmap.
    exists u. split; [done|]. by apply HP.
Qed.

Lemma is_min_of_over (P : nat → Prop) (f g : nat → float) (l : list nat) (m : float) :
  (∀ u, u ∈ l ↔ P u) → (∀ u, P u → g u = f u) →
  is_min_of m (f <$> l) → min_over P g m.
Proof.
  intros HP Hfg [Hin Hlb]. split.
  - apply list_elem_of_fmap in Hin as (u & -> & Hu). exists u.
    split; [by apply HP|]. symmetry. by apply Hfg, HP.
  - intros u Hu. rewrite Hfg by done. apply Hlb, list_elem_of_fmap.
    exists u. split; [done|]. by apply HP.
Qed.

Lemma dep_edge_lt (tasks : list Task) (u i : nat) :
  dep_edge tasks u i → u < length tasks ∧ i < length tasks.
Proof.
  intros (t & Ht & deps & _ & _ & Hu). split; [done|]. by eapply lookup_lt_Some.
Qed.

Section task_graph.
Context (tasks : list Task).

Definition task_graph : DiGraph := build_graph (pert <$> tasks).

Lemma task_graph_wf : wf_graph task_graph.
Proof. apply build_graph_wf. Qed.

Lemma task_graph_nodes (i : nat) : i ∈ nodes task_graph ↔ i < length tasks.
Proof.
  unfold task_graph. rewrite build_graph_nodes, length_fmap, elem_of_seq. lia.
Qed.

Lemma task_graph_pred (u i : nat) : u ∈ predecessors task_graph i ↔ dep_edge tasks u i.
Proof.
  unfold task_graph. rewrite <-dep_edge_pert, <-build_graph_edge. done.
Qed.

Lemma task_graph_succ (u i : nat) : i ∈ successors task_graph u ↔ dep_edge tasks u i.
Proof. rewrite (wf_adj _ task_graph_wf). apply task_graph_pred. Qed.

Lemma task_graph_order :
  ¬ cyclic_deps tasks → ∃ order, topological_order task_graph order.
Proof.
  intros Hacyc.
  destruct (topological_sort_spec task_graph task_graph_wf)
    as [(order & _ & Horder)|(_ & vis & Hstuck)]; [eauto|].
  destruct Hacyc. apply cyclic_build_graph. by eapply stuck_cyclic, Hstuck; apply task_graph_wf.
Qed.

Lemma task_graph_durations (v : nat) :
  v ∈ nodes task_graph → is_Some (duration_of (pert <$> tasks) v).
Proof.
  intros Hv%task_graph_nodes.
  destruct (lookup_lt_is_Some_2 tasks v Hv) as [t Ht].
  rewrite (duration_of_pert tasks v t Ht). eauto.
Qed.
End task_graph.

(** The test of step 3 decides whether the dependency relation has a cycle. *)
Lemma acyclic_check (tasks : list Task) :
  is_directed_acyclic_graph (task_graph tasks) = Ok true → ¬ cyclic_deps tasks.
Proof.
  intros Hdag Hcyc.
  destruct (is_directed_acyclic_graph_spec (task_graph tasks) (task_graph_wf tasks))
    as [[_ Hacyc]|[Hfalse _]]; [|congruence].
  apply Hacyc. by apply cyclic_build_graph.
Qed.

Lemma cyclic_check (tasks : list Task) :
  is_directed_acyclic_graph (task_graph tasks) = Ok false → cyclic_deps tasks.
Proof.
  intros Hdag.
  destruct (is_directed_acyclic_graph_spec (task_graph tasks) (task_graph_wf tasks))
    as [[Htrue _]|[_ Hcyc]]; [congruence|].
  by apply cyclic_build_graph.
Qed.

(** The run returns, or step 8 raises because a date does not exist. *)
Definition returns_or_date_error (r : result (list nat * float)) : Prop :=
  (∃ critical_path total, r = Ok (critical_path, total)) ∨
  (∃ e, r = Raise e ∧ date_error e).

(** What a returned task list holds for task [i], given the schedule. *)
Definition holds_schedule (s : schedule) (task_map tasks' : list Task) (i : nat) : Prop :=
  tasks' !! i ≫= earliest_start = Some (ES s i) ∧
  tasks' !! i ≫= earliest_finish = Some (EF s i) ∧
  tasks' !! i ≫= latest_start = Some (LS s i) ∧
  tasks' !! i ≫= latest_finish = Some (LF s i) ∧
  tasks' !! i ≫= slack = Some (SL s i) ∧
  tasks' !! i ≫= expected_duration = Some (dur task_map i) ∧
  is_on_critical_path <$> tasks' !! i
  = Some (if decide (i ∈ critical_path_nodes s) then 1 else 0)%Z.

Lemma holds_schedule_field (s : schedule) (task_map tasks' : list Task) (i : nat) :
  holds_schedule s task_map tasks' i →
  field earliest_start tasks' i = ES s i ∧
  field earliest_finish tasks' i = EF s i ∧
  field latest_start tasks' i = LS s i ∧
  field latest_finish tasks' i = LF s i ∧
  field slack tasks' i = SL s i ∧
  field expected_duration tasks' i = dur task_map i.
Proof. intros (H1 & H2 & H3 & H4 & H5 & H6 & _). unfold field. by rewrite H1, H2, H3, H4, H5, H6. Qed.

(** A run on an acyclic list, described by the schedule of step 7: the
    run returns the total duration of the schedule with every task
    holding its entries, all earliest starts and finishes being finite;
    or step 8 raises a date error. *)
Lemma compute_schedule_run (tasks : list Task) (start_date : option datetime)
    (now : datetime) :
  tasks ≠ [] → ¬ cyclic_deps tasks →
  ∃ order s total critical_path,
    topological_order (task_graph tasks) order ∧
    schedule_eqs (task_graph tasks) (pert <$> tasks) order s total ∧
    ∀ tasks' r, compute_schedule tasks start_date now = (tasks', r) →
      length tasks' = length tasks ∧
      ((r = Ok (critical_path, total) ∧
        (∀ v, v ∈ nodes (task_graph tasks) →
              finite (ES s v) = true ∧ finite (EF s v) = true) ∧
        (∀ i, i < length tasks → holds_schedule s (pert <$> tasks) tasks' i)) ∨
       (∃ e, r = Raise e ∧ date_error e)).
Proof.
  intros Hne Hacyc.
  destruct (compute_schedule_acyclic tasks start_date now Hne Hacyc)
    as (order & s & total & cp & Horder & Heqs & _ & Hrun).
  exists order, s, total, cp. split_and!; [done..|].
  intros tasks' r Hout. rewrite Hrun in Hout.
  destruct (update_tasks s (default now start_date) 0 (pert <$> tasks))
    as [tasks2 r2] eqn:Hup.
  destruct (update_tasks_outcome s (default now start_date) (pert <$> tasks) 0)
    with (tasks' := tasks2) (r := r2) as [Hlen Hcases]; [|done|].
  { intros i Hi. rewrite length_fmap in Hi.
    apply (se_dom _ _ _ _ _ Heqs). apply task_graph_nodes. lia. }
  rewrite length_fmap in Hlen.
  destruct Hcases as [[-> Hok]|(e & -> & He)].
  - simplify_eq. split; [done|]. left. split; [done|].
    assert (∀ i, i < length tasks →
              (finite (ES s i) = true ∧ finite (EF s i) = true) ∧
              holds_schedule s (pert <$> tasks) tasks' i) as Hall.
    { intros i Hi. destruct (lookup_lt_is_Some_2 tasks i Hi) as [t Ht].
      destruct (Hok i (pert t)) as (sd & ed & _ & _ & Hf1 & Hf2 & Ht').
      { by rewrite list_lookup_fmap, Ht. }
      simpl in *. split; [done|]. unfold holds_schedule. rewrite Ht'. simpl.
      unfold dur. rewrite (duration_of_pert tasks i t Ht). done. }
    split.
    + intros v Hv%task_graph_nodes. by apply Hall.
    + intros i Hi. by apply Hall.
  - simplify_eq. split; [done|]. right. eauto.
Qed.

(** Example task lists. *)
Definition example_task (o m p : float) (deps : list Z) : Task :=
  mkTask 0 "task" o m p None None None None None None None None (Some deps) 0 0.

(** Start [1,1,1]; a long branch [5,10,15] and a short branch [1,2,3]
    after it; an end task [1,1,1] after both. *)
Definition diamond : list Task :=
  [ example_task 1 1 1 [];
    example_task 5 10 15 [0%Z];
    example_task 1 2 3 [0%Z];
    example_task 1 1 1 [1%Z; 2%Z] ].

Lemma diamond_acyclic : ¬ cyclic_deps diamond.
Proof. apply acyclic_check. vm_compute. reflexivity. Qed.

(** 2025-01-01T00:00:00 *)
Definition new_year_2025 : datetime := (739251 * us_per_day)%Z.

(** * The claims *)

(** C4: for every acyclic task list, the forward pass of [compute_schedule]
    gives [earliest_start = 0] to a task without predecessors and otherwise
    the maximum [earliest_finish] over its predecessors,
    [earliest_finish = earliest_start + expected_duration] (the float sum),
    and the total duration is the maximum [earliest_finish] over all tasks
    (0 for the empty list).  The run returns these values unless step 8
    raises because a calendar date does not exist. *)
Theorem forward_pass_correct (tasks : list Task) (start_date : option datetime)
    (now : datetime) (tasks' : list Task) (r : result (list nat * float)) :
  ¬ cyclic_deps tasks →
  compute_schedule tasks start_date now = (tasks', r) →
  returns_or_date_error r ∧
  ∀ critical_path total, r = Ok (critical_path, total) →
    (∀ i, i < length tasks →
      tasks' !! i ≫= earliest_start = Some (field earliest_start tasks' i) ∧
      tasks' !! i ≫= earliest_finish = Some (field earliest_finish tasks' i) ∧
      tasks' !! i ≫= expected_duration = Some (field expected_duration tasks' i) ∧
      ((∀ u, ¬ dep_edge tasks u i) → field earliest_start tasks' i = 0%float) ∧
      ((∃ u, dep_edge tasks u i) →
        max_over (λ u, dep_edge tasks u i) (field earliest_finish tasks')
                 (field earliest_start tasks' i)) ∧
      field earliest_finish tasks' i
      = (field earliest_start tasks' i + field expected_duration tasks' i)%float) ∧
    (tasks = [] → total = 0%float) ∧
    (tasks ≠ [] → max_over (λ i, i < length tasks) (field earliest_finish tasks') total).
Proof.
  intros Hacyc Hrun. destruct (decide (tasks = [])) as [->|Hne].
  { simpl in Hrun. simplify_eq. split; [left; eauto|].
    intros cp total [= <- <-]. split_and!; [simpl; lia|done|done]. }
  destruct (compute_schedule_run tasks start_date now Hne Hacyc)
    as (order & s & total & cp & Horder & Heqs & Hout).
  destruct (Hout tasks' r Hrun) as [Hlen [(-> & Hfin & Hhold)|Herr]];
    [|split; [by right|]; intros cp' total' ->; by destruct Herr as (e & [=] & _)].
  split; [left; eauto|]. intros cp' total' [= <- <-].
  pose proof (task_graph_wf tasks) as Hwf.
  assert (∀ u, u < length tasks → field earliest_finish tasks' u = EF s u) as HEF.
  { intros u Hu. by destruct (holds_schedule_field _ _ _ _ (Hhold u Hu)) as (_ & ? & _). }
  split_and!.
  - intros i Hi. pose proof (Hhold i Hi) as Hi'.
    destruct (holds_schedule_field _ _ _ _ Hi') as (HES & HEFi & _ & _ & _ & HD).
    destruct Hi' as (H1 & H2 & _ & _ & _ & H6 & _).
    pose proof (proj2 (task_graph_nodes tasks i) Hi) as Hnode.
    pose proof (es_max _ _ _ _ _ Hwf Heqs Hfin i Hnode) as Hes.
    rewrite HES, HEFi, HD. split_and!; [done|done|done| | |].
    + intros Hnone.
      destruct (predecessors (task_graph tasks) i) as [|p ps] eqn:Hp; [done|].
      destruct (Hnone p). apply task_graph_pred. rewrite Hp. left.
    + intros [u Hu].
      destruct (predecessors (task_graph tasks) i) as [|p ps] eqn:Hp.
      * apply task_graph_pred in Hu. rewrite Hp in Hu. by apply elem_of_nil in Hu.
      * apply (is_max_of_over _ (EF s) _ (p :: ps)); [| |done].
        -- intros w. rewrite <-Hp. apply task_graph_pred.
        -- intros w Hw. apply HEF. by apply dep_edge_lt in Hw as [? _].
    + apply (se_ef _ _ _ _ _ Heqs i Hnode).
  - done.
  - intros _. pose proof (total_max _ _ _ _ _ Horder Heqs Hfin) as Htot.
    destruct (nodes (task_graph tasks)) as [|n ns] eqn:Hn.
    + destruct tasks as [|t ts]; [done|].
      assert (0 ∈ nodes (task_graph (t :: ts))) as H0
        by (apply task_graph_nodes; simpl; lia).
      rewrite Hn in H0. by apply elem_of_nil in H0.
    + apply (is_max_of_over _ (EF s) _ (n :: ns)); [| |done].
      * intros w. rewrite <-Hn. apply task_graph_nodes.
      * intros w Hw. by apply HEF.
Qed.

Lemma forward_pass_correct_witness :
  ¬ cyclic_deps diamond ∧
  compute_schedule diamond (Some new_year_2025) new_year_2025
  = ((compute_schedule diamond (Some new_year_2025) new_year_2025).1,
     (compute_schedule diamond (Some new_year_2025) new_year_2025).2) ∧
  (compute_schedule diamond (Some new_year_2025) new_year_2025).2
  = Ok ([0; 1; 3], 12%float) ∧
  max_over (λ u, dep_edge diamond u 3)
    (field earliest_finish (compute_schedule diamond (Some new_year_2025) new_year_2025).1)
    (field earliest_start (compute_schedule diamond (Some new_year_2025) new_year_2025).1 3).
Proof.
  assert (compute_schedule diamond (Some new_year_2025) new_year_2025
          = ((compute_schedule diamond (Some new_year_2025) new_year_2025).1,
             (compute_schedule diamond (Some new_year_2025) new_year_2025).2)) as Hrun
    by (vm_compute; reflexivity).
  assert ((compute_schedule diamond (Some new_year_2025) new_year_2025).2
          = Ok ([0; 1; 3], 12%float)) as Hok by (vm_compute; reflexivity).
  split; [exact diamond_acyclic|]. split; [exact Hrun|]. split; [exact Hok|].
  destruct (forward_pass_correct diamond (Some new_year_2025) new_year_2025 _ _
              diamond_acyclic Hrun) as [_ Hall].
  destruct (Hall _ _ Hok) as (Hi & _).
  destruct (Hi 3) as (_ & _ & _ & _ & Hmax & _); [simpl; lia|].
  apply Hmax. exists 1. apply task_graph_pred. vm_compute. left.
Defined.

(** C5: for every acyclic task list, the backward pass of
    [compute_schedule] gives [latest_finish = total_duration] to a task
    without successors and otherwise the minimum [latest_start] over its
    successors, and [latest_start = latest_finish - expected_duration] (the
    float difference); running the passes with any other topological order
    of the graph gives the same total duration and the same earliest and
    latest values, float for float.  The run returns these values unless
    step 8 raises because a calendar date does not exist. *)
Theorem backward_pass_correct (tasks : list Task) (start_date : option datetime)
    (now : datetime) (tasks' : list Task) (r : result (list nat * float)) :
  ¬ cyclic_deps tasks →
  compute_schedule tasks start_date now = (tasks', r) →
  returns_or_date_error r ∧
  ∀ critical_path total, r = Ok (critical_path, total) →
    (∀ i, i < length tasks →
      tasks' !! i ≫= latest_start = Some (field latest_start tasks' i) ∧
      tasks' !! i ≫= latest_finish = Some (field latest_finish tasks' i) ∧
      tasks' !! i ≫= expected_duration = Some (field expected_duration tasks' i) ∧
      ((∀ v, ¬ dep_edge tasks i v) → field latest_finish tasks' i = total) ∧
      ((∃ v, dep_edge tasks i v) →
        min_over (λ v, dep_edge tasks i v) (field latest_start tasks')
                 (field latest_finish tasks' i)) ∧
      field latest_start tasks' i
      = (field latest_finish tasks' i - field expected_duration tasks' i)%float) ∧
    (∀ order, topological_order (task_graph tasks) order →
      ∃ s,
        passes (task_graph tasks) (pert <$> tasks) order = Ok (s, total) ∧
        ∀ i, i < length tasks →
          ES s i = field earliest_start tasks' i ∧
          EF s i = field earliest_finish tasks' i ∧
          LS s i = field latest_start tasks' i ∧
          LF s i = field latest_finish tasks' i).
Proof.
  intros Hacyc Hrun. destruct (decide (tasks = [])) as [->|Hne].
  { simpl in Hrun. simplify_eq. split; [left; eauto|].
    intros cp total [= <- <-]. split; [simpl; lia|].
    intros order Horder.
    destruct (passes_spec (task_graph []) (pert <$> []) order)
      as (s & total' & Hp & Heqs);
      [apply task_graph_wf|done|apply task_graph_durations|].
    exists s. split; [|simpl; lia].
    pose proof (se_total _ _ _ _ _ Heqs) as Htot.
    destruct order as [|o os]; [by rewrite Hp, Htot|].
    exfalso. assert (o ∈ nodes (task_graph [])) as Ho by (apply Horder; left).
    apply task_graph_nodes in Ho. simpl in Ho. lia. }
  destruct (compute_schedule_run tasks start_date now Hne Hacyc)
    as (order & s & total & cp & Horder & Heqs & Hout).
  destruct (Hout tasks' r Hrun) as [Hlen [(-> & Hfin & Hhold)|Herr]];
    [|split; [by right|]; intros cp' total' ->; by destruct Herr as (e & [=] & _)].
  split; [left; eauto|]. intros cp' total' [= <- <-].
  pose proof (task_graph_wf tasks) as Hwf.
  assert (∀ u, u < length tasks → field latest_start tasks' u = LS s u) as HLS.
  { intros u Hu. by destruct (holds_schedule_field _ _ _ _ (Hhold u Hu)) as (_ & _ & ? & _). }
  split.
  - intros i Hi. pose proof (Hhold i Hi) as Hi'.
    destruct (holds_schedule_field _ _ _ _ Hi') as (_ & _ & HLSi & HLF & _ & HD).
    destruct Hi' as (_ & _ & H3 & H4 & _ & H6 & _).
    pose proof (proj2 (task_graph_nodes tasks i) Hi) as Hnode.
    pose proof (lf_min _ _ _ _ _ Hwf Horder Heqs Hfin i Hnode) as Hlf.
    rewrite HLSi, HLF, HD. split_and!; [done|done|done| | |].
    + intros Hnone.
      destruct (successors (task_graph tasks) i) as [|p ps] eqn:Hp; [done|].
      destruct (Hnone p). apply task_graph_succ. rewrite Hp. left.
    + intros [v Hv].
      destruct (successors (task_graph tasks) i) as [|p ps] eqn:Hp.
      * apply task_graph_succ in Hv. rewrite Hp in Hv. by apply elem_of_nil in Hv.
      * apply (is_min_of_over _ (LS s) _ (p :: ps)); [| |done].
        -- intros w. rewrite <-Hp. apply task_graph_succ.
        -- intros w Hw. apply HLS. by apply dep_edge_lt in Hw as [_ ?].
    + apply (se_ls _ _ _ _ _ Heqs i Hnode).
  - intros order' Horder'.
    destruct (passes_spec (task_graph tasks) (pert <$> tasks) order')
      as (s' & total' & Hp & Heqs');
      [apply task_graph_wf|done|apply task_graph_durations|].
    assert (total' = total) as ->
      by (by apply (total_unique _ _ order s total order' s' total' Horder Horder'
                      Heqs Heqs')).
    exists s'. split; [done|].
    intros i Hi. pose proof (proj2 (task_graph_nodes tasks i) Hi) as Hnode.
    destruct (holds_schedule_field _ _ _ _ (Hhold i Hi)) as (-> & -> & -> & -> & _).
    destruct (forward_unique _ _ order s total order' s' total Horder Heqs Heqs' i Hnode)
      as [-> ->].
    destruct (backward_unique _ _ order s total order' s' total Hwf Horder Horder'
                Heqs Heqs' Hfin i Hnode) as [-> ->].
    done.
Qed.

Lemma backward_pass_correct_witness :
  ¬ cyclic_deps diamond ∧
  compute_schedule diamond (Some new_year_2025) new_year_2025
  = ((compute_schedule diamond (Some new_year_2025) new_year_2025).1,
     (compute_schedule diamond (Some new_year_2025) new_year_2025).2) ∧
  (compute_schedule diamond (Some new_year_2025) new_year_2025).2
  = Ok ([0; 1; 3], 12%float) ∧
  min_over (λ v, dep_edge diamond 0 v)
    (field latest_start (compute_schedule diamond (Some new_year_2025) new_year_2025).1)
    (field latest_finish (compute_schedule diamond (Some new_year_2025) new_year_2025).1 0).
Proof.
  assert (compute_schedule diamond (Some new_year_2025) new_year_2025
          = ((compute_schedule diamond (Some new_year_2025) new_year_2025).1,
             (compute_schedule diamond (Some new_year_2025) new_year_2025).2)) as Hrun
    by (vm_compute; reflexivity).
  assert ((compute_schedule diamond (Some new_year_2025) new_year_2025).2
          = Ok ([0; 1; 3], 12%float)) as Hok by (vm_compute; reflexivity).
  split; [exact diamond_acyclic|]. split; [exact Hrun|]. split; [exact Hok|].
  destruct (backward_pass_correct diamond (Some new_year_2025) new_year_2025 _ _
              diamond_acyclic Hrun) as [_ Hall].
  destruct (Hall _ _ Hok) as (Hi & _).
  destruct (Hi 0) as (_ & _ & _ & _ & Hmin & _); [simpl; lia|].
  apply Hmin. exists 1. apply task_graph_succ. vm_compute. left.
Defined.












(** ** What a run reads and what it leaves alone *)

(** The attributes of a task that [compute_schedule] reads after step 1. *)
Definition same_inputs (a b : Task) : Prop :=
  optimistic_duration a = optimistic_duration b ∧
  most_likely_duration a = most_likely_duration b ∧
  pessimistic_duration a = pessimistic_duration b ∧
  dependencies a = dependencies b ∧
  expected_duration a = expected_duration b.

Lemma same_inputs_refl (a : Task) : same_inputs a a.
Proof. by repeat split. Qed.

Lemma update_task_same_inputs (s : schedule) (sd : datetime) (i : nat) (t : Task) :
  same_inputs t (update_task s sd i t).1.
Proof.
  unfold update_task.
  destruct (sched_earliest_start s !! i); [|apply same_inputs_refl].
  destruct (sched_earliest_finish s !! i); [|by repeat split].
  destruct (sched_latest_start s !! i); [|by repeat split].
  destruct (sched_latest_finish s !! i); [|by repeat split].
  destruct (sched_slack s !! i); [|by repeat split].
  destruct (add_days sd _) as [d1| |]; [|by repeat split..].
  destruct (add_days sd _) as [d2| |]; by repeat split.
Qed.

Lemma update_tasks_same_inputs (s : schedule) (sd : datetime) (tasks : list Task) (k : nat) :
  Forall2 same_inputs tasks (update_tasks s sd k tasks).1.
Proof.
  revert k. induction tasks as [|t tasks IH]; intros k; [constructor|].
  cbn [update_tasks]. pose proof (update_task_same_inputs s sd k t) as Ht.
  destruct (update_task s sd k t) as [t' [[]| |]]; simpl in *.
  - constructor; [done|apply IH].
  - constructor; [done|]. apply Forall2_same_length_lookup_2; [done|].
    intros j x y Hx Hy. simplify_eq. apply same_inputs_refl.
  - constructor; [done|]. apply Forall2_same_length_lookup_2; [done|].
    intros j x y Hx Hy. simplify_eq. apply same_inputs_refl.
Qed.

Lemma update_task_idem (s : schedule) (sd : datetime) (i : nat) (t : Task) :
  update_task s sd i (update_task s sd i t).1 = update_task s sd i t.
Proof.
  destruct t. unfold update_task.
  destruct (sched_earliest_start s !! i) as [a|]; [|reflexivity].
  destruct (sched_earliest_finish s !! i) as [b|]; [|vm_compute; reflexivity].
  destruct (sched_latest_start s !! i) as [c|]; [|vm_compute; reflexivity].
  destruct (sched_latest_finish s !! i) as [d|]; [|vm_compute; reflexivity].
  destruct (sched_slack s !! i) as [e|]; [|vm_compute; reflexivity].
  generalize (if decide (i ∈ critical_path_nodes s) then 1%Z else 0%Z). intros zc.
  destruct (add_days sd a) as [d1|e1|]; [|vm_compute; reflexivity..].
  destruct (add_days sd b) as [d2|e2|]; vm_compute; reflexivity.
Qed.

Lemma update_tasks_idem (s : schedule) (sd : datetime) (tasks : list Task) (k : nat) :
  update_tasks s sd k (update_tasks s sd k tasks).1 = update_tasks s sd k tasks.
Proof.
  revert k. induction tasks as [|t tasks IH]; intros k; [done|].
  cbn [update_tasks]. pose proof (update_task_idem s sd k t) as Ht.
  destruct (update_task s sd k t) as [t' [[]| |]] eqn:Hup; simpl in *.
  - cbn [update_tasks]. rewrite Ht. simpl. by rewrite IH.
  - cbn [update_tasks]. by rewrite Ht.
  - cbn [update_tasks]. by rewrite Ht.
Qed.

(** The state after a run agrees with the tasks after step 1 on everything
    a run reads, whatever the outcome. *)
Lemma compute_schedule_same_inputs (tasks : list Task) (start_date : option datetime)
    (now : datetime) :
  Forall2 same_inputs (pert <$> tasks) (compute_schedule tasks start_date now).1.
Proof.
  destruct (decide (tasks = [])) as [->|Hne]; [constructor|].
  rewrite compute_schedule_nonempty by done. cbv zeta.
  assert (Forall2 same_inputs (pert <$> tasks) (pert <$> tasks)) as Hrefl.
  { apply Forall2_same_length_lookup_2; [done|]. intros j x y Hx Hy.
    simplify_eq. apply same_inputs_refl. }
  destruct (compute_dicts _ _) as [[s total]| |]; [|done..].
  pose proof (update_tasks_same_inputs s (default now start_date) (pert <$> tasks) 0) as Hup.
  destruct (update_tasks _ _ _ _) as [tasks2 [[]| |]]; simpl in Hup; [|done..].
  by destruct (dag_longest_path _).
Qed.

Lemma same_inputs_pert_fixed (a b : Task) :
  same_inputs (pert a) b → pert b = b.
Proof.
  intros (Ho & Hm & Hp & _ & He). unfold pert, pert_value in *. simpl in *.
  destruct b; simpl in *. unfold set_expected_duration. simpl.
  rewrite <-He, Ho, Hm, Hp. done.
Qed.

Lemma build_graph_ext (tasks tasks' : list Task) :
  Forall2 same_inputs tasks tasks' → build_graph tasks = build_graph tasks'.
Proof.
  intros Hsame. unfold build_graph.
  rewrite <-(Forall2_length _ _ _ Hsame).
  assert (∀ (F : DiGraph → nat * Task → DiGraph),
            (∀ G i a b, same_inputs a b → F G (i, a) = F G (i, b)) →
            ∀ G, foldl F G (enumerate tasks) = foldl F G (enumerate tasks')) as Hfold.
  { intros F HF. unfold enumerate. rewrite <-(Forall2_length _ _ _ Hsame).
    generalize 0. induction Hsame as [|a b l l' Hab Hl IH]; intros k G; [done|].
    simpl. rewrite (HF G k a b Hab). apply IH. }
  rewrite (Hfold (λ G it, add_node it.1 (expected_duration it.2) G)).
  - apply Hfold. intros G i a b (_ & _ & _ & Hd & _).
    unfold add_dependencies. simpl. by rewrite Hd.
  - intros G i a b (_ & _ & _ & _ & He). simpl. by rewrite He.
Qed.

Lemma foldM_ext {A B : Type} (f g : A → B → result A) (a : A) (l : list B) :
  (∀ a b, f a b = g a b) → foldM f a l = foldM g a l.
Proof.
  intros Hfg. revert a. induction l as [|b l IH]; intros a; [done|].
  simpl. rewrite Hfg. destruct (g a b); simpl; [apply IH|done..].
Qed.

(** The passes read the tasks through their expected durations only. *)
Definition same_duration (a b : Task) : Prop :=
  expected_duration a = expected_duration b.

Lemma same_inputs_duration (tasks tasks' : list Task) :
  Forall2 same_inputs tasks tasks' → Forall2 same_duration tasks tasks'.
Proof.
  intros H. eapply Forall2_impl; [exact H|]. by intros a b (_ & _ & _ & _ & ?).
Qed.

Lemma task_lookup_ext (tasks tasks' : list Task) (v : nat) :
  Forall2 same_duration tasks tasks' →
  (task_lookup tasks v ≫= λ t, Ok (expected_duration t))
  = (task_lookup tasks' v ≫= λ t, Ok (expected_duration t)).
Proof.
  intros Hsame. unfold task_lookup.
  destruct (tasks !! v) as [a|] eqn:Ha.
  - destruct (Forall2_lookup_l _ _ _ _ _ Hsame Ha) as (b & -> & He).
    unfold same_duration in He. simpl. by rewrite He.
  - assert (tasks' !! v = None) as ->; [|done].
    apply lookup_ge_None. apply lookup_ge_None in Ha.
    by rewrite <-(Forall2_length _ _ _ Hsame).
Qed.

Lemma passes_ext (G : DiGraph) (tasks tasks' : list Task) (order : list nat) :
  Forall2 same_duration tasks tasks' → passes G tasks order = passes G tasks' order.
Proof.
  intros Hsame.
  assert (∀ st v, forward_step G tasks st v = forward_step G tasks' st v) as Hfw.
  { intros st v. unfold forward_step.
    pose proof (task_lookup_ext tasks tasks' v Hsame) as Hl.
    destruct (task_lookup tasks v) as [a| |], (task_lookup tasks' v) as [b| |];
      simpl in Hl; try discriminate; try (injection Hl as Hl); simpl;
      try rewrite Hl; done. }
  assert (∀ total st v, backward_step G tasks total st v
                        = backward_step G tasks' total st v) as Hbw.
  { intros total st v. unfold backward_step.
    pose proof (task_lookup_ext tasks tasks' v Hsame) as Hl.
    destruct (task_lookup tasks v) as [a| |], (task_lookup tasks' v) as [b| |];
      simpl in Hl; try discriminate; try (injection Hl as Hl); simpl;
      try rewrite Hl; done. }
  unfold passes, forward_pass, backward_pass.
  rewrite (foldM_ext _ _ _ _ Hfw).
  destruct (foldM (forward_step G tasks') _ order) as [fw| |]; [|done..]. simpl.
  by rewrite (foldM_ext _ _ _ _ (Hbw (total_duration_of fw.2))).
Qed.

Lemma compute_dicts_ext (G : DiGraph) (tasks tasks' : list Task) :
  Forall2 same_duration tasks tasks' → compute_dicts G tasks = compute_dicts G tasks'.
Proof.
  intros Hsame. unfold compute_dicts.
  destruct (is_directed_acyclic_graph G) as [[]| |]; simpl; [|done..].
  destruct (topological_sort G) as [order| |]; simpl; [|done..].
  by apply passes_ext.
Qed.

Lemma pert_fixed_list (tasks X : list Task) :
  Forall2 same_inputs (pert <$> tasks) X → pert <$> X = X.
Proof.
  revert X. induction tasks as [|t tasks IH]; intros X H; simpl in H.
  - by inversion H.
  - inversion H as [|a x l X' Hax Hl]; subst. simpl. f_equal.
    + by eapply same_inputs_pert_fixed.
    + by apply IH.
Qed.

(** Running again on the state a run has left. *)
Lemma compute_schedule_rerun (tasks X : list Task) (start_date : option datetime)
    (now : datetime) :
  tasks ≠ [] → Forall2 same_inputs (pert <$> tasks) X →
  compute_schedule X start_date now =
    match compute_dicts (task_graph tasks) (pert <$> tasks) with
    | Raise e => (X, Raise e)
    | Diverge => (X, Diverge)
    | Ok (s, total_duration) =>
        match update_tasks s (default now start_date) 0 X with
        | (tasks2, Raise e) => (tasks2, Raise e)
        | (tasks2, Diverge) => (tasks2, Diverge)
        | (tasks2, Ok _) =>
            match dag_longest_path (task_graph tasks) with
            | Ok critical_path => (tasks2, Ok (critical_path, total_duration))
            | Raise _ => (tasks2, Ok (critical_path_nodes s, total_duration))
            | Diverge => (tasks2, Diverge)
            end
        end
    end.
Proof.
  intros Hne Hsame.
  assert (X ≠ []) as HX.
  { intros ->. apply Forall2_length in Hsame. rewrite length_fmap in Hsame.
    destruct tasks; [done|simpl in Hsame; lia]. }
  rewrite compute_schedule_nonempty by done. cbv zeta.
  rewrite (pert_fixed_list tasks X Hsame).
  unfold task_graph.
  rewrite <-(build_graph_ext (pert <$> tasks) X Hsame).
  by rewrite <-(compute_dicts_ext _ (pert <$> tasks) X (same_inputs_duration _ _ Hsame)).
Qed.

(** C7: for every task, [compute_schedule] sets [expected_duration] to
    (optimistic + 4 * most_likely + pessimistic) / 6 in float arithmetic,
    which is exactly 5.0 for the estimates 2, 5 and 8; the value is
    computed from the three estimates in every run, whatever the record
    held before and whatever the outcome of the run. *)
Theorem expected_duration_pert (tasks : list Task) (start_date : option datetime)
    (now : datetime) (i : nat) (t : Task) :
  tasks !! i = Some t →
  ∃ t' e,
    (compute_schedule tasks start_date now).1 !! i = Some t' ∧
    expected_duration t' = Some e ∧
    e = ((optimistic_duration t + 4 * most_likely_duration t
          + pessimistic_duration t) / 6)%float ∧
    (optimistic_duration t = 2%float → most_likely_duration t = 5%float →
     pessimistic_duration t = 8%float → e = 5%float) ∧
    ∀ x, ∃ t'',
      (compute_schedule (<[i := set_expected_duration x t]> tasks)
                        start_date now).1 !! i = Some t'' ∧
      expected_duration t'' = Some e.
Proof.
  intros Ht.
  assert (∀ l u, l !! i = Some u →
            ∃ u', (compute_schedule l start_date now).1 !! i = Some u' ∧
                  expected_duration u' = Some (pert_value u)) as Hgen.
  { intros l u Hu.
    pose proof (compute_schedule_same_inputs l start_date now) as Hsame.
    destruct (Forall2_lookup_l _ _ _ i (pert u) Hsame) as (u' & Hu' & Hin).
    { by rewrite list_lookup_fmap, Hu. }
    exists u'. split; [done|]. destruct Hin as (_ & _ & _ & _ & <-). done. }
  destruct (Hgen tasks t Ht) as (t' & Ht' & He).
  exists t', (pert_value t). split_and!; [done|done|done| |].
  - intros Ho Hm Hp. unfold pert_value. rewrite Ho, Hm, Hp. vm_compute. reflexivity.
  - intros x. destruct (Hgen (<[i := set_expected_duration x t]> tasks)
                         (set_expected_duration x t)) as (t'' & Ht'' & He'').
    { apply list_lookup_insert_eq. by eapply lookup_lt_Some. }
    exists t''. split; [done|]. by rewrite He''.
Qed.

Definition pert_example : list Task := [ example_task 2 5 8 [] ].

Lemma expected_duration_pert_witness :
  pert_example !! 0 = Some (example_task 2 5 8 []) ∧
  ∃ t' e, (compute_schedule pert_example None new_year_2025).1 !! 0 = Some t' ∧
          expected_duration t' = Some e ∧ e = 5%float.
Proof.
  split; [reflexivity|].
  destruct (expected_duration_pert pert_example None new_year_2025 0
              (example_task 2 5 8 []) eq_refl)
    as (t' & e & Ht' & He & _ & H5 & _).
  exists t', e. split_and!; [done|done|]. by apply H5.
Defined.

(** C9: running [compute_schedule] again on the task sequence a first run
    has left, with the same start date, gives the same derived attributes,
    the same critical path and the same total duration (and, for a cyclic
    list, the same exception). *)
Theorem compute_schedule_idempotent (tasks : list Task) (start_date now now' : datetime) :
  compute_schedule (compute_schedule tasks (Some start_date) now).1
                   (Some start_date) now'
  = compute_schedule tasks (Some start_date) now.
Proof.
  destruct (decide (tasks = [])) as [->|Hne]; [done|].
  rewrite (compute_schedule_rerun tasks _ (Some start_date) now' Hne
             (compute_schedule_same_inputs tasks (Some start_date) now)).
  rewrite (compute_schedule_nonempty tasks) by done. cbv zeta.
  fold (task_graph tasks).
  destruct (compute_dicts (task_graph tasks) (pert <$> tasks)) as [[s total]| |];
    [|done..].
  simpl.
  pose proof (update_tasks_idem s start_date (pert <$> tasks) 0) as Hidem.
  destruct (update_tasks s start_date 0 (pert <$> tasks)) as [tasks2 [[]| |]] eqn:Hup;
    simpl in Hidem.
  - destruct (dag_longest_path (task_graph tasks)); simpl; by rewrite Hidem.
  - simpl. by rewrite Hidem.
  - simpl. by rewrite Hidem.
Qed.

(** ** Dependency entries out of range *)

Definition set_dependencies (v : option (list Z)) (t : Task) : Task :=
  mkTask (task_id t) (name t) (optimistic_duration t) (most_likely_duration t)
    (pessimistic_duration t) (expected_duration t) (earliest_start t) (earliest_finish t)
    (latest_start t) (latest_finish t) (slack t) (start_date t) (end_date t)
    v (is_complete t) (is_on_critical_path t).

(** The range check of step 2. *)
Definition in_range (n : nat) (d : Z) : Prop := (0 ≤ d < Z.of_nat n)%Z.

#[global] Instance in_range_dec (n : nat) (d : Z) : Decision (in_range n d).
Proof. unfold in_range. apply _. Defined.

(** The task without the entries of its dependency list that are out of
    range for a list of [n] tasks. *)
Definition drop_out_of_range (n : nat) (t : Task) : Task :=
  set_dependencies (filter (in_range n) <$> dependencies t) t.

Lemma foldl_add_dependency_filter (n i : nat) (deps : list Z) (G : DiGraph) :
  foldl (add_dependency n i) G (filter (in_range n) deps)
  = foldl (add_dependency n i) G deps.
Proof.
  revert G. induction deps as [|d deps IH]; intros G; [done|].
  rewrite filter_cons. destruct (decide (in_range n d)) as [Hd|Hd].
  - simpl. apply IH.
  - simpl. assert (add_dependency n i G d = G) as ->; [|apply IH].
    unfold add_dependency. by rewrite decide_False.
Qed.

Lemma add_dependencies_drop (n : nat) (G : DiGraph) (i : nat) (t : Task) :
  add_dependencies n G (i, drop_out_of_range n t) = add_dependencies n G (i, t).
Proof.
  unfold add_dependencies. simpl. destruct (dependencies t) as [deps|]; [|done]. simpl.
  transitivity (foldl (add_dependency n i) G (filter (in_range n) deps)).
  { by destruct (filter (in_range n) deps). }
  rewrite foldl_add_dependency_filter. by destruct deps.
Qed.

Lemma foldl_enumerate_drop (n : nat) (F : DiGraph → nat * Task → DiGraph) :
  (∀ G i a, F G (i, drop_out_of_range n a) = F G (i, a)) →
  ∀ tasks k G,
    foldl F G (zip (seq k (length tasks)) (drop_out_of_range n <$> tasks))
    = foldl F G (zip (seq k (length tasks)) tasks).
Proof.
  intros HF. induction tasks as [|a l IH]; intros k G; [done|].
  simpl. rewrite HF. apply IH.
Qed.

Lemma build_graph_drop (tasks : list Task) :
  build_graph (drop_out_of_range (length tasks) <$> tasks) = build_graph tasks.
Proof.
  unfold build_graph, enumerate. rewrite !length_fmap.
  rewrite (foldl_enumerate_drop (length tasks)
             (λ G it, add_node it.1 (expected_duration it.2) G)) by done.
  apply foldl_enumerate_drop. intros G i a. apply add_dependencies_drop.
Qed.

Lemma update_tasks_drop (s : schedule) (sd : datetime) (n : nat) (tasks : list Task)
    (k : nat) :
  update_tasks s sd k (drop_out_of_range n <$> tasks)
  = (drop_out_of_range n <$> (update_tasks s sd k tasks).1,
     (update_tasks s sd k tasks).2).
Proof.
  assert (∀ i t, update_task s sd i (drop_out_of_range n t)
                 = (drop_out_of_range n (update_task s sd i t).1,
                    (update_task s sd i t).2)) as Hone.
  { intros i t. unfold update_task.
    destruct (sched_earliest_start s !! i); [|done].
    destruct (sched_earliest_finish s !! i); [|done].
    destruct (sched_latest_start s !! i); [|done].
    destruct (sched_latest_finish s !! i); [|done].
    destruct (sched_slack s !! i); [|done].
    destruct (add_days sd _) as [d1| |]; [|done..].
    by destruct (add_days sd _) as [d2| |]. }
  revert k. induction tasks as [|t tasks IH]; intros k; [done|].
  simpl. rewrite Hone.
  destruct (update_task s sd k t) as [t' [[]| |]]; simpl; [|done..].
  by rewrite IH.
Qed.

(** The run on the list without its out-of-range entries. *)
Lemma compute_schedule_drop (tasks : list Task) (start_date : option datetime)
    (now : datetime) :
  compute_schedule (drop_out_of_range (length tasks) <$> tasks) start_date now
  = (drop_out_of_range (length tasks) <$> (compute_schedule tasks start_date now).1,
     (compute_schedule tasks start_date now).2).
Proof.
  destruct (decide (tasks = [])) as [->|Hne]; [done|].
  assert (drop_out_of_range (length tasks) <$> tasks ≠ []) as Hne'
    by (by destruct tasks).
  rewrite !compute_schedule_nonempty by done. cbv zeta.
  assert (pert <$> (drop_out_of_range (length tasks) <$> tasks)
          = drop_out_of_range (length tasks) <$> (pert <$> tasks)) as ->.
  { rewrite <-!list_fmap_compose. by apply list_fmap_ext. }
  pose proof (build_graph_drop (pert <$> tasks)) as HG.
  rewrite length_fmap in HG. rewrite HG.
  rewrite (compute_dicts_ext _ (drop_out_of_range (length tasks) <$> (pert <$> tasks))
             (pert <$> tasks)).
  2:{ apply Forall2_fmap_l, Forall2_same_length_lookup_2; [done|].
      intros j x y Hx Hy. by simplify_eq. }
  destruct (compute_dicts _ _) as [[s total]| |]; [|done..].
  rewrite update_tasks_drop.
  destruct (update_tasks s _ 0 (pert <$> tasks)) as [tasks2 [[]| |]]; simpl; [|done..].
  by destruct (dag_longest_path _).
Qed.

(** A task that lists itself as a prerequisite, and the same task without
    that entry. *)
Definition self_dependent : list Task := [ example_task 1 2 3 [0%Z] ].
Definition self_dependent_dropped : list Task := [ example_task 1 2 3 [] ].

(** C2, as stated, fails for a self-referential entry: the entry becomes a
    self-loop of the graph and the run ends in the cycle error, whereas
    the run without the entry succeeds. *)
Lemma self_reference_not_dropped :
  predecessors (task_graph self_dependent) 0 = [0] ∧
  (compute_schedule self_dependent None new_year_2025).2
  = Raise (ValueError cycle_message) ∧
  (compute_schedule self_dependent_dropped None new_year_2025).2 = Ok ([0], 2%float).
Proof. split_and!; vm_compute; reflexivity. Qed.

(** C2 (amended): [compute_schedule] drops every dependency entry that is
    out of range: the run gives the same outcome, and the same tasks up to
    those entries, as the run on the list without them, and the edges of
    the graph are exactly the entries in range.  An entry in range that
    names the task itself is kept and makes the run raise the cycle
    error. *)
Theorem out_of_range_dropped (tasks : list Task) (start_date : option datetime)
    (now : datetime) :
  compute_schedule (drop_out_of_range (length tasks) <$> tasks) start_date now
  = (drop_out_of_range (length tasks) <$> (compute_schedule tasks start_date now).1,
     (compute_schedule tasks start_date now).2) ∧
  (∀ u i, edge (task_graph tasks) u i ↔
          ∃ t deps, tasks !! i = Some t ∧ dependencies t = Some deps ∧
                    Z.of_nat u ∈ deps ∧ in_range (length tasks) (Z.of_nat u)) ∧
  (∀ i t deps, tasks !! i = Some t → dependencies t = Some deps → Z.of_nat i ∈ deps →
     compute_schedule tasks start_date now
     = (pert <$> tasks, Raise (ValueError cycle_message))).
Proof.
  split_and!.
  - apply compute_schedule_drop.
  - intros u i. unfold edge. rewrite task_graph_pred. unfold dep_edge, in_range_dep, in_range.
    split.
    + intros (t & Ht & deps & Hd & Hin & Hu). exists t, deps.
      repeat split; try done; lia.
    + intros (t & deps & Ht & Hd & Hin & Hu). exists t. split; [done|].
      exists deps. split_and!; [done..|lia].
  - intros i t deps Ht Hd Hin. apply compute_schedule_cyclic.
    exists i. apply tc_once. exists t. split; [done|]. exists deps.
    split_and!; [done..|]. by eapply lookup_lt_Some.
Qed.

Lemma out_of_range_dropped_witness :
  self_dependent !! 0 = Some (example_task 1 2 3 [0%Z]) ∧
  dependencies (example_task 1 2 3 [0%Z]) = Some [0%Z] ∧
  Z.of_nat 0 ∈ [0%Z] ∧
  compute_schedule self_dependent None new_year_2025
  = (pert <$> self_dependent, Raise (ValueError cycle_message)).
Proof.
  split_and!; [reflexivity|reflexivity|left|].
  destruct (out_of_range_dropped self_dependent None new_year_2025) as (_ & _ & Hself).
  apply (Hself 0 (example_task 1 2 3 [0%Z]) [0%Z]); [reflexivity|reflexivity|left].
Defined.

(** Two tasks that wait for each other. *)
Definition mutual : list Task :=
  [ example_task 1 2 3 [1%Z]; example_task 1 2 3 [0%Z] ].

Lemma mutual_cyclic : cyclic_deps mutual.
Proof. apply cyclic_check. vm_compute. reflexivity. Qed.

(** C3, as stated, fails: when the cycle is detected, step 1 has already
    written [expected_duration] into the tasks. *)
Lemma cycle_leaves_expected_duration :
  cyclic_deps mutual ∧
  mutual !! 0 ≫= expected_duration = None ∧
  (compute_schedule mutual None new_year_2025).1 !! 0 ≫= expected_duration
  = Some 2%float.
Proof. split_and!; [exact mutual_cyclic|reflexivity|vm_compute; reflexivity]. Qed.

(** C3 (amended): for every task list whose dependency graph has a cycle,
    [compute_schedule] raises the cyclic-dependency error and returns
    nothing; the tasks are left with [expected_duration] rewritten by the
    PERT formula and every other attribute as it was. *)
Theorem cycle_rejected (tasks : list Task) (project_start : option datetime)
    (now : datetime) :
  cyclic_deps tasks →
  (compute_schedule tasks project_start now).2 = Raise (ValueError cycle_message) ∧
  length (compute_schedule tasks project_start now).1 = length tasks ∧
  ∀ i t, tasks !! i = Some t →
    ∃ t', (compute_schedule tasks project_start now).1 !! i = Some t' ∧
          t' = set_expected_duration (pert_value t) t ∧
          earliest_start t' = earliest_start t ∧
          earliest_finish t' = earliest_finish t ∧
          latest_start t' = latest_start t ∧
          latest_finish t' = latest_finish t ∧
          slack t' = slack t ∧
          is_on_critical_path t' = is_on_critical_path t ∧
          start_date t' = start_date t ∧
          end_date t' = end_date t.
Proof.
  intros Hcyc. rewrite (compute_schedule_cyclic tasks project_start now Hcyc). simpl.
  split_and!; [done|by rewrite length_fmap|].
  intros i t Ht. exists (pert t). rewrite list_lookup_fmap, Ht. done.
Qed.

Lemma cycle_rejected_witness :
  cyclic_deps mutual ∧
  (compute_schedule mutual None new_year_2025).2 = Raise (ValueError cycle_message) ∧
  length (compute_schedule mutual None new_year_2025).1 = 2.
Proof.
  split; [exact mutual_cyclic|].
  destruct (cycle_rejected mutual None new_year_2025 mutual_cyclic) as (Hraise & Hlen & _).
  split; [exact Hraise|exact Hlen].
Defined.

(** ** The deadline analysis of [generate_insights] *)
















(** A long task without dependencies next to a chain of two short ones. *)
Definition long_task_example : list Task :=
  [ example_task 10 10 10 []; example_task 1 1 1 []; example_task 1 1 1 [1%Z] ].

Definition long_task_run : list Task * result (list nat * float) :=
  compute_schedule long_task_example (Some new_year_2025) new_year_2025.

(** The sum of the expected durations of the tasks of a path. *)
Definition path_duration (tasks : list Task) (path : list nat) : float :=
  foldl (λ acc v, acc + field expected_duration tasks v)%float 0%float path.

(** C1: the critical path [compute_schedule] returns is not the longest
    path by expected duration.  [dag_longest_path] reads the attribute
    [weight] of the edges, which step 2 never sets (the durations are node
    attributes), so every edge counts 1: on the example the run returns
    the chain [[1; 2]], of duration 2, whereas task 0, which has neither
    predecessor nor successor, is a path of duration 10, the total
    duration. *)
Theorem critical_path_counts_edges :
  ¬ cyclic_deps long_task_example ∧
  long_task_run.2 = Ok ([1; 2], 10%float) ∧
  path_duration long_task_run.1 [1; 2] = 2%float ∧
  path_duration long_task_run.1 [0] = 10%float ∧
  predecessors (task_graph long_task_example) 0 = [] ∧
  successors (task_graph long_task_example) 0 = [] ∧
  edge_weight (task_graph long_task_example) = ∅.
Proof.
  split; [apply acyclic_check; vm_compute; reflexivity|].
  split_and!; vm_compute; reflexivity.
Qed.

(** * Further properties of the service *)

(** X1: the acyclicity test of step 3 decides whether the dependency
    relation of the task list has a cycle; it returns and never raises. *)
Theorem acyclicity_test_decides (tasks : list Task) :
  (is_directed_acyclic_graph (task_graph tasks) = Ok true ∧ ¬ cyclic_deps tasks) ∨
  (is_directed_acyclic_graph (task_graph tasks) = Ok false ∧ cyclic_deps tasks).
Proof.
  destruct (is_directed_acyclic_graph_spec (task_graph tasks) (task_graph_wf tasks))
    as [[H Hacyc]|[H Hcyc]].
  - left. split; [done|]. intros Hc. apply Hacyc. by apply cyclic_build_graph.
  - right. split; [done|]. by apply cyclic_build_graph.
Qed.

(** X2: on an acyclic task list the topological sort of step 4 returns
    every task index once, each after all of its prerequisites. *)
Theorem topological_sort_orders_tasks (tasks : list Task) :
  ¬ cyclic_deps tasks →
  ∃ order,
    topological_sort (task_graph tasks) = Ok order ∧
    NoDup order ∧
    (∀ i, i ∈ order ↔ i < length tasks) ∧
    ∀ k i u, order !! k = Some i → dep_edge tasks u i →
      ∃ j, j < k ∧ order !! j = Some u.
Proof.
  intros Hacyc.
  destruct (topological_sort_spec (task_graph tasks) (task_graph_wf tasks))
    as [(order & Hsort & Hnd & Hall & Hsorted)|(_ & vis & Hstuck)].
  - exists order. split_and!; [done|done| |].
    + intros i. rewrite Hall. apply task_graph_nodes.
    + intros k i u Hk Hu. apply (Hsorted k i u Hk). by apply task_graph_pred.
  - destruct Hacyc. apply cyclic_build_graph.
    by eapply stuck_cyclic, Hstuck; apply task_graph_wf.
Qed.

Lemma topological_sort_orders_tasks_witness :
  ¬ cyclic_deps diamond ∧
  ∃ order, topological_sort (task_graph diamond) = Ok order ∧ NoDup order.
Proof.
  split; [exact diamond_acyclic|].
  destruct (topological_sort_orders_tasks diamond diamond_acyclic)
    as (order & Hsort & Hnd & _).
  exists order. split; [exact Hsort|exact Hnd].
Defined.

(** X3: the outcomes of [compute_schedule].  A list whose dependency
    relation has a cycle ends in the cycle error; any other list returns,
    or ends in [OverflowError] or the NaN [ValueError] of the date
    arithmetic of step 8.  No other exception escapes and the loops of
    the NetworkX routines terminate. *)
Theorem compute_schedule_outcomes (tasks : list Task) (start_date : option datetime)
    (now : datetime) :
  (cyclic_deps tasks ∧
   (compute_schedule tasks start_date now).2 = Raise (ValueError cycle_message)) ∨
  (¬ cyclic_deps tasks ∧
   returns_or_date_error (compute_schedule tasks start_date now).2).
Proof.
  destruct (is_directed_acyclic_graph_spec (task_graph tasks) (task_graph_wf tasks))
    as [[_ Hacyc]|[_ Hcyc]].
  - right. assert (¬ cyclic_deps tasks) as Hacyc'.
    { intros Hc. apply Hacyc. by apply cyclic_build_graph. }
    split; [done|]. destruct (decide (tasks = [])) as [->|Hne]; [left; simpl; eauto|].
    destruct (compute_schedule_run tasks start_date now Hne Hacyc')
      as (order & s & total & cp & _ & _ & Hout).
    destruct (compute_schedule tasks start_date now) as [tasks' r] eqn:Hrun.
    destruct (Hout tasks' r eq_refl) as [_ [(-> & _)|Herr]]; [left; eauto|by right].
  - left. apply cyclic_build_graph in Hcyc. split; [done|].
    by rewrite compute_schedule_cyclic.
Qed.

(** The attributes of a task that no step assigns. *)
Definition same_identity (a b : Task) : Prop :=
  task_id a = task_id b ∧ name a = name b ∧
  optimistic_duration a = optimistic_duration b ∧
  most_likely_duration a = most_likely_duration b ∧
  pessimistic_duration a = pessimistic_duration b ∧
  dependencies a = dependencies b ∧ is_complete a = is_complete b.

Lemma same_identity_refl (a : Task) : same_identity a a.
Proof. by repeat split. Qed.

Lemma update_task_same_identity (s : schedule) (sd : datetime) (i : nat) (t : Task) :
  same_identity t (update_task s sd i t).1.
Proof.
  unfold update_task.
  destruct (sched_earliest_start s !! i); [|apply same_identity_refl].
  destruct (sched_earliest_finish s !! i); [|by repeat split].
  destruct (sched_latest_start s !! i); [|by repeat split].
  destruct (sched_latest_finish s !! i); [|by repeat split].
  destruct (sched_slack s !! i); [|by repeat split].
  destruct (add_days sd _) as [d1| |]; [|by repeat split..].
  destruct (add_days sd _) as [d2| |]; by repeat split.
Qed.

Lemma update_tasks_same_identity (s : schedule) (sd : datetime) (tasks : list Task)
    (k : nat) :
  Forall2 same_identity tasks (update_tasks s sd k tasks).1.
Proof.
  revert k. induction tasks as [|t tasks IH]; intros k; [constructor|].
  cbn [update_tasks]. pose proof (update_task_same_identity s sd k t) as Ht.
  destruct (update_task s sd k t) as [t' [[]| |]]; simpl in *.
  - constructor; [done|apply IH].
  - constructor; [done|]. apply Forall2_same_length_lookup_2; [done|].
    intros j x y Hx Hy. simplify_eq. apply same_identity_refl.
  - constructor; [done|]. apply Forall2_same_length_lookup_2; [done|].
    intros j x y Hx Hy. simplify_eq. apply same_identity_refl.
Qed.

(** X4: whatever the outcome, [compute_schedule] leaves the task list with
    its length and every task with its id, name, three estimates,
    dependency list and completion flag. *)
Theorem compute_schedule_keeps_inputs (tasks : list Task) (start_date : option datetime)
    (now : datetime) :
  Forall2 same_identity tasks (compute_schedule tasks start_date now).1.
Proof.
  destruct (decide (tasks = [])) as [->|Hne]; [constructor|].
  rewrite compute_schedule_nonempty by done. cbv zeta.
  assert (Forall2 same_identity tasks (pert <$> tasks)) as Hpert.
  { apply Forall2_fmap_r, Forall2_same_length_lookup_2; [done|].
    intros j x y Hx Hy. simplify_eq. by repeat split. }
  assert (∀ X, Forall2 same_identity (pert <$> tasks) X → Forall2 same_identity tasks X)
    as Htrans.
  { intros X HX. apply Forall2_same_length_lookup_2.
    - rewrite <-(Forall2_length _ _ _ HX). by rewrite length_fmap.
    - intros j x y Hx Hy.
      destruct (Forall2_lookup_l _ _ _ j x Hpert Hx) as (x' & Hx' & H1).
      destruct (Forall2_lookup_l _ _ _ j x' HX Hx') as (y' & Hy' & H2).
      simplify_eq. destruct H1 as (? & ? & ? & ? & ? & ? & ?).
      destruct H2 as (? & ? & ? & ? & ? & ? & ?).
      repeat split; congruence. }
  destruct (compute_dicts _ _) as [[s total]| |]; [|done..].
  pose proof (update_tasks_same_identity s (default now start_date) (pert <$> tasks) 0)
    as Hup.
  destruct (update_tasks _ _ _ _) as [tasks2 [[]| |]]; simpl in Hup;
    [|by apply Htrans..].
  destruct (dag_longest_path _); by apply Htrans.
Qed.

(** X5: a run that returns has computed finite numbers: the total
    duration and every earliest start and finish are finite floats, and
    no latest start or finish is NaN. *)
Theorem successful_run_is_finite (tasks : list Task) (start_date : option datetime)
    (now : datetime) (tasks' : list Task) (critical_path : list nat) (total : float) :
  ¬ cyclic_deps tasks →
  compute_schedule tasks start_date now = (tasks', Ok (critical_path, total)) →
  finite total = true ∧
  ∀ i, i < length tasks →
    finite (field earliest_start tasks' i) = true ∧
    finite (field earliest_finish tasks' i) = true ∧
    finite (field expected_duration tasks' i) = true ∧
    is_nan (field latest_start tasks' i) = false ∧
    is_nan (field latest_finish tasks' i) = false.
Proof.
  intros Hacyc Hrun. destruct (decide (tasks = [])) as [->|Hne].
  { simpl in Hrun. simplify_eq. split; [done|]. simpl. lia. }
  destruct (compute_schedule_run tasks start_date now Hne Hacyc)
    as (order & s & total' & cp & Horder & Heqs & Hout).
  destruct (Hout tasks' _ Hrun) as [Hlen [([= <- <-] & Hfin & Hhold)|(e & [=] & _)]].
  pose proof (task_graph_wf tasks) as Hwf.
  split.
  - destruct tasks as [|t ts]; [done|].
    apply (total_finite _ _ _ _ _ Horder Heqs Hfin 0).
    apply task_graph_nodes. simpl. lia.
  - intros i Hi. pose proof (proj2 (task_graph_nodes tasks i) Hi) as Hnode.
    destruct (holds_schedule_field _ _ _ _ (Hhold i Hi)) as (-> & -> & -> & -> & _ & ->).
    destruct (Hfin i Hnode) as [? ?].
    destruct (latest_not_nan _ _ _ _ _ Hwf Horder Heqs Hfin i Hnode) as [? ?].
    split_and!; [done..| |done|done].
    by apply (dur_finite _ _ _ _ _ Heqs Hfin).
Qed.

Lemma successful_run_is_finite_witness :
  ¬ cyclic_deps diamond ∧
  compute_schedule diamond (Some new_year_2025) new_year_2025
  = ((compute_schedule diamond (Some new_year_2025) new_year_2025).1,
     Ok ([0; 1; 3], 12%float)) ∧
  finite 12%float = true.
Proof.
  assert (compute_schedule diamond (Some new_year_2025) new_year_2025
          = ((compute_schedule diamond (Some new_year_2025) new_year_2025).1,
             Ok ([0; 1; 3], 12%float))) as Hrun by (vm_compute; reflexivity).
  split; [exact diamond_acyclic|]. split; [exact Hrun|].
  exact (proj1 (successful_run_is_finite diamond (Some new_year_2025) new_year_2025
                  _ _ _ diamond_acyclic Hrun)).
Defined.

(** X6: in a run that returns, no task starts before its prerequisites
    have finished: [earliest_finish[u] <= earliest_start[i]] for every
    dependency of [i] on [u] that is in range. *)
Theorem precedence_respected (tasks : list Task) (start_date : option datetime)
    (now : datetime) (tasks' : list Task) (critical_path : list nat) (total : float)
    (u i : nat) :
  ¬ cyclic_deps tasks →
  compute_schedule tasks start_date now = (tasks', Ok (critical_path, total)) →
  dep_edge tasks u i →
  fle (field earliest_finish tasks' u) (field earliest_start tasks' i).
Proof.
  intros Hacyc Hrun Hedge.
  destruct (dep_edge_lt tasks u i Hedge) as [Hu Hi].
  assert (tasks ≠ []) as Hne by (intros ->; simpl in Hu; lia).
  destruct (compute_schedule_run tasks start_date now Hne Hacyc)
    as (order & s & total' & cp & Horder & Heqs & Hout).
  destruct (Hout tasks' _ Hrun) as [Hlen [([= <- <-] & Hfin & Hhold)|(e & [=] & _)]].
  pose proof (task_graph_wf tasks) as Hwf.
  destruct (holds_schedule_field _ _ _ _ (Hhold u Hu)) as (_ & -> & _).
  destruct (holds_schedule_field _ _ _ _ (Hhold i Hi)) as (-> & _).
  pose proof (es_max _ _ _ _ _ Hwf Heqs Hfin i (proj2 (task_graph_nodes tasks i) Hi))
    as Hes.
  apply task_graph_pred in Hedge.
  destruct (predecessors (task_graph tasks) i) as [|p ps];
    [by apply elem_of_nil in Hedge|].
  destruct Hes as [_ Hub]. apply Hub. apply list_elem_of_fmap. eauto.
Qed.

Lemma precedence_respected_witness :
  ¬ cyclic_deps diamond ∧
  compute_schedule diamond (Some new_year_2025) new_year_2025
  = ((compute_schedule diamond (Some new_year_2025) new_year_2025).1,
     Ok ([0; 1; 3], 12%float)) ∧
  dep_edge diamond 2 3 ∧
  fle (field earliest_finish
         (compute_schedule diamond (Some new_year_2025) new_year_2025).1 2)
      (field earliest_start
         (compute_schedule diamond (Some new_year_2025) new_year_2025).1 3).
Proof.
  assert (compute_schedule diamond (Some new_year_2025) new_year_2025
          = ((compute_schedule diamond (Some new_year_2025) new_year_2025).1,
             Ok ([0; 1; 3], 12%float))) as Hrun by (vm_compute; reflexivity).
  assert (dep_edge diamond 2 3) as Hedge.
  { apply task_graph_pred. vm_compute. right. left. }
  split; [exact diamond_acyclic|]. split; [exact Hrun|]. split; [exact Hedge|].
  exact (precedence_respected diamond (Some new_year_2025) new_year_2025 _ _ _ 2 3
           diamond_acyclic Hrun Hedge).
Defined.

(** X7: for an acyclic list [dag_longest_path] returns, so the [except]
    branch of step 9, which falls back on the zero-slack nodes, is never
    taken. *)
Theorem longest_path_fallback_unused (tasks : list Task) :
  ¬ cyclic_deps tasks → ∃ critical_path, dag_longest_path (task_graph tasks) = Ok critical_path.
Proof.
  intros Hacyc.
  destruct (topological_sort_spec (task_graph tasks) (task_graph_wf tasks))
    as [(order & Hsort & Horder)|(_ & vis & Hstuck)].
  - by eapply dag_longest_path_returns.
  - destruct Hacyc. apply cyclic_build_graph.
    by eapply stuck_cyclic, Hstuck; apply task_graph_wf.
Qed.

Lemma longest_path_fallback_unused_witness :
  ¬ cyclic_deps diamond ∧
  ∃ critical_path, dag_longest_path (task_graph diamond) = Ok critical_path.
Proof.
  split; [exact diamond_acyclic|].
  exact (longest_path_fallback_unused diamond diamond_acyclic).
Defined.

(** X8: every date written by a run that returns lies in the years 1 to
    9999: it is the start date plus the earliest start (finish) as a
    [timedelta]. *)
Theorem dates_written (tasks : list Task) (project_start : option datetime)
    (now : datetime) (tasks' : list Task) (critical_path : list nat) (total : float)
    (i : nat) :
  ¬ cyclic_deps tasks →
  compute_schedule tasks project_start now = (tasks', Ok (critical_path, total)) →
  i < length tasks →
  ∃ t' sd ed,
    tasks' !! i = Some t' ∧ start_date t' = Some sd ∧ end_date t' = Some ed ∧
    add_days (default now project_start) (field earliest_start tasks' i) = Ok sd ∧
    add_days (default now project_start) (field earliest_finish tasks' i) = Ok ed ∧
    (0 ≤ sd < max_ordinal * us_per_day)%Z ∧ (0 ≤ ed < max_ordinal * us_per_day)%Z.
Proof.
  intros Hacyc Hrun Hi.
  assert (tasks ≠ []) as Hne by (intros ->; simpl in Hi; lia).
  destruct (compute_schedule_acyclic tasks project_start now Hne Hacyc)
    as (order & s & total' & cp & Horder & Heqs & _ & Hout).
  rewrite Hout in Hrun.
  destruct (update_tasks s (default now project_start) 0 (pert <$> tasks))
    as [tasks2 r2] eqn:Hup.
  destruct (update_tasks_outcome s (default now project_start) (pert <$> tasks) 0)
    with (tasks' := tasks2) (r := r2) as [Hlen Hcases]; [|done|].
  { intros j Hj. rewrite length_fmap in Hj.
    apply (se_dom _ _ _ _ _ Heqs). apply task_graph_nodes. lia. }
  destruct Hcases as [[-> Hok]|(e & -> & He)]; [|done]. simplify_eq.
  destruct (lookup_lt_is_Some_2 tasks i Hi) as [t Ht].
  destruct (Hok i (pert t)) as (sd & ed & Hsd & Hed & _ & _ & Ht').
  { by rewrite list_lookup_fmap, Ht. }
  simpl in *. exists (write_task s sd ed i (pert t)), sd, ed.
  assert (field earliest_start tasks' i = ES s i ∧ field earliest_finish tasks' i = EF s i)
    as [-> ->] by (unfold field; by rewrite Ht').
  assert (∀ x d, add_days (default now project_start) x = Ok d →
                 (0 ≤ d < max_ordinal * us_per_day)%Z) as Hrange.
  { intros x d. unfold add_days.
    destruct (timedelta_days x) as [td| |]; simpl; [|done..].
    unfold datetime_add. cbv zeta. case_decide as Hr; [|done]. intros [= <-]. exact Hr. }
  do 5 (split; [done|]). split; by eapply Hrange.
Qed.

Lemma dates_written_witness :
  ¬ cyclic_deps diamond ∧
  compute_schedule diamond (Some new_year_2025) new_year_2025
  = ((compute_schedule diamond (Some new_year_2025) new_year_2025).1,
     Ok ([0; 1; 3], 12%float)) ∧
  3 < length diamond ∧
  ∃ t' sd ed,
    (compute_schedule diamond (Some new_year_2025) new_year_2025).1 !! 3 = Some t' ∧
    start_date t' = Some sd ∧ end_date t' = Some ed.
Proof.
  assert (compute_schedule diamond (Some new_year_2025) new_year_2025
          = ((compute_schedule diamond (Some new_year_2025) new_year_2025).1,
             Ok ([0; 1; 3], 12%float))) as Hrun by (vm_compute; reflexivity).
  assert (3 < length diamond) as Hlt by (simpl; lia).
  split; [exact diamond_acyclic|]. split; [exact Hrun|]. split; [exact Hlt|].
  destruct (dates_written diamond (Some new_year_2025) new_year_2025 _ _ _ 3
              diamond_acyclic Hrun Hlt) as (t' & sd & ed & Ht' & Hsd & Hed & _).
  exists t', sd, ed. split; [exact Ht'|]. split; [exact Hsd|exact Hed].
Defined.



(** The graph without its node attributes. *)
Definition forget_weights (G : DiGraph) : DiGraph :=
  mkDiGraph (nodes G) ∅ (succ G) (pred G) (edge_weight G).

Lemma generations_loop_forget (fuel : nat) (G : DiGraph) (indeg : gmap nat Z)
    (zero : list nat) :
  generations_loop fuel (forget_weights G) indeg zero = generations_loop fuel G indeg zero.
Proof.
  revert indeg zero. induction fuel as [|fuel IH]; intros indeg zero; [done|].
  destruct zero as [|z zero]; [done|]. cbn [generations_loop].
  rewrite (foldM_ext (visit_node (forget_weights G)) (visit_node G)) by done.
  destruct (foldM (visit_node G) _ _) as [st| |]; [|done..]. simpl. by rewrite IH.
Qed.

Lemma topological_sort_forget (G : DiGraph) :
  topological_sort (forget_weights G) = topological_sort G.
Proof.
  unfold topological_sort, topological_generations.
  change (nodes (forget_weights G)) with (nodes G).
  change (initial_indegree (forget_weights G)) with (initial_indegree G).
  change (initial_zero (forget_weights G)) with (initial_zero G).
  by rewrite generations_loop_forget.
Qed.

(** [dag_longest_path] does not read the node attributes. *)
Lemma dag_longest_path_forget (G : DiGraph) :
  dag_longest_path (forget_weights G) = dag_longest_path G.
Proof.
  unfold dag_longest_path. change (nodes (forget_weights G)) with (nodes G).
  destruct (nodes G) as [|n ns]; [done|].
  rewrite topological_sort_forget.
  destruct (topological_sort G) as [order| |]; [|done..]. simpl.
  by rewrite (foldM_ext (dist_step (forget_weights G)) (dist_step G)).
Qed.

Lemma forget_add_node (n : nat) (w w' : option float) (G G' : DiGraph) :
  forget_weights G = forget_weights G' →
  forget_weights (add_node n w G) = forget_weights (add_node n w' G').
Proof. destruct G, G'. unfold forget_weights, add_node. simpl. by intros [= -> -> -> ->]. Qed.

Lemma forget_add_dependency (n i : nat) (l : list Z) (G G' : DiGraph) :
  forget_weights G = forget_weights G' →
  forget_weights (foldl (add_dependency n i) G l)
  = forget_weights (foldl (add_dependency n i) G' l).
Proof.
  revert G G'. induction l as [|x l IH]; intros G G' HG; [done|]. simpl. apply IH.
  unfold add_dependency. case_decide; [|done].
  destruct G, G'. unfold forget_weights, add_edge, successors, predecessors in *.
  simpl in *. by injection HG as -> -> -> ->.
Qed.

Lemma forget_add_dependencies (n : nat) (G G' : DiGraph) (i : nat) (a b : Task) :
  dependencies a = dependencies b →
  forget_weights G = forget_weights G' →
  forget_weights (add_dependencies n G (i, a)) = forget_weights (add_dependencies n G' (i, b)).
Proof.
  intros Hd HG. unfold add_dependencies. cbn [fst snd]. rewrite <-Hd.
  destruct (dependencies a) as [[|d ds]|]; [done| |done].
  by apply forget_add_dependency.
Qed.

Lemma forget_build_graph (tasks tasks' : list Task) :
  Forall2 (λ a b, dependencies a = dependencies b) tasks tasks' →
  forget_weights (build_graph tasks) = forget_weights (build_graph tasks').
Proof.
  intros Hsame. unfold build_graph, enumerate.
  rewrite <-(Forall2_length _ _ _ Hsame).
  assert (∀ (F F' : DiGraph → nat * Task → DiGraph),
            (∀ G G' i a b, dependencies a = dependencies b →
               forget_weights G = forget_weights G' →
               forget_weights (F G (i, a)) = forget_weights (F' G' (i, b))) →
            ∀ k G G', forget_weights G = forget_weights G' →
              forget_weights (foldl F G (zip (seq k (length tasks)) tasks))
              = forget_weights (foldl F' G' (zip (seq k (length tasks)) tasks')))
    as Hfold.
  { intros F F' HF. induction Hsame as [|a b l l' Hab Hl IH]; intros k G G' HG; [done|].
    simpl. apply IH. by apply HF. }
  apply (Hfold (add_dependencies (length tasks)) (add_dependencies (length tasks))).
  - intros G G' i a b Hab HG. by apply forget_add_dependencies.
  - apply (Hfold (λ G it, add_node it.1 (expected_duration it.2) G)
                 (λ G it, add_node it.1 (expected_duration it.2) G)); [|done].
    intros G G' i a b _ HG. by apply forget_add_node.
Qed.

(** X10: the critical path [compute_schedule] returns is a function of the
    dependency lists alone: two task lists with the same dependency lists
    get the same critical path, whatever their estimates. *)
Theorem critical_path_ignores_durations (tasks tasks' : list Task)
    (start_date start_date' : option datetime) (now now' : datetime)
    (out out' : list Task) (critical_path critical_path' : list nat)
    (total total' : float) :
  Forall2 (λ a b, dependencies a = dependencies b) tasks tasks' →
  compute_schedule tasks start_date now = (out, Ok (critical_path, total)) →
  compute_schedule tasks' start_date' now' = (out', Ok (critical_path', total')) →
  critical_path = critical_path'.
Proof.
  intros Hsame Hrun Hrun'.
  assert (∀ l sd nw o cp tot,
            compute_schedule l sd nw = (o, Ok (cp, tot)) →
            l = [] ∧ cp = [] ∨ l ≠ [] ∧ dag_longest_path (task_graph l) = Ok cp) as Hcp.
  { intros l sd nw o cp tot Hl. destruct (decide (l = [])) as [->|Hne].
    { left. simpl in Hl. by simplify_eq. }
    right. split; [done|].
    assert (¬ cyclic_deps l) as Hacyc.
    { intros Hc. by rewrite (compute_schedule_cyclic l sd nw Hc) in Hl. }
    destruct (compute_schedule_acyclic l sd nw Hne Hacyc)
      as (order & s & total0 & cp0 & _ & _ & Hpath & Hout).
    rewrite Hout in Hl. destruct (update_tasks _ _ _ _) as [t2 [[]| |]]; [|done..].
    by simplify_eq. }
  assert (forget_weights (task_graph tasks) = forget_weights (task_graph tasks')) as HG.
  { apply forget_build_graph. apply Forall2_fmap. eapply Forall2_impl; [exact Hsame|].
    by intros a b ?. }
  destruct (Hcp _ _ _ _ _ _ Hrun) as [[-> ->]|[Hne Hp]],
    (Hcp _ _ _ _ _ _ Hrun') as [[-> ->]|[Hne' Hp']]; [done| | |].
  - apply Forall2_length in Hsame. by destruct tasks'.
  - apply Forall2_length in Hsame. by destruct tasks.
  - rewrite <-dag_longest_path_forget, HG, dag_longest_path_forget, Hp' in Hp.
    by simplify_eq.
Qed.

Lemma critical_path_ignores_durations_witness :
  Forall2 (λ a b, dependencies a = dependencies b) long_task_example
    [ example_task 1 1 1 []; example_task 1 1 1 []; example_task 1 1 1 [1%Z] ] ∧
  compute_schedule long_task_example (Some new_year_2025) new_year_2025
  = (long_task_run.1, Ok ([1; 2], 10%float)) ∧
  compute_schedule
    [ example_task 1 1 1 []; example_task 1 1 1 []; example_task 1 1 1 [1%Z] ]
    (Some new_year_2025) new_year_2025
  = ((compute_schedule
        [ example_task 1 1 1 []; example_task 1 1 1 []; example_task 1 1 1 [1%Z] ]
        (Some new_year_2025) new_year_2025).1, Ok ([1; 2], 2%float)) ∧
  [1; 2] = [1; 2].
Proof.
  assert (Forall2 (λ a b, dependencies a = dependencies b) long_task_example
            [ example_task 1 1 1 []; example_task 1 1 1 []; example_task 1 1 1 [1%Z] ])
    as Hsame by (repeat constructor).
  assert (compute_schedule long_task_example (Some new_year_2025) new_year_2025
          = (long_task_run.1, Ok ([1; 2], 10%float))) as Hrun
    by (vm_compute; reflexivity).
  assert (compute_schedule
            [ example_task 1 1 1 []; example_task 1 1 1 []; example_task 1 1 1 [1%Z] ]
            (Some new_year_2025) new_year_2025
          = ((compute_schedule
                [ example_task 1 1 1 []; example_task 1 1 1 []; example_task 1 1 1 [1%Z] ]
                (Some new_year_2025) new_year_2025).1, Ok ([1; 2], 2%float))) as Hrun'
    by (vm_compute; reflexivity).
  split; [exact Hsame|]. split; [exact Hrun|]. split; [exact Hrun'|].
  exact (critical_path_ignores_durations _ _ _ _ _ _ _ _ _ _ _ _ Hsame Hrun Hrun').
Defined.
